(** * pistis::concurrent -- pollable concurrency primitives

    A shallow embedding of the bounded queue with watermark events
    (pollable/Queue.hpp), the pollable condition variable
    (pollable/Condition.hpp), the semaphore and the read/write toggle it is
    built on (pollable/Semaphore.cpp, pollable/ReadWriteToggle.cpp) and the
    epoll facade (EpollSet.cpp), together with the properties of these
    components that the specification states.

    Conventions.  Sizes, descriptors, counters and times are [Z]; a
    [size_t] or [uint64_t] is a [Z] in its range.  A member function is a
    computation in the monad [M], which threads the state it works on and
    ends by returning, by throwing, by suspending the calling thread for
    good, or in undefined behaviour. *)

From Stdlib Require Import ZArith List Bool Lia ZifyBool.
From stdpp Require Import base option list gmap strings.
Import ListNotations.

Local Open Scope Z_scope.

(** ** Results of calls *)

(** The exception kinds of pistis::exceptions that the library throws. *)
Inductive Error : Type :=
| IllegalValueError
| NoSuchItem
| ItemExistsError
| SystemError (errno : Z).

(** How a call ends.  [Blocks] carries the state in which the thread is
    suspended when nothing can wake it up any more; [Undefined] is C++
    undefined behaviour. *)
Inductive Outcome (S A : Type) : Type :=
| Returns (a : A) (s : S)
| Throws (e : Error) (s : S)
| Blocks (s : S)
| Undefined.

Arguments Returns {S A} a s.
Arguments Throws {S A} e s.
Arguments Blocks {S A} s.
Arguments Undefined {S A}.

Definition M (S A : Type) : Type := S -> Outcome S A.

Definition ret {S A} (a : A) : M S A := fun s => Returns a s.

Definition bind {S A B} (m : M S A) (k : A -> M S B) : M S B :=
  fun s =>
    match m s with
    | Returns a s' => k a s'
    | Throws e s' => Throws e s'
    | Blocks s' => Blocks s'
    | Undefined => Undefined
    end.

Definition throw {S A} (e : Error) : M S A := fun s => Throws e s.
Definition gets {S A} (f : S -> A) : M S A := fun s => Returns (f s) s.
Definition modify {S} (f : S -> S) : M S unit := fun s => Returns tt (f s).

(** [if (c) { body }] for a body without a result. *)
Definition when {S} (c : bool) (body : M S unit) : M S unit :=
  if c then body else ret tt.

Declare Scope cpp_scope.
Delimit Scope cpp_scope with cpp.
Notation "x <- m ;; k" := (bind m (fun x => k))
  (at level 20, m at level 99, k at level 200, format "'[v' x  <-  m  ;;  '/' k ']'") : cpp_scope.
Notation "m ;; k" := (bind m (fun _ => k))
  (at level 100, k at level 200, right associativity, format "'[v' m  ;;  '/' k ']'") : cpp_scope.
Local Open Scope cpp_scope.

Definition uint64_max : Z := 2 ^ 64 - 1.
Definition uint32_modulus : Z := 2 ^ 32.

(** The conversion of a value of a wider or of an unsigned type to [int],
    as where an [int64_t] or a [uint32_t] is passed for an [int]
    parameter: the value modulo 2^32, in the range of [int]. *)
Definition to_int (z : Z) : Z := (z + 2 ^ 31) mod 2 ^ 32 - 2 ^ 31.

(** ** The kernel objects behind the descriptors

    The part of Linux that the library talks to: a descriptor table with
    eventfd and epoll objects.  A system call returns its C return value
    and leaves the error number in [errno]; a call that the kernel would
    put to sleep with nobody left to wake it up ends in [Blocks]. *)

Module Kernel.

Definition ENOENT : Z := 2.
Definition EINTR : Z := 4.
Definition EBADF : Z := 9.
Definition EAGAIN : Z := 11.
Definition EEXIST : Z := 17.
Definition EINVAL : Z := 22.
Definition EMFILE : Z := 24.

Definition EFD_SEMAPHORE : Z := 1.
Definition EFD_CLOEXEC : Z := 524288.
Definition EPOLL_CLOEXEC : Z := 524288.

Definition EPOLLIN : Z := 1.
Definition EPOLLPRI : Z := 2.
Definition EPOLLOUT : Z := 4.
Definition EPOLLERR : Z := 8.
Definition EPOLLHUP : Z := 16.
Definition EPOLLRDHUP : Z := 8192.
Definition EPOLLONESHOT : Z := 2 ^ 30.
Definition EPOLLET : Z := 2 ^ 31.

Definition EPOLL_CTL_ADD : Z := 1.
Definition EPOLL_CTL_DEL : Z := 2.
Definition EPOLL_CTL_MOD : Z := 3.

(** An open file: an eventfd with its counter and whether it was created
    with EFD_SEMAPHORE, or an epoll instance with its interest list (watched
    descriptor to event mask). *)
Inductive File : Type :=
| EventFd (count : Z) (semaphore : bool)
| Epoll (interest : gmap Z Z).

Record t : Type := mk {
  files : gmap Z File;
  nofile : Z;      (* RLIMIT_NOFILE: descriptors are below this number *)
  errno : Z
}.

Definition set_files (fs : gmap Z File) (k : t) : t := mk fs (nofile k) (errno k).
Definition set_errno (e : Z) (k : t) : t := mk (files k) (nofile k) e.

(** A failing call returns -1 and sets errno. *)
Definition fail (e : Z) : M t Z := fun k => Returns (-1) (set_errno e k).

(** The lowest descriptor number that is not open. *)
Fixpoint first_free (fs : gmap Z File) (fuel : nat) (fd : Z) : Z :=
  match fuel with
  | O => fd
  | S fuel' =>
      match fs !! fd with
      | Some _ => first_free fs fuel' (fd + 1)
      | None => fd
      end
  end.

Definition lowest_free (fs : gmap Z File) : Z := first_free fs (size fs) 0.

Definition open_file (f : File) : M t Z :=
  fun k =>
    let fd := lowest_free (files k) in
    if fd <? nofile k then Returns fd (set_files (<[fd := f]> (files k)) k)
    else fail EMFILE k.

(** [eventfd(unsigned int initval, int flags)]. *)
Definition eventfd (initval flags : Z) : M t Z :=
  open_file (EventFd (initval mod 2 ^ 32) (Z.testbit flags 0)).

Definition epoll_create1 (flags : Z) : M t Z := open_file (Epoll ∅).

(** [read(fd, &v, 8)]: the return value and the value stored in [v].  The
    descriptors are created without EFD_NONBLOCK, so a read of a zero
    counter sleeps. *)
Definition read (fd : Z) : M t (Z * Z) :=
  fun k =>
    match files k !! fd with
    | Some (EventFd c sem) =>
        if c =? 0 then Blocks k
        else if sem then Returns (8, 1) (set_files (<[fd := EventFd (c - 1) sem]> (files k)) k)
        else Returns (8, c) (set_files (<[fd := EventFd 0 sem]> (files k)) k)
    | Some (Epoll _) => Returns (-1, 0) (set_errno EINVAL k)
    | None => Returns (-1, 0) (set_errno EBADF k)
    end.

(** [write(fd, &v, 8)]: the counter may not exceed 2^64 - 2; a write that
    would take it further sleeps. *)
Definition write (fd : Z) (v : Z) : M t Z :=
  fun k =>
    match files k !! fd with
    | Some (EventFd c sem) =>
        if v =? uint64_max then fail EINVAL k
        else if c + v <=? uint64_max - 1
        then Returns 8 (set_files (<[fd := EventFd (c + v) sem]> (files k)) k)
        else Blocks k
    | Some (Epoll _) => fail EINVAL k
    | None => fail EBADF k
    end.

(** Closing a descriptor also drops it from every interest list. *)
Definition forget (fd : Z) (f : File) : File :=
  match f with
  | Epoll i => Epoll (delete fd i)
  | EventFd c sem => EventFd c sem
  end.

Definition close (fd : Z) : M t Z :=
  fun k =>
    match files k !! fd with
    | Some _ => Returns 0 (set_files (forget fd <$> delete fd (files k)) k)
    | None => fail EBADF k
    end.

Definition epoll_ctl (epfd op fd events : Z) : M t Z :=
  fun k =>
    match files k !! epfd, files k !! fd with
    | None, _ | _, None => fail EBADF k
    | Some (EventFd _ _), Some _ => fail EINVAL k
    | Some (Epoll i), Some _ =>
        if fd =? epfd then fail EINVAL k
        else if op =? EPOLL_CTL_ADD then
          match i !! fd with
          | Some _ => fail EEXIST k
          | None => Returns 0 (set_files (<[epfd := Epoll (<[fd := events]> i)]> (files k)) k)
          end
        else if op =? EPOLL_CTL_MOD then
          match i !! fd with
          | Some _ => Returns 0 (set_files (<[epfd := Epoll (<[fd := events]> i)]> (files k)) k)
          | None => fail ENOENT k
          end
        else if op =? EPOLL_CTL_DEL then
          match i !! fd with
          | Some _ => Returns 0 (set_files (<[epfd := Epoll (delete fd i)]> (files k)) k)
          | None => fail ENOENT k
          end
        else fail EINVAL k
    end.

(** What poll reports for a file: an eventfd is readable when its counter
    is positive and writable while one can still be added to it. *)
Definition ready_mask (f : File) : Z :=
  match f with
  | EventFd c _ =>
      Z.lor (if 0 <? c then EPOLLIN else 0)
            (if c <? uint64_max - 1 then EPOLLOUT else 0)
  | Epoll _ => 0
  end.

(** The events an epoll instance has to report, in the level-triggered
    view (the edge and one-shot bookkeeping of a registration is not
    tracked). *)
Definition ready_events (fs : gmap Z File) (interest : gmap Z Z) : list (Z * Z) :=
  omap (fun '(fd, mask) =>
          match fs !! fd with
          | Some f =>
              let r := Z.land (ready_mask f) (Z.lor mask (Z.lor EPOLLERR EPOLLHUP)) in
              if r =? 0 then None else Some (fd, r)
          | None => None
          end)
       (map_to_list interest).

(** [epoll_wait(epfd, events, maxevents, timeout)]: the return value and
    the events stored.  With nothing ready, a non-negative timeout runs out
    and a negative one, which is no timeout, sleeps. *)
Definition epoll_wait (epfd maxevents timeout : Z) : M t (Z * list (Z * Z)) :=
  fun k =>
    match files k !! epfd with
    | None => Returns (-1, []) (set_errno EBADF k)
    | Some (EventFd _ _) => Returns (-1, []) (set_errno EINVAL k)
    | Some (Epoll i) =>
        if maxevents <=? 0 then Returns (-1, []) (set_errno EINVAL k)
        else
          let evs := take (Z.to_nat maxevents) (ready_events (files k) i) in
          match evs with
          | [] => if timeout <? 0 then Blocks k else Returns (0, []) k
          | _ => Returns (Z.of_nat (length evs), evs) k
          end
    end.

End Kernel.

(** Run a system call from a member function of an object of type [O]. *)
Definition sys {O A} (m : M Kernel.t A) : M (Kernel.t * O) A :=
  fun '(k, o) =>
    match m k with
    | Returns a k' => Returns a (k', o)
    | Throws e k' => Throws e (k', o)
    | Blocks k' => Blocks (k', o)
    | Undefined => Undefined
    end.

(** Read and update the fields of the object. *)
Definition this {O A} (f : O -> A) : M (Kernel.t * O) A :=
  fun '(k, o) => Returns (f o) (k, o).
Definition update {O} (f : O -> O) : M (Kernel.t * O) unit :=
  fun '(k, o) => Returns tt (k, f o).
Definition errno {O} : M (Kernel.t * O) Z := sys (gets Kernel.errno).

(** A block with a local object [o]: the body runs on it, and its
    destructor runs when the block is left, by return or by exception. *)
Definition scoped {O A} (o : O) (body : M (Kernel.t * O) A)
    (destroy : M (Kernel.t * O) unit) : M Kernel.t A :=
  fun k =>
    match body (k, o) with
    | Returns a s =>
        match destroy s with
        | Returns _ (k', _) => Returns a k'
        | Throws e (k', _) => Throws e k'
        | Blocks (k', _) => Blocks k'
        | Undefined => Undefined
        end
    | Throws e s =>
        match destroy s with
        | Returns _ (k', _) | Throws _ (k', _) => Throws e k'
        | Blocks (k', _) => Blocks k'
        | Undefined => Undefined
        end
    | Blocks (k', _) => Blocks k'
    | Undefined => Undefined
    end.

Inductive OnExecMode : Type := KEEP | CLOSE.

Definition is_CLOSE (m : OnExecMode) : bool :=
  match m with CLOSE => true | KEEP => false end.

(** A loop that repeats its body while the body asks for another round
    ([None]).  The loops written this way are retries after EAGAIN or EINTR;
    this kernel neither interrupts a call nor answers EAGAIN on a blocking
    descriptor, so the first round settles them, and a loop that is still
    asked to go on when the rounds are used up is one that spins for good. *)
Fixpoint spin {S A} (rounds : nat) (body : M S (option A)) : M S A :=
  match rounds with
  | O => fun s => Blocks s
  | S rounds' =>
      r <- body ;;
      match r with
      | Some a => ret a
      | None => spin rounds' body
      end
  end.

(** ** ReadWriteToggle (pollable/ReadWriteToggle.hpp, ReadWriteToggle.cpp) *)

Module ReadWriteToggle.

Inductive State : Type := READ_ONLY | WRITE_ONLY | READ_WRITE.

Definition State_eqb (a b : State) : bool :=
  match a, b with
  | READ_ONLY, READ_ONLY | WRITE_ONLY, WRITE_ONLY | READ_WRITE, READ_WRITE => true
  | _, _ => false
  end.

(** [STATE_VALUES[] = { (uint64_t)-2, 0, 1 }], indexed by the state. *)
Definition STATE_VALUES (s : State) : Z :=
  match s with
  | READ_ONLY => uint64_max - 1
  | WRITE_ONLY => 0
  | READ_WRITE => 1
  end.

(** The helper of ReadWriteToggle.cpp.  Its body ends after the test of
    [fd]: there is no return statement, so on the path where eventfd
    succeeded control flows off the end of a function returning [int]. *)
Definition createEventFd (onExec : OnExecMode) : M Kernel.t Z :=
  let flags := if is_CLOSE onExec then Kernel.EFD_CLOEXEC else 0 in
  fd <- Kernel.eventfd (STATE_VALUES READ_WRITE) flags ;;
  if fd <? 0 then
    e <- gets Kernel.errno ;;
    throw (SystemError e)
  else
    fun _ => Undefined.

(** The toggle, with the counter of the eventfd object it owns.  Nothing
    else reads or writes that object (the descriptor is handed out for
    polling only), so the counter is kept with the fields.  The eventfd is
    not a semaphore: a read returns the counter and resets it to zero, a
    write adds to it. *)
Record t : Type := mk {
  fd_ : Z;
  state_ : State;
  counter : Z
}.

Definition fd (x : t) : Z := fd_ x.
Definition state (x : t) : State := state_ x.

(** The member initialisers of the constructor, for a toggle whose
    eventfd was created (with the READ_WRITE value) under descriptor
    [fd]. *)
Definition make (fd : Z) : t := mk fd READ_WRITE (STATE_VALUES READ_WRITE).

(** [ReadWriteToggle(OnExecMode)]: [fd_(createEventFd(onExec)),
    state_(READ_WRITE)]. *)
Definition ctor (onExec : OnExecMode) : M Kernel.t t :=
  fd <- createEventFd onExec ;;
  ret (make fd).

(** [readValue] and [writeValue], on the paths on which [changeState_]
    calls them: the read of a counter that is not zero and the write that
    keeps the counter below 2^64 - 1 return at once with 8 bytes (lemma
    [setState_counter] below shows the counter is the value of the state,
    so [changeState_] is on these paths; the functions with their system
    calls, and with the paths on which they throw, are in [Sys] below, and
    lemma [toggle_setState_counter] relates the two). *)
Definition readValue (x : t) : Z * t := (counter x, mk (fd_ x) (state_ x) 0).
Definition writeValue (v : Z) (x : t) : t := mk (fd_ x) (state_ x) (counter x + v).

Definition changeState_ (newState : State) (x : t) : t :=
  let oldValue := STATE_VALUES (state_ x) in
  let newValue := STATE_VALUES newState in
  let x1 :=
    if oldValue <? newValue then writeValue (newValue - oldValue) x
    else if newValue <? oldValue then
      let x' := snd (readValue x) in
      if negb (newValue =? 0) then writeValue newValue x' else x'
    else x in
  mk (fd_ x1) newState (counter x1).

Definition setState (newState : State) (x : t) : t :=
  if negb (State_eqb newState (state_ x)) then changeState_ newState x else x.

(** What poll reports for the descriptor. *)
Definition readable (x : t) : bool := 0 <? counter x.
Definition writable (x : t) : bool := counter x <? uint64_max - 1.

(** *** The member functions with their system calls

    [setState] and [changeState_] as they run in the process: the object
    is its two data members, and the counter is that of the eventfd that
    the descriptor table has under [fd_]. *)
Module Sys.

Record t : Type := mk {
  fd_ : Z;
  state_ : State
}.

(** [readValue(fd)]: a [SystemError] without an error number (for a read
    of fewer than 8 bytes) is given the number 0. *)
Definition readValue (fd : Z) : M Kernel.t Z :=
  r <- Kernel.read fd ;;
  if fst r <? 0 then
    e <- gets Kernel.errno ;;
    throw (SystemError e)
  else if negb (fst r =? 8) then throw (SystemError 0)
  else ret (snd r).

Definition writeValue (fd v : Z) : M Kernel.t unit :=
  rc <- Kernel.write fd v ;;
  if rc <? 0 then
    e <- gets Kernel.errno ;;
    throw (SystemError e)
  else if negb (rc =? 8) then throw (SystemError 0)
  else ret tt.

Definition changeState_ (newState : State) : M (Kernel.t * t) unit :=
  fd <- this fd_ ;;
  state <- this state_ ;;
  let oldValue := STATE_VALUES state in
  let newValue := STATE_VALUES newState in
  (if oldValue <? newValue then sys (writeValue fd (newValue - oldValue))
   else if newValue <? oldValue then
     sys (readValue fd) ;;
     when (negb (newValue =? 0)) (sys (writeValue fd newValue))
   else ret tt) ;;
  update (fun x => mk (fd_ x) newState).

Definition setState (newState : State) : M (Kernel.t * t) unit :=
  state <- this state_ ;;
  when (negb (State_eqb newState state)) (changeState_ newState).

(** Calls of [setState], one after the other. *)
Fixpoint setStates (states : list State) : M (Kernel.t * t) unit :=
  match states with
  | [] => ret tt
  | s :: rest => setState s ;; setStates rest
  end.

End Sys.

End ReadWriteToggle.

(** ** EpollSet (EpollSet.hpp, EpollSet.cpp) *)

Module EpollSet.

(** [enum class EpollEventType], a set of bits. *)
Definition NONE : Z := 0.
Definition READ : Z := 1.
Definition WRITE : Z := 2.
Definition READ_HANGUP : Z := 4.
Definition HANGUP : Z := 8.
Definition PRIORITY : Z := 16.
Definition ERROR : Z := 32.

Inductive EpollTrigger : Type := LEVEL | EDGE.
Inductive EpollRepeat : Type := REPEATING | ONE_SHOT.

Record EpollEvent : Type := mkEvent {
  event_fd : Z;
  event_events : Z
}.

Record t : Type := mk {
  onExec_ : OnExecMode;
  fd_ : Z;
  numFds_ : Z;
  events_ : list EpollEvent
}.

Definition fd (s : t) : Z := fd_ s.
Definition numTargets (s : t) : Z := numFds_ s.
Definition events (s : t) : list EpollEvent := events_ s.

Definition set_fd_ (v : Z) (s : t) : t := mk (onExec_ s) v (numFds_ s) (events_ s).
Definition set_numFds_ (v : Z) (s : t) : t := mk (onExec_ s) (fd_ s) v (events_ s).
Definition set_events_ (v : list EpollEvent) (s : t) : t := mk (onExec_ s) (fd_ s) (numFds_ s) v.

Definition EPOLL_TRIGGER_FLAGS (t : EpollTrigger) : Z :=
  match t with LEVEL => 0 | EDGE => Kernel.EPOLLET end.
Definition EPOLL_REPEAT_FLAGS (r : EpollRepeat) : Z :=
  match r with REPEATING => 0 | ONE_SHOT => Kernel.EPOLLONESHOT end.

Definition EVENT_FLAG_MAP : list (Z * Z) :=
  [ (Kernel.EPOLLIN, READ); (Kernel.EPOLLOUT, WRITE);
    (Kernel.EPOLLRDHUP, READ_HANGUP); (Kernel.EPOLLHUP, HANGUP);
    (Kernel.EPOLLPRI, PRIORITY); (Kernel.EPOLLERR, ERROR) ].

Definition createEpollFd (onExec : OnExecMode) : M Kernel.t Z :=
  let flags := if is_CLOSE onExec then Kernel.EPOLL_CLOEXEC else 0 in
  fd <- Kernel.epoll_create1 flags ;;
  if fd <? 0 then
    e <- gets Kernel.errno ;;
    throw (SystemError e)
  else ret fd.

Definition epollFlags (t : Z) : Z :=
  fold_left (fun flags i => if negb (Z.land (snd i) t =? 0) then Z.lor flags (fst i) else flags)
            EVENT_FLAG_MAP 0.
Definition epollFlags_trigger (t : EpollTrigger) : Z := EPOLL_TRIGGER_FLAGS t.
Definition epollFlags_repeat (r : EpollRepeat) : Z := EPOLL_REPEAT_FLAGS r.

(** The [struct epoll_event]: [data.fd] and [events]. *)
Definition createEpollEvent (fd events : Z) (trigger : EpollTrigger) (repeat : EpollRepeat)
    : Z * Z :=
  (fd, Z.lor (Z.lor (epollFlags events) (epollFlags_trigger trigger)) (epollFlags_repeat repeat)).

Definition translateEpollEventFlags (flags : Z) : Z :=
  fold_left (fun events i => if negb (Z.land flags (fst i) =? 0) then Z.lor events (snd i) else events)
            EVENT_FLAG_MAP NONE.

Definition addEvent_ (epollFd eventFd events : Z) (trigger : EpollTrigger)
    (repeat : EpollRepeat) : M Kernel.t unit :=
  let evt := createEpollEvent eventFd events trigger repeat in
  rc <- Kernel.epoll_ctl epollFd Kernel.EPOLL_CTL_ADD eventFd (snd evt) ;;
  if rc <? 0 then
    e <- gets Kernel.errno ;;
    if e =? Kernel.EEXIST then throw ItemExistsError else throw (SystemError e)
  else ret tt.

(** [EpollSet(OnExecMode)]. *)
Definition ctor (onExec : OnExecMode) : M Kernel.t t :=
  fd <- createEpollFd onExec ;;
  ret (mk onExec fd 0 []).

(** [EpollSet(int fd, EpollEventType, EpollTrigger, EpollRepeat, OnExecMode)]. *)
Definition ctor_fd (fd events : Z) (trigger : EpollTrigger) (repeat : EpollRepeat)
    (onExec : OnExecMode) : M Kernel.t t :=
  efd <- createEpollFd onExec ;;
  addEvent_ efd fd events trigger repeat ;;
  ret (mk onExec efd 1 []).

(** [~EpollSet()]. *)
Definition dtor : M (Kernel.t * t) unit :=
  efd <- this fd_ ;;
  when (0 <=? efd) (sys (Kernel.close efd) ;; ret tt).

Definition add (fd events : Z) (trigger : EpollTrigger) (repeat : EpollRepeat)
    : M (Kernel.t * t) unit :=
  efd <- this fd_ ;;
  sys (addEvent_ efd fd events trigger repeat) ;;
  update (fun s => set_numFds_ ((numFds_ s + 1) mod uint32_modulus) s).

Definition modify (fd events : Z) (trigger : EpollTrigger) (repeat : EpollRepeat)
    : M (Kernel.t * t) unit :=
  let info := createEpollEvent fd events trigger repeat in
  efd <- this fd_ ;;
  rc <- sys (Kernel.epoll_ctl efd Kernel.EPOLL_CTL_MOD fd (snd info)) ;;
  if rc <? 0 then
    e <- errno ;;
    if e =? Kernel.ENOENT then throw NoSuchItem else throw (SystemError e)
  else ret tt.

Definition remove (fd : Z) : M (Kernel.t * t) unit :=
  efd <- this fd_ ;;
  rc <- sys (Kernel.epoll_ctl efd Kernel.EPOLL_CTL_DEL fd 0) ;;
  if 0 <=? rc then
    update (fun s => set_numFds_ ((numFds_ s - 1) mod uint32_modulus) s)
  else
    e <- errno ;;
    if negb (e =? Kernel.ENOENT) then throw (SystemError e) else throw NoSuchItem.

Definition clear : M (Kernel.t * t) unit :=
  efd <- this fd_ ;;
  when (0 <? efd) (sys (Kernel.close efd) ;; ret tt) ;;
  onExec <- this onExec_ ;;
  nfd <- sys (createEpollFd onExec) ;;
  update (set_fd_ nfd).

(** One round of the loop of [wait]: the call is repeated when it fails
    with EINTR.  [::epoll_wait] takes [int maxevents] and [int timeout]:
    the [uint32_t] count and the [int64_t] timeout are converted. *)
Definition wait_round (numEventsToPoll timeout : Z)
    : M (Kernel.t * t) (option (Z * list (Z * Z))) :=
  efd <- this fd_ ;;
  r <- sys (Kernel.epoll_wait efd (to_int numEventsToPoll) (to_int timeout)) ;;
  if fst r <? 0 then
    e <- errno ;;
    if negb (e =? Kernel.EINTR) then throw (SystemError e) else ret None
  else ret (Some r).

Definition wait (timeout maxEvents : Z) : M (Kernel.t * t) bool :=
  n <- this numFds_ ;;
  let numEventsToPoll := if negb (maxEvents =? 0) then maxEvents else n in
  r <- spin 1 (wait_round numEventsToPoll timeout) ;;
  update (set_events_
            (map (fun evt => mkEvent (fst evt) (translateEpollEventFlags (snd evt)))
                 (firstn (Z.to_nat (fst r)) (snd r)))) ;;
  ret (negb (fst r =? 0)).

(** [whenReady(timeout, onTriggered, onTimeout, maxEvents)]. *)
Definition whenReady {A} (timeout : Z) (onTriggered : list EpollEvent -> M (Kernel.t * t) A)
    (onTimeout : M (Kernel.t * t) A) (maxEvents : Z) : M (Kernel.t * t) A :=
  b <- wait timeout maxEvents ;;
  if b then (evs <- this events_ ;; onTriggered evs) else onTimeout.

(** The number of descriptors the kernel has registered in the set. *)
Definition registered (st : Kernel.t * t) : Z :=
  match Kernel.files (fst st) !! fd_ (snd st) with
  | Some (Kernel.Epoll i) => Z.of_nat (size i)
  | _ => 0
  end.

(** The calls that one thread makes on a set, one after the other. *)
Inductive Op : Type :=
| Add (fd events : Z) (trigger : EpollTrigger) (repeat : EpollRepeat)
| Modify (fd events : Z) (trigger : EpollTrigger) (repeat : EpollRepeat)
| Remove (fd : Z)
| Clear.

Definition call (op : Op) : M (Kernel.t * t) unit :=
  match op with
  | Add fd events trigger repeat => add fd events trigger repeat
  | Modify fd events trigger repeat => modify fd events trigger repeat
  | Remove fd => remove fd
  | Clear => clear
  end.

Fixpoint calls (ops : list Op) : M (Kernel.t * t) unit :=
  match ops with
  | [] => ret tt
  | op :: rest => call op ;; calls rest
  end.

End EpollSet.


(** ** EpollEventType (EpollEventType.hpp, EpollEventType.cpp) *)

Module EpollEventType.
Import EpollSet.

(** [operator&] on the underlying [uint32_t]. *)
Definition and_ (l r : Z) : Z := Z.land l r.

Definition eventToNameMap : list (Z * string) :=
  [ (READ, "READ"); (WRITE, "WRITE"); (READ_HANGUP, "READ_HANGUP");
    (HANGUP, "HANGUP"); (PRIORITY, "PRIORITY"); (ERROR, "ERROR") ].

(** One round of the loop of [operator<<]: [out] is what has been written
    to the stream, [cnt] the number of names written. *)
Definition print_step (events : Z) (st : string * Z) (event : Z * string) : string * Z :=
  let '(out, cnt) := st in
  if negb (and_ events (fst event) =? NONE) then
    let out := if negb (cnt =? 0) then out +:+ "|" else out in
    (out +:+ snd event, cnt + 1)
  else (out, cnt).

(** [operator<<(std::ostream&, EpollEventType)]: what is written to the
    stream. *)
Definition print (events : Z) : string :=
  if events =? NONE then "NONE"
  else fst (fold_left (print_step events) eventToNameMap ("", 0)).

End EpollEventType.

(** ** Semaphore (pollable/Semaphore.hpp, Semaphore.cpp) *)

Module Semaphore.

(** The object holds the descriptor only; the count lives in the kernel,
    and every [shared_ptr<Semaphore>] to one semaphore sees the same
    count. *)
Record t : Type := mk { fd_ : Z }.

Definition fd (s : t) : Z := fd_ s.

Definition computeFlags (onExec : OnExecMode) : Z :=
  Z.lor Kernel.EFD_SEMAPHORE (if is_CLOSE onExec then Kernel.EFD_CLOEXEC else 0).

Definition createEventFd (initialValue : Z) (onExec : OnExecMode) : M Kernel.t Z :=
  fd <- Kernel.eventfd initialValue (computeFlags onExec) ;;
  if fd <? 0 then
    e <- gets Kernel.errno ;;
    throw (SystemError e)
  else ret fd.

(** [Semaphore(uint64_t initialValue = 0, OnExecMode onExec = CLOSE)]. *)
Definition ctor (initialValue : Z) (onExec : OnExecMode) : M Kernel.t t :=
  fd <- createEventFd initialValue onExec ;;
  ret (mk fd).

Definition read_ (s : t) : M Kernel.t bool :=
  r <- Kernel.read (fd_ s) ;;
  if 0 <=? fst r then ret true
  else
    e <- gets Kernel.errno ;;
    if e =? Kernel.EAGAIN then ret false else throw (SystemError e).

Definition write_ (s : t) (v : Z) : M Kernel.t bool :=
  rc <- Kernel.write (fd_ s) v ;;
  if 0 <=? rc then ret true
  else
    e <- gets Kernel.errno ;;
    if e =? Kernel.EAGAIN then ret false else throw (SystemError e).

(** [while (!write_(v)) { }] and [while (!read_()) { }]. *)
Definition up (s : t) (v : Z) : M Kernel.t unit :=
  spin 1 (b <- write_ s v ;; ret (if b then Some tt else None)).

Definition down (s : t) : M Kernel.t unit :=
  spin 1 (b <- read_ s ;; ret (if b then Some tt else None)).

(** [up(v, timeout)] and [down(timeout)]: a negative timeout is the
    blocking call; otherwise a local EpollSet on the descriptor waits for
    it to become writable (readable). *)
Definition up_timeout (s : t) (v timeout : Z) : M Kernel.t bool :=
  if timeout <? 0 then
    up s v ;;
    ret true
  else
    pollSet <- EpollSet.ctor_fd (fd_ s) EpollSet.WRITE EpollSet.LEVEL EpollSet.REPEATING CLOSE ;;
    scoped pollSet
      (EpollSet.whenReady timeout (fun _ => sys (write_ s v) ;; ret true) (ret false) 0)
      EpollSet.dtor.

Definition down_timeout (s : t) (timeout : Z) : M Kernel.t bool :=
  if timeout <? 0 then
    down s ;;
    ret true
  else
    pollSet <- EpollSet.ctor_fd (fd_ s) EpollSet.READ EpollSet.LEVEL EpollSet.REPEATING CLOSE ;;
    scoped pollSet
      (EpollSet.whenReady timeout (fun _ => sys (read_ s) ;; ret true) (ret false) 0)
      EpollSet.dtor.

(** [Semaphore(Semaphore&& other)]: the new semaphore and what is left in
    [other]. *)
Definition move_ctor (other : t) : t * t := (mk (fd_ other), mk (-1)).

(** [~Semaphore()]. *)
Definition dtor (s : t) : M Kernel.t unit :=
  when (0 <=? fd_ s) (Kernel.close (fd_ s) ;; ret tt).

(** [operator=(Semaphore&& other)]: what becomes of [*this] and of
    [other]. *)
Definition move_assign (self other : t) : M Kernel.t (t * t) :=
  if negb (fd_ self =? fd_ other) then
    when (0 <=? fd_ self) (Kernel.close (fd_ self) ;; ret tt) ;;
    ret (mk (fd_ other), mk (-1))
  else ret (self, other).

End Semaphore.

(** ** Condition (pollable/Condition.hpp) *)

Module Condition.

(** [queue_] is the deque of handles to notify, [observers_] the table of
    observer handles by descriptor.  A handle is a
    [std::shared_ptr<Semaphore>]: the semaphore lives for as long as a
    pointer to it is left, in [queue_], in [observers_] or in the local
    variable [s] of a call that is in progress, and when the last pointer
    goes it is destroyed, which closes its descriptor.  [callers] are the
    pointers in the local variables of the calls in progress (of the
    threads that are suspended in [wait()] or in [ack()]); they are state
    of the program, not a member of the class.  A semaphore is known by
    its descriptor, which it keeps open for as long as it lives. *)
Record t : Type := mk {
  queue_ : list Semaphore.t;
  observers_ : gmap Z Semaphore.t;
  callers : list Semaphore.t
}.

(** [Condition()]. *)
Definition ctor : t := mk [] ∅ [].

Definition push_back (s : Semaphore.t) (c : t) : t :=
  mk (queue_ c ++ [s]) (observers_ c) (callers c).
Definition pop_back (c : t) : t := mk (removelast (queue_ c)) (observers_ c) (callers c).

(** [observers_.insert(make_pair(fd, s))] keeps an entry that is there. *)
Definition insert_observer (fd : Z) (s : Semaphore.t) (c : t) : t :=
  match observers_ c !! fd with
  | Some _ => c
  | None => mk (queue_ c) (<[fd := s]> (observers_ c)) (callers c)
  end.

Definition erase_observer (fd : Z) (c : t) : t :=
  mk (queue_ c) (delete fd (observers_ c)) (callers c).

(** *** The pointers to a semaphore *)

(** One of the pointers of [l] points to [s]. *)
Definition points_to (s : Semaphore.t) (l : list Semaphore.t) : bool :=
  existsb (fun s' => Semaphore.fd s' =? Semaphore.fd s) l.

(** A pointer to [s] is left (an entry of [observers_] is under the
    descriptor of its semaphore). *)
Definition owned (s : Semaphore.t) (c : t) : bool :=
  points_to s (queue_ c) ||
  match observers_ c !! Semaphore.fd s with Some _ => true | None => false end ||
  points_to s (callers c).

(** A pointer to [s] has gone: [~Semaphore()] runs if it was the last. *)
Definition release (s : Semaphore.t) : M (Kernel.t * t) unit :=
  left <- this (owned s) ;;
  if left then ret tt else sys (Semaphore.dtor s).

(** The local variable [s] of a call: it holds a pointer from its
    initialisation until the call is over. *)
Definition hold (s : Semaphore.t) (c : t) : t :=
  mk (queue_ c) (observers_ c) (s :: callers c).

Fixpoint remove_one (s : Semaphore.t) (l : list Semaphore.t) : list Semaphore.t :=
  match l with
  | [] => []
  | s' :: rest =>
      if Semaphore.fd s' =? Semaphore.fd s then rest else s' :: remove_one s rest
  end.

Definition unhold (s : Semaphore.t) (c : t) : t :=
  mk (queue_ c) (observers_ c) (remove_one s (callers c)).

(** The end of a call with the local variable [s]: [body] is what is left
    of the call, and the pointer of [s] goes when it is over, by return or
    by exception.  A call that is suspended keeps its pointer. *)
Definition leaving {A} (s : Semaphore.t) (body : M (Kernel.t * t) A) : M (Kernel.t * t) A :=
  fun st =>
    match body st with
    | Returns a st' => (update (unhold s) ;; release s ;; ret a) st'
    | Throws e st' =>
        match (update (unhold s) ;; release s) st' with
        | Returns _ st'' | Throws _ st'' => Throws e st''
        | Blocks st'' => Blocks st''
        | Undefined => Undefined
        end
    | Blocks st' => Blocks st'
    | Undefined => Undefined
    end.

(** [std::shared_ptr<Semaphore> s = ...; body]. *)
Definition with_handle {A} (s : Semaphore.t) (body : M (Kernel.t * t) A)
    : M (Kernel.t * t) A :=
  update (hold s) ;;
  leaving s body.

(** *** The member functions *)

(** [wait()]. *)
Definition wait : M (Kernel.t * t) unit :=
  s <- sys (Semaphore.ctor 0 CLOSE) ;;
  with_handle s
    (update (push_back s) ;;
     sys (Semaphore.down s)).

(** [wait(int64_t timeout)]. *)
Definition wait_timeout (timeout : Z) : M (Kernel.t * t) bool :=
  s <- sys (Semaphore.ctor 0 CLOSE) ;;
  with_handle s
    (update (push_back s) ;;
     sys (Semaphore.down_timeout s timeout)).

Definition observe : M (Kernel.t * t) Z :=
  s <- sys (Semaphore.ctor 0 CLOSE) ;;
  with_handle s
    (update (push_back s) ;;
     update (insert_observer (Semaphore.fd s) s) ;;
     ret (Semaphore.fd s)).

(** [lookup_(fd)]: the entry of [fd], as the key and the handle that the
    iterator points to. *)
Definition lookup_ (fd : Z) : M (Kernel.t * t) (Z * Semaphore.t) :=
  obs <- this observers_ ;;
  match obs !! fd with
  | None => throw NoSuchItem
  | Some s => ret (fd, s)
  end.

Definition ack (fd : Z) : M (Kernel.t * t) unit :=
  i <- lookup_ fd ;;
  let s := snd i in
  with_handle s
    (sys (Semaphore.down s) ;;
     update (push_back s)).

(** [observers_.erase(i)] destroys the pointer of the entry. *)
Definition stopObserving (fd : Z) : M (Kernel.t * t) unit :=
  i <- lookup_ fd ;;
  update (erase_observer (fst i)) ;;
  release (snd i).

(** [queue_.pop_back()] destroys the pointer at the back. *)
Definition notifyOne : M (Kernel.t * t) unit :=
  q <- this queue_ ;;
  match last q with
  | Some s =>
      sys (Semaphore.up s 1) ;;
      update pop_back ;;
      release s
  | None => ret tt
  end.

(** [while (queue_.size()) { queue_.back()->up(); queue_.pop_back(); }]:
    every round removes one handle, so the rounds are bounded by the
    length of the queue on entry. *)
Fixpoint notifyAll_loop (rounds : nat) : M (Kernel.t * t) unit :=
  match rounds with
  | O => ret tt
  | S rounds' =>
      q <- this queue_ ;;
      match last q with
      | Some s =>
          sys (Semaphore.up s 1) ;;
          update pop_back ;;
          release s ;;
          notifyAll_loop rounds'
      | None => ret tt
      end
  end.

Definition notifyAll : M (Kernel.t * t) unit :=
  q <- this queue_ ;;
  notifyAll_loop (length q).

(** What is left of [wait()], and of [wait(timeout)] with a negative
    timeout, for a thread that is suspended in [down()] on the handle [s]
    it holds: it takes the signal, and its pointer goes.  Without such a
    thread nothing happens. *)
Definition resume (s : Semaphore.t) : M (Kernel.t * t) unit :=
  suspended <- this (fun c => points_to s (callers c)) ;;
  when suspended (leaving s (sys (Semaphore.down s))).

(** What is left of [ack(fd)] for a thread that is suspended in it. *)
Definition resume_ack (s : Semaphore.t) : M (Kernel.t * t) unit :=
  suspended <- this (fun c => points_to s (callers c)) ;;
  when suspended
    (leaving s
       (sys (Semaphore.down s) ;;
        update (push_back s))).

(** The steps taken on a condition, by whichever thread, one after the
    other: the calls, and [Resume s] and [ResumeAck s], with which a thread
    that is suspended in [down()] on its handle [s] goes on (which of
    [wait()] and [ack()] the thread is in is not recorded: either step is
    possible for a handle that a caller holds). *)
Inductive Op : Type :=
| Wait
| WaitTimeout (timeout : Z)
| Observe
| Ack (fd : Z)
| StopObserving (fd : Z)
| NotifyOne
| NotifyAll
| Resume (s : Semaphore.t)
| ResumeAck (s : Semaphore.t).

Definition call (op : Op) : M (Kernel.t * t) unit :=
  match op with
  | Wait => wait
  | WaitTimeout timeout => wait_timeout timeout ;; ret tt
  | Observe => observe ;; ret tt
  | Ack fd => ack fd
  | StopObserving fd => stopObserving fd
  | NotifyOne => notifyOne
  | NotifyAll => notifyAll
  | Resume s => resume s
  | ResumeAck s => resume_ack s
  end.

(** *** Condition::Guard

    [c_] is a pointer to the observed condition (the address of the
    object, null when the guard is not active). *)
Record Guard : Type := mkGuard {
  c_ : option Z;
  guard_fd_ : Z
}.

Definition Guard_active (g : Guard) : bool :=
  match c_ g with Some _ => true | None => false end.
Definition Guard_fd (g : Guard) : Z := guard_fd_ g.

(** [Guard(Guard&& other)]: the new guard and what is left in [other]. *)
Definition Guard_move_ctor (other : Guard) : Guard * Guard :=
  let new := mkGuard (c_ other) (guard_fd_ other) in
  let other := mkGuard None (guard_fd_ other) in
  let other := mkGuard (c_ other) (-1) in
  (new, other).

End Condition.

(** ** Queue (pollable/Queue.hpp) *)

(** A loop with loop-carried locals [l]: [while (cond) { l = body; }].  The
    number of rounds is bounded by [rounds]; a loop that is cut off spins
    for good. *)
Fixpoint loop {S L} (rounds : nat) (cond : L -> S -> bool) (body : L -> M S L) (l : L)
    : M S L :=
  fun s =>
    if cond l s then
      match rounds with
      | O => Blocks s
      | S rounds' => bind (body l) (loop rounds' cond body) s
      end
    else Returns l s.

Module Queue.

Inductive QueueEventType : Type :=
| EMPTY | NOT_EMPTY | FULL | NOT_FULL | HIGH_WATER_MARK | LOW_WATER_MARK.

(** The six Condition members of a queue. *)
Inductive Cv : Type :=
| emptyCv_ | notEmptyCv_ | fullCv_ | notFullCv_ | lowWaterMarkCv_ | highWaterMarkCv_.

Definition selectCv_ (eventType : QueueEventType) : Cv :=
  match eventType with
  | EMPTY => emptyCv_
  | NOT_EMPTY => notEmptyCv_
  | FULL => fullCv_
  | NOT_FULL => notFullCv_
  | HIGH_WATER_MARK => highWaterMarkCv_
  | LOW_WATER_MARK => lowWaterMarkCv_
  end.

(** [MAX_QUEUE_SIZE = (size_t)-1]. *)
Definition MAX_QUEUE_SIZE : Z := uint64_max.

Section Queue.

Context {Item : Type}.

(** The data members.  The six conditions are stateless here: what the
    queue does to them is recorded in the world below. *)
Record t : Type := mk {
  maxSize_ : Z;
  lowWaterMark_ : Z;
  highWaterMark_ : Z;
  q_ : list Item;
  queueState_ : ReadWriteToggle.t;
  highWaterCrossed_ : bool
}.

Definition q_size (q : t) : Z := Z.of_nat (length (q_ q)).
Definition q_empty (q : t) : bool := q_size q =? 0.

Definition set_q_ (v : list Item) (q : t) : t :=
  mk (maxSize_ q) (lowWaterMark_ q) (highWaterMark_ q) v (queueState_ q) (highWaterCrossed_ q).
Definition set_queueState_ (v : ReadWriteToggle.t) (q : t) : t :=
  mk (maxSize_ q) (lowWaterMark_ q) (highWaterMark_ q) (q_ q) v (highWaterCrossed_ q).
Definition set_highWaterCrossed_ (v : bool) (q : t) : t :=
  mk (maxSize_ q) (lowWaterMark_ q) (highWaterMark_ q) (q_ q) (queueState_ q) v.
Definition set_lowWaterMark_ (v : Z) (q : t) : t :=
  mk (maxSize_ q) v (highWaterMark_ q) (q_ q) (queueState_ q) (highWaterCrossed_ q).
Definition set_highWaterMark_ (v : Z) (q : t) : t :=
  mk (maxSize_ q) (lowWaterMark_ q) v (q_ q) (queueState_ q) (highWaterCrossed_ q).

(** *** Construction and moves

    [toggle] is the descriptor of the eventfd of the member [queueState_],
    see [ReadWriteToggle.make]. *)

(** [Queue(size_t maxSize, size_t lowWaterMark, size_t highWaterMark)]. *)
Definition ctor (maxSize lowWaterMark highWaterMark : Z) (toggle : Z) : Error + t :=
  let q := mk maxSize lowWaterMark highWaterMark [] (ReadWriteToggle.make toggle) false in
  if maxSize <? highWaterMark then inl IllegalValueError
  else if highWaterMark <? lowWaterMark then inl IllegalValueError
  else inr (set_queueState_ (ReadWriteToggle.setState ReadWriteToggle.WRITE_ONLY (queueState_ q)) q).

(** [Queue(size_t maxSize)] and [Queue()]. *)
Definition ctor_maxSize (maxSize : Z) (toggle : Z) : Error + t :=
  ctor maxSize maxSize maxSize toggle.
Definition ctor_default (toggle : Z) : Error + t :=
  ctor_maxSize MAX_QUEUE_SIZE toggle.

(** [Queue(Queue&& other)]: the new queue and what is left in [other].
    The items are moved out of [other.q_], which is left empty; the
    conditions and the toggle of the new queue are default-constructed. *)
Definition move_ctor (other : t) (toggle : Z) : t * t :=
  let new := mk (maxSize_ other) (lowWaterMark_ other) (highWaterMark_ other) (q_ other)
                (ReadWriteToggle.make toggle) (highWaterCrossed_ other) in
  let other := set_q_ [] other in
  let other := set_highWaterCrossed_ false other in
  let other :=
    set_queueState_ (ReadWriteToggle.setState ReadWriteToggle.WRITE_ONLY (queueState_ other))
                    other in
  (new, other).

(** The body of [operator=(Queue&& other)] for [this != &other]: what
    becomes of [*this] and of [other]. *)
Definition move_assign_body (self other : t) : t * t :=
  let self := mk (maxSize_ other) (lowWaterMark_ other) (highWaterMark_ other) (q_ self)
                 (queueState_ self) (highWaterCrossed_ other) in
  let other := set_highWaterCrossed_ false other in
  let self := set_q_ (q_ other) self in
  let other := set_q_ [] other in
  let other :=
    set_queueState_ (ReadWriteToggle.setState ReadWriteToggle.WRITE_ONLY (queueState_ other))
                    other in
  let target :=
    if q_size self =? 0 then ReadWriteToggle.WRITE_ONLY
    else if q_size self <? maxSize_ self then ReadWriteToggle.READ_WRITE
    else ReadWriteToggle.READ_ONLY in
  let self := set_queueState_ (ReadWriteToggle.setState target (queueState_ self)) self in
  (self, other).

(** [operator=(Queue&& other)] on the queues stored at two addresses. *)
Definition move_assign (self other : Z) (heap : gmap Z t) : gmap Z t :=
  if negb (self =? other) then
    match heap !! self, heap !! other with
    | Some a, Some b =>
        let '(a', b') := move_assign_body a b in
        <[self := a']> (<[other := b']> heap)
    | _, _ => heap
    end
  else heap.

(** *** The world a member function runs in

    A call runs with the queue, the clock, and the other threads.  The
    other threads act only while this thread has released the mutex, which
    is inside [Condition::wait]: an [Arrival] says what happens during one
    such wait.  The descriptors of the process are not part of the world:
    it is a world in which the semaphore of a wait and the EpollSet of a
    timed wait get their descriptors, so that [Condition::wait] does not
    throw (what it does with the descriptors, and when there is none left,
    is in [Condition.wait_timeout]). *)
Record Arrival : Type := mkArrival {
  delay : Z;      (* ms after which the waiter's handle is signalled *)
  leaves : t      (* the queue when this thread holds the mutex again *)
}.

Record World : Type := mkWorld {
  self : t;
  now : Z;                       (* system_clock::now(), in ms *)
  others : list Arrival;         (* what happens during the waits to come *)
  notified : list Cv;            (* the notifyAll() calls made, in order *)
  waited : list (Cv * Z)         (* the wait(timeout) calls made, in order *)
}.

Definition set_self (f : t -> t) (w : World) : World :=
  mkWorld (f (self w)) (now w) (others w) (notified w) (waited w).

(** [cv.notifyAll()]. *)
Definition notifyAll (cv : Cv) : M World unit :=
  modify (fun w => mkWorld (self w) (now w) (others w) (notified w ++ [cv]) (waited w)).

(** How long [Condition::wait(timeout)] waits for the signal at most:
    with a negative timeout the call is [s->down()], which has no limit;
    otherwise the timeout ends up as the [int timeout] of [epoll_wait],
    where a negative value is no limit either. *)
Definition time_limit (timeout : Z) : option Z :=
  if timeout <? 0 then None
  else if to_int timeout <? 0 then None
  else Some (to_int timeout).

(** [cv.wait(timeout)] with the mutex released: true when the handle was
    signalled, false when the time limit ran out first. *)
Definition Condition_wait (cv : Cv) (timeout : Z) : M World bool :=
  fun w =>
    let log := waited w ++ [(cv, timeout)] in
    match others w, time_limit timeout with
    | [], None => Blocks (mkWorld (self w) (now w) [] (notified w) log)
    | [], Some limit => Returns false (mkWorld (self w) (now w + limit) [] (notified w) log)
    | a :: rest, None =>
        Returns true (mkWorld (leaves a) (now w + delay a) rest (notified w) log)
    | a :: rest, Some limit =>
        if delay a <? limit
        then Returns true (mkWorld (leaves a) (now w + delay a) rest (notified w) log)
        else Returns false (mkWorld (leaves a) (now w + limit) rest (notified w) log)
    end.

(** The rounds of a loop of the queue.  A round ends the loop, or uses up
    an arrival, or finds no arrival left.  With a timeout below 2^31 ms,
    which [epoll_wait] receives as it is, the first round that finds no
    arrival left ends the loop, for its wait lasts until the deadline.
    (A longer timeout is cut down by the conversion; the time that is then
    left is a multiple of 2^32 ms, a timeout of 0 for [epoll_wait], and on
    the clock of this world, which only waits move, such a loop never gets
    to its deadline: no property below is about these timeouts.) *)
Definition rounds (w : World) : nat := S (S (length (others w))).

Definition while_ {L} (cond : L -> World -> bool) (body : L -> M World L) (l : L)
    : M World L :=
  fun w => loop (rounds w) cond body l w.

Definition field {A} (f : t -> A) : M World A := gets (fun w => f (self w)).
Definition size_ : M World Z := field q_size.
Definition clock : M World Z := gets now.

Definition setState (s : ReadWriteToggle.State) : M World unit :=
  modify (set_self (fun q => set_queueState_ (ReadWriteToggle.setState s (queueState_ q)) q)).

(** *** Notifications *)

Definition issueNotifications_ (oldSize newSize : Z) : M World unit :=
  when ((oldSize =? 0) && negb (newSize =? 0))
    (notifyAll notEmptyCv_ ;;
     setState ReadWriteToggle.READ_WRITE) ;;
  when (negb (oldSize =? 0) && (newSize =? 0))
    (notifyAll emptyCv_ ;;
     setState ReadWriteToggle.WRITE_ONLY) ;;
  maxSize <- field maxSize_ ;;
  when ((maxSize <=? oldSize) && (newSize <? maxSize))
    (notifyAll notFullCv_ ;;
     setState ReadWriteToggle.READ_WRITE) ;;
  when ((oldSize <? maxSize) && (maxSize <=? newSize))
    (notifyAll fullCv_ ;;
     setState ReadWriteToggle.READ_ONLY) ;;
  highWaterMark <- field highWaterMark_ ;;
  crossed <- field highWaterCrossed_ ;;
  when ((oldSize <=? highWaterMark) && (highWaterMark <? newSize) && negb crossed)
    (notifyAll highWaterMarkCv_ ;;
     modify (set_self (set_highWaterCrossed_ true))) ;;
  lowWaterMark <- field lowWaterMark_ ;;
  crossed <- field highWaterCrossed_ ;;
  when ((lowWaterMark <? oldSize) && (newSize <=? lowWaterMark) && crossed)
    (notifyAll lowWaterMarkCv_ ;;
     modify (set_self (set_highWaterCrossed_ false))).

(** *** Waiting *)

Definition waitForInvariant_ (timeout : Z) (condition : Cv) (invariant : t -> bool)
    : M World bool :=
  while_ (fun haveTime w => negb (invariant (self w)) && haveTime)
         (fun _ => Condition_wait condition timeout)
         true ;;
  field invariant.

Definition waitUntilEmpty_ (timeout : Z) : M World bool :=
  waitForInvariant_ timeout emptyCv_ q_empty.

Definition waitUntilNotEmpty_ (timeout : Z) : M World bool :=
  waitForInvariant_ timeout notEmptyCv_ (fun q => negb (q_empty q)).

Definition waitUntilFull_ (timeout : Z) : M World bool :=
  waitForInvariant_ timeout fullCv_ (fun q => maxSize_ q <=? q_size q).

Definition waitUntilNotFull_ (timeout : Z) : M World bool :=
  waitForInvariant_ timeout notFullCv_ (fun q => q_size q <? maxSize_ q).

Definition waitUntilLowWaterMark_ (timeout : Z) : M World bool :=
  start <- clock ;;
  ok <- waitForInvariant_ timeout highWaterMarkCv_ highWaterCrossed_ ;;
  if negb ok then ret false
  else
    now <- clock ;;
    let timeLeft := Z.max 0 (now - start) in
    waitForInvariant_ timeLeft lowWaterMarkCv_ (fun q => q_size q <=? lowWaterMark_ q).

Definition waitUntilHighWaterMark_ (timeout : Z) : M World bool :=
  start <- clock ;;
  ok <- waitForInvariant_ timeout lowWaterMarkCv_ (fun q => negb (highWaterCrossed_ q)) ;;
  if negb ok then ret false
  else
    now <- clock ;;
    let timeLeft := Z.max 0 (now - start) in
    waitForInvariant_ timeout highWaterMarkCv_ (fun q => highWaterMark_ q <? q_size q).

(** [wait(timeout, eventType)]. *)
Definition wait (timeout : Z) (eventType : QueueEventType) : M World bool :=
  match eventType with
  | EMPTY => waitUntilEmpty_ timeout
  | NOT_EMPTY => waitUntilNotEmpty_ timeout
  | FULL => waitUntilFull_ timeout
  | NOT_FULL => waitUntilNotFull_ timeout
  | HIGH_WATER_MARK => waitUntilHighWaterMark_ timeout
  | LOW_WATER_MARK => waitUntilLowWaterMark_ timeout
  end.

(** *** Accessors and setters *)

Definition size : M World Z := size_.
Definition empty : M World bool := n <- size ;; ret (n =? 0).
Definition maxSize : M World Z := field maxSize_.
Definition lowWaterMark : M World Z := field lowWaterMark_.
Definition highWaterMark : M World Z := field highWaterMark_.
Definition aboveHighWaterMark : M World bool := field (fun q => highWaterMark_ q <? q_size q).
Definition atOrBelowLowWaterMark : M World bool := field (fun q => q_size q <=? lowWaterMark_ q).
Definition queueStateFd : M World Z := field (fun q => ReadWriteToggle.fd (queueState_ q)).

Definition setLowWaterMark (value : Z) : M World unit :=
  highWaterMark <- field highWaterMark_ ;;
  if highWaterMark <? value then throw IllegalValueError
  else modify (set_self (set_lowWaterMark_ value)).

Definition setHighWaterMark (value : Z) : M World unit :=
  maxSize <- field maxSize_ ;;
  lowWaterMark <- field lowWaterMark_ ;;
  if maxSize <? value then throw IllegalValueError
  else if value <? lowWaterMark then throw IllegalValueError
  else modify (set_self (set_highWaterMark_ value)).

(** *** get, getAll, put, clear *)

(** [q_.front()] followed by [q_.pop_front()] on a deque that is not
    empty (on an empty one [front()] is undefined). *)
Definition pop_front : M World Item :=
  fun w =>
    match q_ (self w) with
    | item :: rest => Returns item (set_self (set_q_ rest) w)
    | [] => Undefined
    end.

(** [Item get()]. *)
Definition get : M World Item :=
  while_ (fun _ w => q_empty (self w))
         (fun _ => waitUntilNotEmpty_ (-1) ;; ret tt) tt ;;
  item <- pop_front ;;
  n <- size_ ;;
  issueNotifications_ (n + 1) n ;;
  ret item.

(** [bool get(Item& result, int64_t timeout)]: the result is the item
    stored in [result] when the call returns true. *)
Definition get_timeout (timeout : Z) : M World (option Item) :=
  if timeout <? 0 then
    item <- get ;;
    ret (Some item)
  else
    now <- clock ;;
    let deadline := now + timeout in
    while_ (fun now w => q_empty (self w) && (now <? deadline))
           (fun now => waitUntilNotEmpty_ (deadline - now) ;; clock) now ;;
    e <- field q_empty ;;
    if e then ret None
    else
      item <- pop_front ;;
      n <- size_ ;;
      issueNotifications_ (n + 1) n ;;
      ret (Some item).

Definition getAll : M World (list Item) :=
  result <- field q_ ;;
  modify (set_self (set_q_ [])) ;;
  issueNotifications_ (Z.of_nat (length result)) 0 ;;
  ret result.

Definition executePut_ (timeout : Z) (putItem : M World unit) : M World bool :=
  let finish : M World bool :=
    putItem ;;
    n <- size_ ;;
    issueNotifications_ (n - 1) n ;;
    ret true in
  if timeout <? 0 then
    while_ (fun _ w => maxSize_ (self w) <=? q_size (self w))
           (fun _ => waitUntilNotFull_ (-1) ;; ret tt) tt ;;
    finish
  else
    now <- clock ;;
    let deadline := now + timeout in
    while_ (fun now w => (maxSize_ (self w) <=? q_size (self w)) && (now <? deadline))
           (fun now => waitUntilNotFull_ (deadline - now) ;; clock) now ;;
    full <- field (fun q => maxSize_ q <=? q_size q) ;;
    if full then ret false else finish.

Definition put (item : Item) (timeout : Z) : M World bool :=
  executePut_ timeout (modify (set_self (fun q => set_q_ (q_ q ++ [item]) q))).

(** [emplace(args...)] and [tryEmplace(timeout, args...)], for the item
    that the arguments construct: both return [void]. *)
Definition emplace (item : Item) : M World unit :=
  put item (-1) ;;
  ret tt.

Definition tryEmplace (timeout : Z) (item : Item) : M World unit :=
  put item timeout ;;
  ret tt.

Definition clear : M World unit :=
  oldSize <- size_ ;;
  modify (set_self (set_q_ [])) ;;
  issueNotifications_ oldSize 0.

(** *** Sequences of calls

    The calls that one thread makes on a queue, one after the other. *)
Inductive Op : Type :=
| Put (item : Item) (timeout : Z)
| Get
| GetTimeout (timeout : Z)
| GetAll
| Clear
| SetLowWaterMark (value : Z)
| SetHighWaterMark (value : Z).

Definition call (op : Op) : M World unit :=
  match op with
  | Put item timeout => put item timeout ;; ret tt
  | Get => get ;; ret tt
  | GetTimeout timeout => get_timeout timeout ;; ret tt
  | GetAll => getAll ;; ret tt
  | Clear => clear
  | SetLowWaterMark value => setLowWaterMark value
  | SetHighWaterMark value => setHighWaterMark value
  end.

Fixpoint calls (ops : list Op) : M World unit :=
  match ops with
  | [] => ret tt
  | op :: rest => call op ;; calls rest
  end.

(** The calls that change the items (and not the marks). *)
Definition mutation (op : Op) : bool :=
  match op with
  | SetLowWaterMark _ | SetHighWaterMark _ => false
  | _ => true
  end.

(** A queue on its own: no other thread, nothing logged yet. *)
Definition alone (q : t) (time : Z) : World := mkWorld q time [] [] [].

(** The toggle says what the size is. *)
Definition encodes_size (q : t) : Prop :=
  (ReadWriteToggle.state (queueState_ q) = ReadWriteToggle.READ_ONLY <-> q_size q = maxSize_ q) /\
  (ReadWriteToggle.state (queueState_ q) = ReadWriteToggle.WRITE_ONLY <-> q_size q = 0) /\
  (ReadWriteToggle.state (queueState_ q) = ReadWriteToggle.READ_WRITE <->
     q_size q <> 0 /\ q_size q <> maxSize_ q).

(** The state that [operator=] gives the toggle for the size. *)
Definition expected_state (q : t) : ReadWriteToggle.State :=
  if q_size q =? 0 then ReadWriteToggle.WRITE_ONLY
  else if q_size q =? maxSize_ q then ReadWriteToggle.READ_ONLY
  else ReadWriteToggle.READ_WRITE.

(** *** Queue::Guard

    [guard_q_] is a pointer to the observed queue (the address of the
    object, null when the guard is not active). *)
Record Guard : Type := mkGuard {
  guard_q_ : option Z;
  guard_t_ : QueueEventType;
  guard_fd_ : Z
}.

Definition Guard_active (g : Guard) : bool :=
  match guard_q_ g with Some _ => true | None => false end.
Definition Guard_fd (g : Guard) : Z := guard_fd_ g.

(** [Guard(Guard&& other)]: the new guard and what is left in [other].
    The body assigns to the new guard's own [fd_]. *)
Definition Guard_move_ctor (other : Guard) : Guard * Guard :=
  let new := mkGuard (guard_q_ other) (guard_t_ other) (guard_fd_ other) in
  let other := mkGuard None (guard_t_ other) (guard_fd_ other) in
  let new := mkGuard (guard_q_ new) (guard_t_ new) (-1) in
  (new, other).

End Queue.

Arguments t : clear implicits.
Arguments World : clear implicits.
Arguments Arrival : clear implicits.
Arguments Op : clear implicits.

(** *** Observers

    The six Condition members of a queue, with the semaphores of their
    handles in the kernel. *)
Record Conditions : Type := mkConditions {
  emptyCv : Condition.t;
  notEmptyCv : Condition.t;
  fullCv : Condition.t;
  notFullCv : Condition.t;
  lowWaterMarkCv : Condition.t;
  highWaterMarkCv : Condition.t
}.

Definition member (cv : Cv) (cs : Conditions) : Condition.t :=
  match cv with
  | emptyCv_ => emptyCv cs
  | notEmptyCv_ => notEmptyCv cs
  | fullCv_ => fullCv cs
  | notFullCv_ => notFullCv cs
  | lowWaterMarkCv_ => lowWaterMarkCv cs
  | highWaterMarkCv_ => highWaterMarkCv cs
  end.

Definition set_member (cv : Cv) (c : Condition.t) (cs : Conditions) : Conditions :=
  match cv with
  | emptyCv_ =>
      mkConditions c (notEmptyCv cs) (fullCv cs) (notFullCv cs) (lowWaterMarkCv cs)
                   (highWaterMarkCv cs)
  | notEmptyCv_ =>
      mkConditions (emptyCv cs) c (fullCv cs) (notFullCv cs) (lowWaterMarkCv cs)
                   (highWaterMarkCv cs)
  | fullCv_ =>
      mkConditions (emptyCv cs) (notEmptyCv cs) c (notFullCv cs) (lowWaterMarkCv cs)
                   (highWaterMarkCv cs)
  | notFullCv_ =>
      mkConditions (emptyCv cs) (notEmptyCv cs) (fullCv cs) c (lowWaterMarkCv cs)
                   (highWaterMarkCv cs)
  | lowWaterMarkCv_ =>
      mkConditions (emptyCv cs) (notEmptyCv cs) (fullCv cs) (notFullCv cs) c
                   (highWaterMarkCv cs)
  | highWaterMarkCv_ =>
      mkConditions (emptyCv cs) (notEmptyCv cs) (fullCv cs) (notFullCv cs)
                   (lowWaterMarkCv cs) c
  end.

(** A member function of Condition, called on the member [cv]. *)
Definition on_member {A} (cv : Cv) (m : M (Kernel.t * Condition.t) A)
    : M (Kernel.t * Conditions) A :=
  fun '(k, cs) =>
    match m (k, member cv cs) with
    | Returns a (k', c') => Returns a (k', set_member cv c' cs)
    | Throws e (k', c') => Throws e (k', set_member cv c' cs)
    | Blocks (k', c') => Blocks (k', set_member cv c' cs)
    | Undefined => Undefined
    end.

(** [observe(eventType)], [ack(fd, eventType)] and
    [stopObserving(fd, eventType)]. *)
Definition observe (eventType : QueueEventType) : M (Kernel.t * Conditions) Z :=
  on_member (selectCv_ eventType) Condition.observe.

Definition ack (fd : Z) (eventType : QueueEventType) : M (Kernel.t * Conditions) unit :=
  on_member (selectCv_ eventType) (Condition.ack fd).

Definition stopObserving (fd : Z) (eventType : QueueEventType)
    : M (Kernel.t * Conditions) unit :=
  on_member (selectCv_ eventType) (Condition.stopObserving fd).

(** [Guard(Queue& queue, QueueEventType eventType)], for the queue at
    address [queue] whose conditions are the state. *)
Definition Guard_ctor (queue : Z) (eventType : QueueEventType)
    : M (Kernel.t * Conditions) Guard :=
  fd <- observe eventType ;;
  ret (mkGuard (Some queue) eventType fd).

(** [ack()]: [q_->ack(fd_, t_)]; on a guard that is not active [q_] is
    null. *)
Definition Guard_ack (g : Guard) : M (Kernel.t * Conditions) unit :=
  match guard_q_ g with
  | Some _ => ack (guard_fd_ g) (guard_t_ g)
  | None => fun _ => Undefined
  end.

(** [stop()]: the guard afterwards. *)
Definition Guard_stop (g : Guard) : M (Kernel.t * Conditions) Guard :=
  if Guard_active g then
    stopObserving (guard_fd_ g) (guard_t_ g) ;;
    ret (mkGuard None (guard_t_ g) (-1))
  else ret g.

Definition pointer_eqb (p q : option Z) : bool :=
  match p, q with
  | Some a, Some b => a =? b
  | None, None => true
  | _, _ => false
  end.

(** [operator=(Guard&& other)]: what becomes of [*this] and of [other].
    [t_] is not assigned. *)
Definition Guard_move_assign (self other : Guard) : Guard * Guard :=
  if negb (pointer_eqb (guard_q_ self) (guard_q_ other)) then
    (mkGuard (guard_q_ other) (guard_t_ self) (guard_fd_ other),
     mkGuard None (guard_t_ other) (-1))
  else (self, other).

End Queue.

(** * Notions used in the statements *)

(** ** Kernel states of the scenarios *)

(** A process with no descriptor open and room for 1024. *)
Definition boot : Kernel.t := Kernel.mk ∅ 1024 0.

(** The same process after [eventfd(0, 0)] gave it descriptor 0 and
    [EpollSet set;] was constructed, on descriptor 1. *)
Definition with_epoll_set : Kernel.t * EpollSet.t :=
  (Kernel.mk (<[1 := Kernel.Epoll ∅]> (<[0 := Kernel.EventFd 0 false]> ∅)) 1024 0,
   EpollSet.mk CLOSE 1 0 []).

(** ** EpollSet: counting the targets *)

(** [numFds_] counts what the kernel has registered in the set (as a
    [uint32_t]). *)
Definition counted (st : Kernel.t * EpollSet.t) : Prop :=
  exists i, Kernel.files (fst st) !! EpollSet.fd_ (snd st) = Some (Kernel.Epoll i) /\
            EpollSet.numFds_ (snd st) = Z.of_nat (size i) mod uint32_modulus.

Definition is_Clear (op : EpollSet.Op) : bool :=
  match op with EpollSet.Clear => true | _ => false end.

(** ** Condition: the states that calls lead to *)

(** The state in which a call leaves the object, however it ends. *)
Definition after {S A} (o : Outcome S A) : option S :=
  match o with
  | Returns _ s | Throws _ s | Blocks s => Some s
  | Undefined => None
  end.

(** The states of a condition and the kernel that are reached from a
    newly constructed condition by steps (a call that throws or that
    suspends its thread leaves a state from which other steps go on). *)
Inductive reachable : Kernel.t * Condition.t -> Prop :=
| reachable_ctor (k : Kernel.t) : reachable (k, Condition.ctor)
| reachable_call (st st' : Kernel.t * Condition.t) (op : Condition.Op) :
    reachable st -> after (Condition.call op st) = Some st' -> reachable st'.

(** poll() reports the descriptor readable. *)
Definition readable (k : Kernel.t) (fd : Z) : bool :=
  match Kernel.files k !! fd with
  | Some f => negb (Z.land (Kernel.ready_mask f) Kernel.EPOLLIN =? 0)
  | None => false
  end.

(** poll() reports the descriptor writable. *)
Definition writable (k : Kernel.t) (fd : Z) : bool :=
  match Kernel.files k !! fd with
  | Some f => negb (Z.land (Kernel.ready_mask f) Kernel.EPOLLOUT =? 0)
  | None => false
  end.

(** The descriptor of a toggle is an eventfd (not a semaphore) whose
    counter is the value of the state of the toggle. *)
Definition in_step (k : Kernel.t) (x : ReadWriteToggle.Sys.t) : Prop :=
  Kernel.files k !! ReadWriteToggle.Sys.fd_ x =
    Some (Kernel.EventFd (ReadWriteToggle.STATE_VALUES (ReadWriteToggle.Sys.state_ x)) false).

(** How often the handle with descriptor [fd] is in a notification
    queue. *)
Fixpoint armed (fd : Z) (q : list Semaphore.t) : Z :=
  match q with
  | [] => 0
  | s :: rest => (if Semaphore.fd s =? fd then 1 else 0) + armed fd rest
  end.

(** A handle is a semaphore of the kernel that is either armed once and
    not signalled, or not armed and signalled at most once. *)
Definition handle_ok (k : Kernel.t) (c : Condition.t) (s : Semaphore.t) : Prop :=
  exists n, Kernel.files k !! Semaphore.fd s = Some (Kernel.EventFd n true) /\
            0 <= n /\ n + armed (Semaphore.fd s) (Condition.queue_ c) <= 1.

Definition consistent (st : Kernel.t * Condition.t) : Prop :=
  (forall s, In s (Condition.queue_ (snd st)) -> handle_ok (fst st) (snd st) s) /\
  (forall fd s, Condition.observers_ (snd st) !! fd = Some s ->
                Semaphore.fd s = fd /\ handle_ok (fst st) (snd st) s).

(** The handles that the condition or a caller has a pointer to. *)
Definition known (c : Condition.t) (s : Semaphore.t) : Prop :=
  In s (Condition.queue_ c) \/ (exists fd, Condition.observers_ c !! fd = Some s) \/
  In s (Condition.callers c).

(** The handles that callers hold are such semaphores too, and the
    descriptor of no handle is negative. *)
Definition callers_ok (st : Kernel.t * Condition.t) : Prop :=
  (forall s, In s (Condition.callers (snd st)) -> handle_ok (fst st) (snd st) s) /\
  (forall s, known (snd st) s -> 0 <= Semaphore.fd s).

Definition sound (st : Kernel.t * Condition.t) : Prop := consistent st /\ callers_ok st.

(** A call keeps the invariant [I]: from a state with [P] it returns in a
    state with [Q], and it throws or suspends its thread in a state with
    [I]. *)
Definition keeps {S A} (I P : S -> Prop) (m : M S A) (Q : A -> S -> Prop) : Prop :=
  forall s, P s ->
    match m s with
    | Returns a s' => Q a s'
    | Throws _ s' | Blocks s' => I s'
    | Undefined => True
    end.

(** ** Queue: what one call does to a queue on its own *)

Section QueueNotions.
Context {Item : Type}.
Import Queue.
Abbreviation World := (Queue.World Item).
Abbreviation t := (Queue.t Item).

Definition crossing_high (oldSize newSize : Z) (q : t) : bool :=
  (oldSize <=? highWaterMark_ q) && (highWaterMark_ q <? newSize) && negb (highWaterCrossed_ q).
Definition crossing_low (oldSize newSize : Z) (q : t) : bool :=
  (lowWaterMark_ q <? oldSize) && (newSize <=? lowWaterMark_ q) && highWaterCrossed_ q.

Definition size_events (oldSize newSize : Z) (q : t) : list Cv :=
  (if (oldSize =? 0) && negb (newSize =? 0) then [notEmptyCv_] else []) ++
  (if negb (oldSize =? 0) && (newSize =? 0) then [emptyCv_] else []) ++
  (if (maxSize_ q <=? oldSize) && (newSize <? maxSize_ q) then [notFullCv_] else []) ++
  (if (oldSize <? maxSize_ q) && (maxSize_ q <=? newSize) then [fullCv_] else []).

Definition mark_events (oldSize newSize : Z) (q : t) : list Cv :=
  (if crossing_high oldSize newSize q then [highWaterMarkCv_] else []) ++
  (if crossing_low oldSize newSize q then [lowWaterMarkCv_] else []).

Definition latch_after (oldSize newSize : Z) (q : t) : bool :=
  if crossing_high oldSize newSize q then true
  else if crossing_low oldSize newSize q then false
  else highWaterCrossed_ q.

Definition toggle_after (oldSize newSize : Z) (q : t) : ReadWriteToggle.State :=
  let s := ReadWriteToggle.state (queueState_ q) in
  let s := if (oldSize =? 0) && negb (newSize =? 0) then ReadWriteToggle.READ_WRITE else s in
  let s := if negb (oldSize =? 0) && (newSize =? 0) then ReadWriteToggle.WRITE_ONLY else s in
  let s := if (maxSize_ q <=? oldSize) && (newSize <? maxSize_ q) then ReadWriteToggle.READ_WRITE else s in
  if (oldSize <? maxSize_ q) && (maxSize_ q <=? newSize) then ReadWriteToggle.READ_ONLY else s.

(** Same marks, latch, toggle: the fields that the notifications read *)
Definition same_settings (q q' : t) : Prop :=
  maxSize_ q' = maxSize_ q /\ lowWaterMark_ q' = lowWaterMark_ q /\
  highWaterMark_ q' = highWaterMark_ q.

Inductive effect (op : Queue.Op Item) (w w' : World) : Prop :=
| effect_resized (oldSize newSize : Z) :
    oldSize = q_size (self w) ->
    newSize = q_size (self w') ->
    (newSize = oldSize + 1 /\ oldSize < maxSize_ (self w)) \/
    (newSize = oldSize - 1) \/ newSize = 0 ->
    same_settings (self w) (self w') ->
    notified w' = notified w ++ size_events oldSize newSize (self w)
                             ++ mark_events oldSize newSize (self w) ->
    highWaterCrossed_ (self w') = latch_after oldSize newSize (self w) ->
    ReadWriteToggle.state (queueState_ (self w')) = toggle_after oldSize newSize (self w) ->
    effect op w w'
| effect_none :
    self w' = self w -> notified w' = notified w -> effect op w w'
| effect_marks :
    mutation op = false ->
    maxSize_ (self w') = maxSize_ (self w) ->
    q_ (self w') = q_ (self w) ->
    queueState_ (self w') = queueState_ (self w) ->
    highWaterCrossed_ (self w') = highWaterCrossed_ (self w) ->
    notified w' = notified w ->
    effect op w w'.

(** The latch that a sequence of notifications leaves, started from
    [latch]; [None] when a high-water notification comes with the latch set
    or a low-water notification with the latch clear. *)
Fixpoint track (latch : bool) (tr : list Cv) : option bool :=
  match tr with
  | [] => Some latch
  | highWaterMarkCv_ :: rest => if latch then None else track true rest
  | lowWaterMarkCv_ :: rest => if latch then track false rest else None
  | _ :: rest => track latch rest
  end.

(** The calls that a queue on its own lets return: the others wait for
    another thread for good (with a negative timeout, or with one of 2^31
    ms or more, which the conversion to [int] does not leave as it is), or
    throw. *)
Definition proceeds (op : Queue.Op Item) (q : t) : bool :=
  match op with
  | Put _ timeout => (q_size q <? maxSize_ q) || ((0 <=? timeout) && (timeout <? 2 ^ 31))
  | Get => negb (q_size q =? 0)
  | GetTimeout timeout =>
      negb (q_size q =? 0) || ((0 <=? timeout) && (timeout <? 2 ^ 31))
  | GetAll | Clear => true
  | SetLowWaterMark value => value <=? highWaterMark_ q
  | SetHighWaterMark value => (value <=? maxSize_ q) && (lowWaterMark_ q <=? value)
  end.

Definition quiet (w w' : World) : Prop :=
  self w' = self w /\ notified w' = notified w /\ others w' = [].

End QueueNotions.


(** ** Queue: the scenarios of the statements (queues of integers) *)

(** [Queue<int> q(1)], whose toggle has descriptor 3. *)
Definition queue_of_one : Queue.t Z :=
  Queue.mk 1 1 1 [] (ReadWriteToggle.mk 3 ReadWriteToggle.WRITE_ONLY 0) false.

(** [Queue<int> q(2)]. *)
Definition queue_of_two : Queue.t Z :=
  Queue.mk 2 2 2 [] (ReadWriteToggle.mk 3 ReadWriteToggle.WRITE_ONLY 0) false.

(** [Queue<int> q(10, 2, 4)]. *)
Definition queue_10_2_4 : Queue.t Z :=
  Queue.mk 10 2 4 [] (ReadWriteToggle.mk 3 ReadWriteToggle.WRITE_ONLY 0) false.

(** The notifications that a call added to the log. *)
Definition fired {Item} (w w' : Queue.World Item) : list Queue.Cv :=
  drop (length (Queue.notified w)) (Queue.notified w').

(** The reading of the boundary case under which a queue without marks of
    its own (both marks at the maximal size) has its high-water event on
    the calls that fill it, and on no others. *)
Definition high_water_on_filling {Item} (w : Queue.World Item) (op : Queue.Op Item) : Prop :=
  forall w', Queue.call op w = Returns tt w' ->
    (In Queue.highWaterMarkCv_ (fired w w') <->
     Queue.q_size (Queue.self w) < Queue.maxSize_ (Queue.self w) /\
     Queue.q_size (Queue.self w') = Queue.maxSize_ (Queue.self w)).

(** A queue [Queue<int> q(10, 2, 4)] holding 1, 2, 3 with the latch set,
    and what another thread makes of it by taking one item (which fires the
    low-water event). *)
Definition above_low_water : Queue.t Z :=
  Queue.mk 10 2 4 [1; 2; 3] (ReadWriteToggle.mk 3 ReadWriteToggle.READ_WRITE 1) true.
Definition at_low_water : Queue.t Z :=
  Queue.mk 10 2 4 [2; 3] (ReadWriteToggle.mk 3 ReadWriteToggle.READ_WRITE 1) false.

(** The same queue holding 1, 2, 3 with the latch clear, and what another
    thread makes of it by putting two items (which fires the high-water
    event). *)
Definition below_high_water : Queue.t Z :=
  Queue.mk 10 2 4 [1; 2; 3] (ReadWriteToggle.mk 3 ReadWriteToggle.READ_WRITE 1) false.
Definition past_high_water : Queue.t Z :=
  Queue.mk 10 2 4 [1; 2; 3; 4; 5] (ReadWriteToggle.mk 3 ReadWriteToggle.READ_WRITE 1) true.


(** The state after [Condition c; int fd = c.observe(); c.notifyAll();]
    in a process that had no descriptor open: the handle of the observer,
    on descriptor 0, is signalled and off the queue. *)
Definition signalled_observer : Kernel.t * Condition.t :=
  (Kernel.mk {[0 := Kernel.EventFd 1 true]} 1024 0,
   Condition.mk [] {[0 := Semaphore.mk 0]} []).


(** ** Event types and epoll flags *)

(** The flags of [struct epoll_event] that stand for an event type. *)
Definition kernel_event_bits : Z :=
  Z.lor Kernel.EPOLLIN (Z.lor Kernel.EPOLLOUT (Z.lor Kernel.EPOLLRDHUP
    (Z.lor Kernel.EPOLLHUP (Z.lor Kernel.EPOLLPRI Kernel.EPOLLERR)))).

(** The event type of an entry of the name table is among [events]. *)
Definition selected (events : Z) (event : Z * string) : bool :=
  negb (Z.land events (fst event) =? 0).

(** ** Condition: more scenarios *)

(** The state after [Condition c; int fd = c.observe();] in a process that
    had no descriptor open: the handle of the observer, on descriptor 0, is
    in the queue and not signalled. *)
Definition armed_observer : Kernel.t * Condition.t :=
  (Kernel.mk {[0 := Kernel.EventFd 0 true]} 1024 0,
   Condition.mk [Semaphore.mk 0] {[0 := Semaphore.mk 0]} []).

(** The state with two threads suspended in [c.wait()], the first on
    descriptor 0 and the second on descriptor 1, each holding its
    handle. *)
Definition two_waiters : Kernel.t * Condition.t :=
  (Kernel.mk (<[1 := Kernel.EventFd 0 true]> {[0 := Kernel.EventFd 0 true]}) 1024 0,
   Condition.mk [Semaphore.mk 0; Semaphore.mk 1] ∅ [Semaphore.mk 1; Semaphore.mk 0]).

(** ** Queue: more notions *)

Section MoreQueueNotions.
Context {Item : Type}.
Import Queue.

(** The state that an event type names. *)
Definition holds (eventType : QueueEventType) (q : Queue.t Item) : bool :=
  match eventType with
  | EMPTY => q_size q =? 0
  | NOT_EMPTY => negb (q_size q =? 0)
  | FULL => maxSize_ q <=? q_size q
  | NOT_FULL => q_size q <? maxSize_ q
  | HIGH_WATER_MARK => highWaterMark_ q <? q_size q
  | LOW_WATER_MARK => q_size q <=? lowWaterMark_ q
  end.

Definition is_size_event (eventType : QueueEventType) : bool :=
  match eventType with
  | HIGH_WATER_MARK | LOW_WATER_MARK => false
  | _ => true
  end.

(** The queue is empty and its toggle reads READ_WRITE. *)
Definition stale_toggle (q : Queue.t Item) : Prop :=
  q_size q = 0 /\ ReadWriteToggle.state (queueState_ q) = ReadWriteToggle.READ_WRITE.

Definition within_bounds (q : Queue.t Item) : Prop :=
  0 <= q_size q <= maxSize_ q /\ lowWaterMark_ q <= highWaterMark_ q <= maxSize_ q.

End MoreQueueNotions.

(** [Queue<int> q(1)] after [q.put(7)]: full. *)
Definition full_queue_of_one : Queue.t Z :=
  Queue.mk 1 1 1 [7] (ReadWriteToggle.mk 3 ReadWriteToggle.READ_ONLY (uint64_max - 1)) false.

(** The six conditions of a newly constructed queue. *)
Definition new_conditions : Queue.Conditions :=
  Queue.mkConditions Condition.ctor Condition.ctor Condition.ctor Condition.ctor
                     Condition.ctor Condition.ctor.

(** Each condition of a queue is consistent with the kernel. *)
Definition conditions_consistent (k : Kernel.t) (cs : Queue.Conditions) : Prop :=
  forall cv, consistent (k, Queue.member cv cs).


(** A process whose only descriptor, 0, is the eventfd of a toggle as the
    member initialisers of its constructor set it up, and that toggle. *)
Definition new_toggle_kernel : Kernel.t :=
  Kernel.set_files (<[0 := Kernel.EventFd 1 false]> (Kernel.files boot)) boot.
Definition new_toggle : ReadWriteToggle.Sys.t :=
  ReadWriteToggle.Sys.mk 0 ReadWriteToggle.READ_WRITE.


(** * Properties *)

(** ** Reasoning about calls *)

Lemma bind_Returns {S A B} (m : M S A) (k : A -> M S B) s b s' :
  bind m k s = Returns b s' ->
  exists a s1, m s = Returns a s1 /\ k a s1 = Returns b s'.
Proof.
  unfold bind. destruct (m s) as [a s1| | |]; try discriminate.
  intros H. exists a, s1. split; [reflexivity | exact H].
Qed.

Lemma ret_Returns {S A} (a b : A) (s s' : S) : ret a s = Returns b s' -> b = a /\ s' = s.
Proof. unfold ret. intros H. injection H as -> ->. auto. Qed.

Lemma gets_Returns {S A} (f : S -> A) (b : A) (s s' : S) :
  gets f s = Returns b s' -> b = f s /\ s' = s.
Proof. unfold gets. intros H. injection H as <- <-. auto. Qed.

Lemma modify_Returns {S} (f : S -> S) u (s s' : S) :
  modify f s = Returns u s' -> s' = f s.
Proof. unfold modify. intros H. injection H as <-. auto. Qed.

Lemma bind_eq {S A B} (m : M S A) (f : A -> M S B) s a s' :
  m s = Returns a s' -> bind m f s = f a s'.
Proof. unfold bind. intros ->. reflexivity. Qed.

Lemma bind_throws {S A B} (m : M S A) (f : A -> M S B) s e s' :
  m s = Throws e s' -> bind m f s = Throws e s'.
Proof. unfold bind. intros ->. reflexivity. Qed.

Lemma bind_blocks {S A B} (m : M S A) (f : A -> M S B) s s' :
  m s = Blocks s' -> bind m f s = Blocks s'.
Proof. unfold bind. intros ->. reflexivity. Qed.

Lemma sys_eq {O A} (m : M Kernel.t A) (k k' : Kernel.t) (o : O) a :
  m k = Returns a k' -> sys m (k, o) = Returns a (k', o).
Proof. unfold sys. intros ->. reflexivity. Qed.

Lemma sys_throws {O A} (m : M Kernel.t A) (k k' : Kernel.t) (o : O) e :
  m k = Throws e k' -> sys m (k, o) = Throws e (k', o).
Proof. unfold sys. intros ->. reflexivity. Qed.

Lemma sys_blocks {O A} (m : M Kernel.t A) (k k' : Kernel.t) (o : O) :
  m k = Blocks k' -> sys m (k, o) = Blocks (k', o).
Proof. unfold sys. intros ->. reflexivity. Qed.

Lemma update_eq {O} (f : O -> O) (k : Kernel.t) (o : O) :
  update f (k, o) = Returns tt (k, f o).
Proof. reflexivity. Qed.

Lemma spin_first {S A} (n : nat) (body : M S (option A)) s a s' :
  body s = Returns (Some a) s' -> spin (Datatypes.S n) body s = Returns a s'.
Proof. intros H. simpl. rewrite (bind_eq _ _ _ _ _ H). reflexivity. Qed.

Lemma loop_Returns {S L} (P : S -> Prop) (cond : L -> S -> bool) (body : L -> M S L) :
  (forall l s l1 s1, P s -> cond l s = true -> body l s = Returns l1 s1 -> P s1) ->
  forall n l s l' s',
    P s -> loop n cond body l s = Returns l' s' -> P s' /\ cond l' s' = false.
Proof.
  intros Hbody. induction n as [|n IH]; intros l s l' s' HP H; simpl in H.
  - destruct (cond l s) eqn:E; [discriminate|]. injection H as <- <-. auto.
  - destruct (cond l s) eqn:E.
    + apply bind_Returns in H. destruct H as (l1 & s1 & H1 & H2).
      eapply IH; [|exact H2]. eapply Hbody; eauto.
    + injection H as <- <-. auto.
Qed.

(** ** Conversion to [int] *)

Lemma to_int_small (z : Z) : - 2 ^ 31 <= z < 2 ^ 31 -> to_int z = z.
Proof. intros H. unfold to_int. rewrite Z.mod_small; lia. Qed.

Lemma to_int_range (z : Z) : - 2 ^ 31 <= to_int z < 2 ^ 31.
Proof.
  unfold to_int. pose proof (Z.mod_pos_bound (z + 2 ^ 31) (2 ^ 32) ltac:(lia)). lia.
Qed.

(** What the conversion cuts off is a multiple of 2^32, and of a multiple
    of 2^32 nothing is left. *)
Lemma to_int_cut (z : Z) : exists m, z = to_int z + m * 2 ^ 32.
Proof.
  exists ((z + 2 ^ 31) / 2 ^ 32). unfold to_int.
  pose proof (Z.div_mod (z + 2 ^ 31) (2 ^ 32) ltac:(lia)). lia.
Qed.

Lemma to_int_multiple (m : Z) : to_int (m * 2 ^ 32) = 0.
Proof.
  unfold to_int. rewrite Z.add_comm, Z.mod_add by lia. reflexivity.
Qed.

Lemma to_int_same (z : Z) : z = to_int z -> - 2 ^ 31 <= z < 2 ^ 31.
Proof. intros ->. apply to_int_range. Qed.

(** ** The kernel: descriptors *)

Lemma first_free_ge (fs : gmap Z Kernel.File) (fuel : nat) (fd : Z) :
  fd <= Kernel.first_free fs fuel fd.
Proof.
  revert fd. induction fuel as [|fuel IH]; intros fd; simpl; [lia|].
  destruct (fs !! fd); [|lia]. specialize (IH (fd + 1)). lia.
Qed.

Lemma lowest_free_nonneg (fs : gmap Z Kernel.File) : 0 <= Kernel.lowest_free fs.
Proof. apply first_free_ge. Qed.

Lemma lowest_free_not_negative (fs : gmap Z Kernel.File) : (Kernel.lowest_free fs <? 0) = false.
Proof. pose proof (lowest_free_nonneg fs). lia. Qed.

Lemma first_free_le (fs : gmap Z Kernel.File) (fuel : nat) (fd : Z) :
  Kernel.first_free fs fuel fd <= fd + Z.of_nat fuel.
Proof.
  revert fd. induction fuel as [|fuel IH]; intros fd; simpl; [lia|].
  destruct (fs !! fd); [|lia]. specialize (IH (fd + 1)). lia.
Qed.

Lemma lowest_free_le_size (fs : gmap Z Kernel.File) :
  Kernel.lowest_free fs <= Z.of_nat (size fs).
Proof. unfold Kernel.lowest_free. pose proof (first_free_le fs (size fs) 0). lia. Qed.

Lemma first_free_spec (fs : gmap Z Kernel.File) (fuel : nat) (fd : Z) :
  fs !! Kernel.first_free fs fuel fd = None \/
  (Kernel.first_free fs fuel fd = fd + Z.of_nat fuel /\
   forall i, fd <= i < fd + Z.of_nat fuel -> is_Some (fs !! i)).
Proof.
  revert fd. induction fuel as [|fuel IH]; intros fd; simpl.
  - right. split; [lia|]. intros i Hi. lia.
  - destruct (fs !! fd) as [f|] eqn:E; [|left; exact E].
    destruct (IH (fd + 1)) as [H|[H1 H2]]; [left; exact H|].
    right. split; [lia|]. intros i Hi.
    destruct (Z.eq_dec i fd) as [->|Hne]; [rewrite E; eauto|]. apply H2. lia.
Qed.

(** The lowest free descriptor is not open. *)
Lemma lowest_free_fresh (fs : gmap Z Kernel.File) : fs !! Kernel.lowest_free fs = None.
Proof.
  unfold Kernel.lowest_free.
  destruct (first_free_spec fs (size fs) 0) as [H|[H1 H2]]; [exact H|].
  rewrite H1. replace (0 + Z.of_nat (size fs)) with (Z.of_nat (size fs)) by lia.
  destruct (fs !! Z.of_nat (size fs)) as [f|] eqn:E; [|reflexivity].
  exfalso.
  assert (Hsub : list_to_set (seqZ 0 (Z.of_nat (size fs) + 1)) ⊆ dom fs).
  { intros i Hi. apply elem_of_list_to_set, elem_of_seqZ in Hi.
    apply elem_of_dom.
    destruct (Z.eq_dec i (Z.of_nat (size fs))) as [->|Hne]; [rewrite E; eauto|].
    apply H2. lia. }
  apply subseteq_size in Hsub.
  rewrite size_list_to_set in Hsub by apply NoDup_seqZ.
  rewrite length_seqZ, size_dom in Hsub. lia.
Qed.

Lemma open_file_spec (f : Kernel.File) (k : Kernel.t) :
  Kernel.lowest_free (Kernel.files k) < Kernel.nofile k ->
  Kernel.open_file f k =
    Returns (Kernel.lowest_free (Kernel.files k))
            (Kernel.set_files (<[Kernel.lowest_free (Kernel.files k) := f]> (Kernel.files k)) k).
Proof.
  intros H. unfold Kernel.open_file.
  replace (Kernel.lowest_free (Kernel.files k) <? Kernel.nofile k) with true by lia.
  reflexivity.
Qed.

Lemma forget_lookup_eventfd (fd h : Z) (fs : gmap Z Kernel.File) c sem :
  (Kernel.forget fd <$> fs) !! h = Some (Kernel.EventFd c sem) <->
  fs !! h = Some (Kernel.EventFd c sem).
Proof.
  rewrite lookup_fmap. destruct (fs !! h) as [[c' sem'|i]|]; simpl; split; congruence.
Qed.

(** ** ReadWriteToggle *)

Lemma setState_state s x : ReadWriteToggle.state (ReadWriteToggle.setState s x) = s.
Proof. destruct x as [f st c]. destruct s, st; reflexivity. Qed.

Lemma setState_fd s x : ReadWriteToggle.fd (ReadWriteToggle.setState s x) = ReadWriteToggle.fd x.
Proof. destruct x as [f st c]. destruct s, st; reflexivity. Qed.

(** The counter of the eventfd is the value of the state: it is so after
    the constructor, and [setState] keeps it so.  Hence [changeState_]
    reads a counter that is not zero only, and never writes past the
    largest counter. *)
Lemma make_counter (fd : Z) :
  ReadWriteToggle.counter (ReadWriteToggle.make fd)
  = ReadWriteToggle.STATE_VALUES (ReadWriteToggle.state (ReadWriteToggle.make fd)).
Proof. reflexivity. Qed.

Lemma setState_counter s x :
  ReadWriteToggle.counter x = ReadWriteToggle.STATE_VALUES (ReadWriteToggle.state x) ->
  ReadWriteToggle.counter (ReadWriteToggle.setState s x) = ReadWriteToggle.STATE_VALUES s.
Proof.
  destruct x as [f st c]. unfold ReadWriteToggle.state. simpl. intros ->.
  destruct s, st; vm_compute; reflexivity.
Qed.

(** What poll reports follows the state. *)
Lemma setState_polls s x :
  ReadWriteToggle.counter x = ReadWriteToggle.STATE_VALUES (ReadWriteToggle.state x) ->
  ReadWriteToggle.readable (ReadWriteToggle.setState s x)
    = negb (ReadWriteToggle.State_eqb s ReadWriteToggle.WRITE_ONLY) /\
  ReadWriteToggle.writable (ReadWriteToggle.setState s x)
    = negb (ReadWriteToggle.State_eqb s ReadWriteToggle.READ_ONLY).
Proof.
  intros H. unfold ReadWriteToggle.readable, ReadWriteToggle.writable.
  rewrite (setState_counter s x H). destruct s; split; reflexivity.
Qed.

(** The helper of Semaphore.cpp and that of EpollSet.cpp return the
    descriptor that they created. *)
Lemma Semaphore_createEventFd_spec (initialValue : Z) (onExec : OnExecMode) (k : Kernel.t) :
  Kernel.lowest_free (Kernel.files k) < Kernel.nofile k ->
  exists k', Semaphore.createEventFd initialValue onExec k
             = Returns (Kernel.lowest_free (Kernel.files k)) k'.
Proof.
  intros Hfree. unfold Semaphore.createEventFd, Kernel.eventfd, Kernel.open_file, bind.
  pose proof (lowest_free_nonneg (Kernel.files k)) as Hpos.
  replace (Kernel.lowest_free (Kernel.files k) <? Kernel.nofile k) with true by lia.
  replace (Kernel.lowest_free (Kernel.files k) <? 0) with false by lia.
  eexists. reflexivity.
Qed.

Lemma createEpollFd_spec (onExec : OnExecMode) (k : Kernel.t) :
  Kernel.lowest_free (Kernel.files k) < Kernel.nofile k ->
  exists k', EpollSet.createEpollFd onExec k
             = Returns (Kernel.lowest_free (Kernel.files k)) k'.
Proof.
  intros Hfree. unfold EpollSet.createEpollFd, Kernel.epoll_create1, Kernel.open_file, bind.
  pose proof (lowest_free_nonneg (Kernel.files k)) as Hpos.
  replace (Kernel.lowest_free (Kernel.files k) <? Kernel.nofile k) with true by lia.
  replace (Kernel.lowest_free (Kernel.files k) <? 0) with false by lia.
  eexists. reflexivity.
Qed.

(** C7.  [createEventFd] of ReadWriteToggle.cpp never returns a
    descriptor: when eventfd cannot create one it throws, and when eventfd
    has created one (the lowest free descriptor) control reaches the end of
    the function without a return statement.  The same holds of the
    constructor of the toggle, which initialises [fd_] with the result. *)
Theorem toggle_createEventFd_returns_nothing (onExec : OnExecMode) (k : Kernel.t) :
  ReadWriteToggle.createEventFd onExec k =
    (if Kernel.lowest_free (Kernel.files k) <? Kernel.nofile k then Undefined
     else Throws (SystemError Kernel.EMFILE) (Kernel.set_errno Kernel.EMFILE k)) /\
  ReadWriteToggle.ctor onExec k =
    (if Kernel.lowest_free (Kernel.files k) <? Kernel.nofile k then Undefined
     else Throws (SystemError Kernel.EMFILE) (Kernel.set_errno Kernel.EMFILE k)) /\
  ReadWriteToggle.createEventFd CLOSE boot = Undefined /\
  (exists k', Kernel.eventfd 1 Kernel.EFD_CLOEXEC boot = Returns 0 k').
Proof.
  pose proof (lowest_free_nonneg (Kernel.files k)) as Hpos.
  assert (H : ReadWriteToggle.createEventFd onExec k =
    (if Kernel.lowest_free (Kernel.files k) <? Kernel.nofile k then Undefined
     else Throws (SystemError Kernel.EMFILE) (Kernel.set_errno Kernel.EMFILE k))).
  { unfold ReadWriteToggle.createEventFd, Kernel.eventfd, Kernel.open_file, bind.
    destruct (Kernel.lowest_free (Kernel.files k) <? Kernel.nofile k) eqn:E.
    - replace (Kernel.lowest_free (Kernel.files k) <? 0) with false by lia. reflexivity.
    - reflexivity. }
  split; [exact H|]. split.
  - unfold ReadWriteToggle.ctor, bind. rewrite H.
    destruct (Kernel.lowest_free (Kernel.files k) <? Kernel.nofile k); reflexivity.
  - split; [reflexivity|]. eexists. reflexivity.
Qed.

(** ** EpollSet *)

Lemma epoll_ctl_add_spec (epfd fd events : Z) (k : Kernel.t) i f :
  Kernel.files k !! epfd = Some (Kernel.Epoll i) ->
  Kernel.files k !! fd = Some f ->
  fd <> epfd ->
  i !! fd = None ->
  Kernel.epoll_ctl epfd Kernel.EPOLL_CTL_ADD fd events k =
    Returns 0 (Kernel.set_files (<[epfd := Kernel.Epoll (<[fd := events]> i)]> (Kernel.files k)) k).
Proof.
  intros He Hf Hne Hi. unfold Kernel.epoll_ctl. rewrite He, Hf.
  replace (fd =? epfd) with false by lia.
  replace (Kernel.EPOLL_CTL_ADD =? Kernel.EPOLL_CTL_ADD) with true by reflexivity.
  rewrite Hi. reflexivity.
Qed.

Lemma EpollSet_ctor_fd_spec (fd events : Z) trigger repeat onExec (k : Kernel.t) f :
  Kernel.files k !! fd = Some f ->
  Kernel.lowest_free (Kernel.files k) < Kernel.nofile k ->
  EpollSet.ctor_fd fd events trigger repeat onExec k =
    Returns (EpollSet.mk onExec (Kernel.lowest_free (Kernel.files k)) 1 [])
      (Kernel.set_files
         (<[Kernel.lowest_free (Kernel.files k) :=
              Kernel.Epoll {[fd := snd (EpollSet.createEpollEvent fd events trigger repeat)]}]>
            (Kernel.files k)) k).
Proof.
  intros Hf Hfree.
  pose proof (lowest_free_fresh (Kernel.files k)) as Hfresh.
  set (fd2 := Kernel.lowest_free (Kernel.files k)) in *.
  assert (Hne : fd <> fd2) by (intros E; rewrite E in Hf; congruence).
  unfold EpollSet.ctor_fd.
  erewrite bind_eq; cycle 1.
  { unfold EpollSet.createEpollFd, Kernel.epoll_create1.
    erewrite bind_eq by (apply open_file_spec; exact Hfree). fold fd2.
    replace (fd2 <? 0) with false by (subst fd2; symmetry; apply lowest_free_not_negative).
    reflexivity. }
  erewrite bind_eq; cycle 1.
  { unfold EpollSet.addEvent_.
    erewrite bind_eq; cycle 1.
    { apply epoll_ctl_add_spec with (i := ∅) (f := f); simpl.
      - apply lookup_insert_eq.
      - rewrite lookup_insert_ne by auto. exact Hf.
      - exact Hne.
      - apply lookup_empty. }
    reflexivity. }
  unfold ret. simpl. rewrite insert_insert_eq, insert_empty. reflexivity.
Qed.

Lemma EpollSet_ctor_fd_full (fd events : Z) trigger repeat onExec (k : Kernel.t) :
  Kernel.nofile k <= Kernel.lowest_free (Kernel.files k) ->
  EpollSet.ctor_fd fd events trigger repeat onExec k =
    Throws (SystemError Kernel.EMFILE) (Kernel.set_errno Kernel.EMFILE k).
Proof.
  intros H. unfold EpollSet.ctor_fd, EpollSet.createEpollFd, Kernel.epoll_create1,
    Kernel.open_file, bind.
  replace (Kernel.lowest_free (Kernel.files k) <? Kernel.nofile k) with false by lia.
  reflexivity.
Qed.

(** A set that watches one eventfd for reading has nothing to report
    while the counter of the eventfd is zero. *)
Lemma epoll_wait_idle (epfd fd timeout : Z) (k : Kernel.t) sem :
  0 <= timeout ->
  Kernel.files k !! epfd =
    Some (Kernel.Epoll {[fd := snd (EpollSet.createEpollEvent fd EpollSet.READ EpollSet.LEVEL
                                      EpollSet.REPEATING)]}) ->
  Kernel.files k !! fd = Some (Kernel.EventFd 0 sem) ->
  Kernel.epoll_wait epfd 1 timeout k = Returns (0, []) k.
Proof.
  intros Ht He Hf. unfold Kernel.epoll_wait. rewrite He.
  replace (1 <=? 0) with false by reflexivity.
  unfold Kernel.ready_events. rewrite map_to_list_singleton. simpl. rewrite Hf. simpl.
  replace (timeout <? 0) with false by lia. reflexivity.
Qed.

Lemma EpollSet_wait_idle (timeout : Z) (k : Kernel.t) (set : EpollSet.t) :
  Kernel.epoll_wait (EpollSet.fd_ set) (to_int (EpollSet.numFds_ set)) (to_int timeout) k
    = Returns (0, []) k ->
  EpollSet.wait timeout 0 (k, set) = Returns false (k, EpollSet.set_events_ [] set).
Proof.
  intros H. unfold EpollSet.wait.
  erewrite bind_eq by reflexivity. simpl negb. cbv iota.
  erewrite bind_eq; cycle 1.
  { apply spin_first. unfold EpollSet.wait_round.
    erewrite bind_eq by reflexivity.
    erewrite bind_eq by (apply sys_eq; exact H).
    reflexivity. }
  reflexivity.
Qed.

Lemma EpollSet_dtor_spec (k : Kernel.t) (set : EpollSet.t) f :
  0 <= EpollSet.fd_ set ->
  Kernel.files k !! EpollSet.fd_ set = Some f ->
  EpollSet.dtor (k, set) =
    Returns tt
      (Kernel.set_files
         (Kernel.forget (EpollSet.fd_ set) <$> delete (EpollSet.fd_ set) (Kernel.files k)) k,
       set).
Proof.
  intros Hfd Hf. unfold EpollSet.dtor.
  erewrite bind_eq by reflexivity.
  replace (0 <=? EpollSet.fd_ set) with true by lia. unfold when.
  erewrite bind_eq; cycle 1.
  { apply sys_eq. unfold Kernel.close. rewrite Hf. reflexivity. }
  reflexivity.
Qed.

Lemma sys_Returns {O A} (m : M Kernel.t A) (k : Kernel.t) (o : O) a st' :
  sys m (k, o) = Returns a st' -> exists k', m k = Returns a k' /\ st' = (k', o).
Proof.
  unfold sys. destruct (m k) as [a' k'| | |]; try discriminate.
  intros [= <- <-]. eauto.
Qed.

(** What a successful [epoll_ctl] has done. *)
Lemma epoll_ctl_Returns (epfd op fd events rc : Z) (k k' : Kernel.t) :
  Kernel.epoll_ctl epfd op fd events k = Returns rc k' -> 0 <= rc ->
  exists i,
    Kernel.files k !! epfd = Some (Kernel.Epoll i) /\
    ((op = Kernel.EPOLL_CTL_ADD /\ i !! fd = None /\
      k' = Kernel.set_files (<[epfd := Kernel.Epoll (<[fd := events]> i)]> (Kernel.files k)) k) \/
     (op = Kernel.EPOLL_CTL_MOD /\ is_Some (i !! fd) /\
      k' = Kernel.set_files (<[epfd := Kernel.Epoll (<[fd := events]> i)]> (Kernel.files k)) k) \/
     (op = Kernel.EPOLL_CTL_DEL /\ is_Some (i !! fd) /\
      k' = Kernel.set_files (<[epfd := Kernel.Epoll (delete fd i)]> (Kernel.files k)) k)).
Proof.
  unfold Kernel.epoll_ctl, Kernel.fail. intros H Hrc.
  destruct (Kernel.files k !! epfd) as [[c sem|i]|];
    destruct (Kernel.files k !! fd) as [f|]; try (injection H as <- _; lia).
  exists i. split; [reflexivity|].
  destruct (fd =? epfd); [injection H as <- _; lia|].
  destruct (op =? Kernel.EPOLL_CTL_ADD) eqn:Ea.
  { destruct (i !! fd) eqn:Ei; [injection H as <- _; lia|].
    injection H as _ <-. left. repeat split. lia. }
  destruct (op =? Kernel.EPOLL_CTL_MOD) eqn:Em.
  { destruct (i !! fd) eqn:Ei; [|injection H as <- _; lia].
    injection H as _ <-. right. left. split; [lia|]. split; [eauto | reflexivity]. }
  destruct (op =? Kernel.EPOLL_CTL_DEL) eqn:Ed.
  { destruct (i !! fd) eqn:Ei; [|injection H as <- _; lia].
    injection H as _ <-. right. right. split; [lia|]. split; [eauto | reflexivity]. }
  injection H as <- _. lia.
Qed.

(** [add], [modify] and [remove] keep [numFds_] in step with the kernel. *)
Lemma call_counted (op : EpollSet.Op) (st st' : Kernel.t * EpollSet.t) :
  is_Clear op = false ->
  counted st ->
  EpollSet.call op st = Returns tt st' ->
  counted st'.
Proof.
  destruct st as [k s]. intros Hop (i & Hi & Hn) H. simpl in Hi, Hn.
  destruct op as [fd ev tr rp|fd ev tr rp|fd|]; simpl in H; [| | |discriminate].
  - unfold EpollSet.add in H.
    apply bind_Returns in H as (efd & st1 & H1 & H). injection H1 as <- <-.
    apply bind_Returns in H as ([] & st2 & H2 & H).
    apply sys_Returns in H2 as (k2 & H2 & ->).
    unfold EpollSet.addEvent_ in H2.
    apply bind_Returns in H2 as (rc & k3 & Hctl & H2).
    destruct (rc <? 0) eqn:Erc.
    { apply bind_Returns in H2 as (e & k4 & _ & H2). destruct (e =? Kernel.EEXIST); discriminate. }
    injection H2 as <-.
    apply epoll_ctl_Returns in Hctl as (i' & Hi' & Hcase); [|lia].
    rewrite Hi in Hi'. injection Hi' as <-.
    destruct Hcase as [(_ & Hnone & ->)|[(E & _)|(E & _)]]; try discriminate.
    injection H as <-. exists (<[fd := snd (EpollSet.createEpollEvent fd ev tr rp)]> i).
    simpl. rewrite lookup_insert_eq. split; [reflexivity|].
    rewrite map_size_insert_None by exact Hnone. rewrite Hn.
    rewrite Nat2Z.inj_succ. unfold Z.succ. apply Zplus_mod_idemp_l.
  - unfold EpollSet.modify in H.
    apply bind_Returns in H as (efd & st1 & H1 & H). injection H1 as <- <-.
    apply bind_Returns in H as (rc & st2 & H2 & H).
    apply sys_Returns in H2 as (k2 & Hctl & ->).
    destruct (rc <? 0) eqn:Erc.
    { apply bind_Returns in H as (e & st4 & _ & H). destruct (e =? Kernel.ENOENT); discriminate. }
    injection H as <-.
    apply epoll_ctl_Returns in Hctl as (i' & Hi' & Hcase); [|lia].
    rewrite Hi in Hi'. injection Hi' as <-.
    destruct Hcase as [(E & _)|[(_ & Hsome & ->)|(E & _)]]; try discriminate.
    exists (<[fd := snd (EpollSet.createEpollEvent fd ev tr rp)]> i).
    simpl. rewrite lookup_insert_eq. split; [reflexivity|].
    rewrite map_size_insert_Some by exact Hsome. exact Hn.
  - unfold EpollSet.remove in H.
    apply bind_Returns in H as (efd & st1 & H1 & H). injection H1 as <- <-.
    apply bind_Returns in H as (rc & st2 & H2 & H).
    apply sys_Returns in H2 as (k2 & Hctl & ->).
    destruct (0 <=? rc) eqn:Erc.
    2:{ apply bind_Returns in H as (e & st4 & _ & H).
        destruct (negb (e =? Kernel.ENOENT)); discriminate. }
    injection H as <-.
    apply epoll_ctl_Returns in Hctl as (i' & Hi' & Hcase); [|lia].
    rewrite Hi in Hi'. injection Hi' as <-.
    destruct Hcase as [(E & _)|[(E & _)|(_ & Hsome & ->)]]; try discriminate.
    exists (delete fd i).
    simpl. rewrite lookup_insert_eq. split; [reflexivity|].
    rewrite Hn.
    assert (Hsz : size i = Datatypes.S (size (delete fd i))).
    { destruct Hsome as [x Hx]. rewrite map_size_delete_Some by eauto.
      assert (size i <> 0%nat); [|lia].
      apply map_size_non_empty_iff. intros ->. rewrite lookup_empty in Hx. discriminate. }
    rewrite Hsz, Nat2Z.inj_succ. unfold Z.succ.
    rewrite Zminus_mod_idemp_l. f_equal. lia.
Qed.

(** As long as [clear] is not called, [numTargets()] is the number of
    descriptors registered in the set. *)
Lemma numTargets_without_clear (ops : list EpollSet.Op) :
  forall st st' : Kernel.t * EpollSet.t,
    forallb (fun op => negb (is_Clear op)) ops = true ->
    counted st ->
    EpollSet.calls ops st = Returns tt st' ->
    EpollSet.numTargets (snd st') = EpollSet.registered st' mod uint32_modulus.
Proof.
  induction ops as [|op ops IH]; intros st st' Hops Hc H; simpl in *.
  - injection H as <-. destruct Hc as (i & Hi & Hn).
    unfold EpollSet.numTargets, EpollSet.registered. rewrite Hi. exact Hn.
  - apply andb_prop in Hops as [Hop Hops].
    apply bind_Returns in H as ([] & st1 & H1 & H).
    eapply IH; [exact Hops | | exact H].
    eapply call_counted; [|exact Hc | exact H1]. destruct (is_Clear op); [discriminate|reflexivity].
Qed.

Example with_epoll_set_built :
  (_ <- Kernel.eventfd 0 0 ;; EpollSet.ctor CLOSE) boot
    = Returns (snd with_epoll_set) (fst with_epoll_set).
Proof. vm_compute. reflexivity. Qed.

(** C5.  [EpollSet set; set.add(0, READ); set.clear();] the kernel set
    that [clear] created has nothing registered, and [numTargets()] is
    still 1: [clear] does not reset [numFds_]. *)
Theorem numTargets_after_clear :
  exists st,
    EpollSet.calls [EpollSet.Add 0 EpollSet.READ EpollSet.LEVEL EpollSet.REPEATING;
                    EpollSet.Clear] with_epoll_set = Returns tt st /\
    EpollSet.registered st = 0 /\
    EpollSet.numTargets (snd st) = 1.
Proof.
  eexists. split; [vm_compute; reflexivity|]. split; reflexivity.
Qed.

(** ** Semaphore *)

Lemma Semaphore_ctor_spec (k : Kernel.t) :
  Kernel.lowest_free (Kernel.files k) < Kernel.nofile k ->
  Semaphore.ctor 0 CLOSE k =
    Returns (Semaphore.mk (Kernel.lowest_free (Kernel.files k)))
            (Kernel.set_files
               (<[Kernel.lowest_free (Kernel.files k) := Kernel.EventFd 0 true]> (Kernel.files k))
               k).
Proof.
  intros H. unfold Semaphore.ctor, Semaphore.createEventFd, Kernel.eventfd, bind.
  rewrite open_file_spec by exact H. rewrite lowest_free_not_negative. reflexivity.
Qed.

Lemma Semaphore_ctor_full (k : Kernel.t) :
  Kernel.nofile k <= Kernel.lowest_free (Kernel.files k) ->
  Semaphore.ctor 0 CLOSE k =
    Throws (SystemError Kernel.EMFILE) (Kernel.set_errno Kernel.EMFILE k).
Proof.
  intros H. unfold Semaphore.ctor, Semaphore.createEventFd, Kernel.eventfd, Kernel.open_file, bind.
  replace (Kernel.lowest_free (Kernel.files k) <? Kernel.nofile k) with false by lia.
  reflexivity.
Qed.

Lemma Semaphore_down_spec (s : Semaphore.t) (k : Kernel.t) n sem :
  Kernel.files k !! Semaphore.fd s = Some (Kernel.EventFd n sem) ->
  Semaphore.down s k =
    if n =? 0 then Blocks k
    else if sem then
      Returns tt (Kernel.set_files (<[Semaphore.fd s := Kernel.EventFd (n - 1) sem]> (Kernel.files k)) k)
    else
      Returns tt (Kernel.set_files (<[Semaphore.fd s := Kernel.EventFd 0 sem]> (Kernel.files k)) k).
Proof.
  intros H. unfold Semaphore.down, spin, Semaphore.read_, Kernel.read, bind.
  unfold Semaphore.fd in H. rewrite H.
  destruct (n =? 0); [reflexivity|]. destruct sem; reflexivity.
Qed.

Lemma Semaphore_up_spec (s : Semaphore.t) (k : Kernel.t) n sem :
  Kernel.files k !! Semaphore.fd s = Some (Kernel.EventFd n sem) ->
  n + 1 <= uint64_max - 1 ->
  Semaphore.up s 1 k =
    Returns tt (Kernel.set_files (<[Semaphore.fd s := Kernel.EventFd (n + 1) sem]> (Kernel.files k)) k).
Proof.
  intros H Hn. unfold Semaphore.up, spin, Semaphore.write_, Kernel.write, bind.
  unfold Semaphore.fd in H. rewrite H.
  replace (1 =? uint64_max) with false by reflexivity.
  replace (n + 1 <=? uint64_max - 1) with true by lia. reflexivity.
Qed.

(** [down(timeout)] on a semaphore that is not signalled, with a
    descriptor free for the local EpollSet and a timeout that is not
    negative as an [int] either: the timeout runs out, and all that is left
    of the EpollSet is that its descriptor is forgotten. *)
Lemma Semaphore_down_timeout_idle (s : Semaphore.t) (timeout : Z) (k : Kernel.t) sem :
  0 <= timeout ->
  0 <= to_int timeout ->
  Kernel.files k !! Semaphore.fd s = Some (Kernel.EventFd 0 sem) ->
  Kernel.lowest_free (Kernel.files k) < Kernel.nofile k ->
  Semaphore.down_timeout s timeout k =
    Returns false
      (Kernel.set_files (Kernel.forget (Kernel.lowest_free (Kernel.files k)) <$> Kernel.files k) k).
Proof.
  intros Ht Hti Hs Hfree.
  pose proof (lowest_free_fresh (Kernel.files k)) as Hfresh.
  pose proof (lowest_free_nonneg (Kernel.files k)) as Hpos.
  set (fd2 := Kernel.lowest_free (Kernel.files k)) in *.
  assert (Hne : Semaphore.fd s <> fd2) by (intros E; rewrite E in Hs; congruence).
  unfold Semaphore.down_timeout.
  replace (timeout <? 0) with false by lia.
  erewrite bind_eq by (eapply EpollSet_ctor_fd_spec; [exact Hs | exact Hfree]).
  fold fd2. unfold scoped, EpollSet.whenReady.
  erewrite bind_eq; cycle 1.
  { apply EpollSet_wait_idle. simpl EpollSet.fd_. simpl EpollSet.numFds_.
    change (to_int 1) with 1.
    eapply epoll_wait_idle with (fd := Semaphore.fd s) (sem := sem); [exact Hti | |].
    - simpl. apply lookup_insert_eq.
    - simpl. rewrite lookup_insert_ne by auto. exact Hs. }
  cbv iota. unfold ret at 1. cbv iota.
  erewrite EpollSet_dtor_spec; [| simpl; exact Hpos | simpl; apply lookup_insert_eq].
  simpl. rewrite delete_insert_eq. rewrite delete_id by exact Hfresh. reflexivity.
Qed.

(** ** Calls that keep an invariant *)

Lemma keeps_bind {S A B} (I P : S -> Prop) (m : M S A) (Q : A -> S -> Prop)
    (f : A -> M S B) (R : B -> S -> Prop) :
  keeps I P m Q -> (forall a, keeps I (Q a) (f a) R) -> keeps I P (bind m f) R.
Proof.
  intros Hm Hf s Hs. specialize (Hm s Hs). unfold bind.
  destruct (m s) as [a s'| | |]; try exact Hm. apply (Hf a s' Hm).
Qed.

Lemma keeps_ret {S A} (I P : S -> Prop) (a : A) (Q : A -> S -> Prop) :
  (forall s, P s -> Q a s) -> keeps I P (ret a) Q.
Proof. intros H s Hs. apply H, Hs. Qed.

Lemma keeps_pre {S A} (I P P' : S -> Prop) (m : M S A) (Q : A -> S -> Prop) :
  (forall s, P' s -> P s) -> keeps I P m Q -> keeps I P' m Q.
Proof. intros H Hm s Hs. apply Hm, H, Hs. Qed.

Lemma keeps_post {S A} (I P : S -> Prop) (m : M S A) (Q Q' : A -> S -> Prop) :
  (forall a s, Q a s -> Q' a s) -> keeps I P m Q -> keeps I P m Q'.
Proof.
  intros H Hm s Hs. specialize (Hm s Hs). destruct (m s); try exact Hm. apply H, Hm.
Qed.

Lemma keeps_update {O} (I P : Kernel.t * O -> Prop) (f : O -> O) (Q : unit -> Kernel.t * O -> Prop) :
  (forall k o, P (k, o) -> Q tt (k, f o)) -> keeps I P (update f) Q.
Proof. intros H [k o] Hs. apply H, Hs. Qed.

Lemma keeps_this {O A} (I P : Kernel.t * O -> Prop) (f : O -> A) (Q : A -> Kernel.t * O -> Prop) :
  (forall k o, P (k, o) -> Q (f o) (k, o)) -> keeps I P (this f) Q.
Proof. intros H [k o] Hs. apply H, Hs. Qed.

Lemma keeps_when {S} (I P : S -> Prop) (c : bool) (m : M S unit) (Q : unit -> S -> Prop) :
  (c = true -> keeps I P m Q) -> (c = false -> forall s, P s -> Q tt s) ->
  keeps I P (when c m) Q.
Proof. destruct c; intros H1 H2; [apply H1; reflexivity | apply keeps_ret, H2; reflexivity]. Qed.

Lemma keeps_after {S A} (I : S -> Prop) (m : M S A) (s s' : S) :
  keeps I I m (fun _ => I) -> I s -> after (m s) = Some s' -> I s'.
Proof.
  intros Hm Hs H. specialize (Hm s Hs). destruct (m s); simpl in H; try discriminate;
    injection H as <-; exact Hm.
Qed.

(** ** Condition: the pointers to a semaphore *)

Lemma armed_app (h : Z) (q1 q2 : list Semaphore.t) :
  armed h (q1 ++ q2) = armed h q1 + armed h q2.
Proof. induction q1 as [|s q1 IH]; simpl; [reflexivity|]. rewrite IH. lia. Qed.

Lemma armed_nonneg (h : Z) (q : list Semaphore.t) : 0 <= armed h q.
Proof. induction q as [|s q IH]; simpl; [lia|]. destruct (Semaphore.fd s =? h); lia. Qed.

Lemma armed_In (s : Semaphore.t) (q : list Semaphore.t) :
  In s q -> 1 <= armed (Semaphore.fd s) q.
Proof.
  induction q as [|s' q IH]; simpl; [tauto|]. intros [->|H].
  - rewrite Z.eqb_refl. pose proof (armed_nonneg (Semaphore.fd s) q). lia.
  - specialize (IH H). destruct (Semaphore.fd s' =? Semaphore.fd s); lia.
Qed.

Lemma armed_single (h : Z) (s : Semaphore.t) :
  armed h [s] = if Semaphore.fd s =? h then 1 else 0.
Proof. simpl. lia. Qed.

Lemma points_to_armed (s : Semaphore.t) (l : list Semaphore.t) :
  Condition.points_to s l = (0 <? armed (Semaphore.fd s) l).
Proof.
  unfold Condition.points_to. induction l as [|s' l IH]; simpl; [reflexivity|].
  rewrite IH. pose proof (armed_nonneg (Semaphore.fd s) l).
  destruct (Semaphore.fd s' =? Semaphore.fd s); simpl; lia.
Qed.

Lemma points_to_In (s s' : Semaphore.t) (l : list Semaphore.t) :
  In s' l -> Semaphore.fd s' = Semaphore.fd s -> Condition.points_to s l = true.
Proof.
  intros Hin E. unfold Condition.points_to. apply existsb_exists. exists s'.
  split; [exact Hin | lia].
Qed.

Lemma points_to_none (s s' : Semaphore.t) (l : list Semaphore.t) :
  Condition.points_to s l = false -> In s' l -> Semaphore.fd s' <> Semaphore.fd s.
Proof.
  intros H Hin E. rewrite (points_to_In s s' l Hin E) in H. discriminate.
Qed.

Lemma semaphore_eq (s s' : Semaphore.t) : Semaphore.fd s = Semaphore.fd s' -> s = s'.
Proof. destruct s, s'. simpl. congruence. Qed.

Lemma remove_one_head (s : Semaphore.t) (l : list Semaphore.t) :
  Condition.remove_one s (s :: l) = l.
Proof. simpl. rewrite Z.eqb_refl. reflexivity. Qed.

Lemma remove_one_In (s s' : Semaphore.t) (l : list Semaphore.t) :
  In s' (Condition.remove_one s l) -> In s' l.
Proof.
  induction l as [|x l IH]; simpl; [tauto|].
  destruct (Semaphore.fd x =? Semaphore.fd s); simpl; intuition.
Qed.

Lemma unhold_hold (s : Semaphore.t) (c : Condition.t) :
  Condition.unhold s (Condition.hold s c) = c.
Proof. destruct c. unfold Condition.unhold, Condition.hold. simpl. rewrite Z.eqb_refl. reflexivity. Qed.

(** A handle that the condition knows is an open semaphore, and a pointer
    is left to a semaphore exactly when the condition knows a handle with
    its descriptor. *)
Lemma sound_open (k : Kernel.t) (c : Condition.t) (s : Semaphore.t) :
  sound (k, c) -> known c s ->
  (exists n, Kernel.files k !! Semaphore.fd s = Some (Kernel.EventFd n true)) /\
  0 <= Semaphore.fd s.
Proof.
  intros [[Hq Ho] [Hc Hn]] Hk. cbn [fst snd] in *. split.
  - destruct Hk as [H|[[fd H]|H]].
    + destruct (Hq s H) as (n & E & _). eauto.
    + destruct (Ho fd s H) as [_ (n & E & _)]. eauto.
    + destruct (Hc s H) as (n & E & _). eauto.
  - apply Hn, Hk.
Qed.

Lemma sound_handle_ok (k : Kernel.t) (c : Condition.t) (s : Semaphore.t) :
  sound (k, c) -> known c s -> handle_ok k c s.
Proof.
  intros [[Hq Ho] [Hc Hn]] Hk. cbn [fst snd] in *.
  destruct Hk as [H|[[fd H]|H]]; [apply Hq, H | apply (Ho fd s H) | apply Hc, H].
Qed.

Lemma owned_known (k : Kernel.t) (c : Condition.t) (s s' : Semaphore.t) :
  consistent (k, c) -> known c s' -> Semaphore.fd s' = Semaphore.fd s ->
  Condition.owned s c = true.
Proof.
  intros [_ Ho] Hk E. cbn [fst snd] in *. unfold Condition.owned.
  destruct Hk as [H|[[fd H]|H]].
  - rewrite (points_to_In s s' _ H E). reflexivity.
  - destruct (Ho fd s' H) as [Efd _]. rewrite <- E, Efd, H.
    rewrite orb_true_r. reflexivity.
  - rewrite (points_to_In s s' _ H E). rewrite orb_true_r. reflexivity.
Qed.

Lemma not_owned_fresh (k : Kernel.t) (c : Condition.t) (s : Semaphore.t) :
  sound (k, c) -> Kernel.files k !! Semaphore.fd s = None -> Condition.owned s c = false.
Proof.
  intros Hs Hf. destruct (Condition.owned s c) eqn:E; [exfalso | reflexivity].
  unfold Condition.owned in E.
  assert (Hex : exists s', known c s' /\ Semaphore.fd s' = Semaphore.fd s).
  { apply orb_prop in E as [E|E]; [apply orb_prop in E as [E|E]|].
    - unfold Condition.points_to in E. apply existsb_exists in E as (s' & Hin & E).
      exists s'. split; [left; exact Hin | lia].
    - destruct (Condition.observers_ c !! Semaphore.fd s) as [s'|] eqn:Eo; [|discriminate].
      exists s'. split; [right; left; eauto|].
      destruct Hs as [[_ Ho] _]. apply (Ho _ _ Eo).
    - unfold Condition.points_to in E. apply existsb_exists in E as (s' & Hin & E).
      exists s'. split; [right; right; exact Hin | lia]. }
  destruct Hex as (s' & Hk & Efd). destruct (sound_open k c s' Hs Hk) as [(n & Hn) _].
  rewrite Efd in Hn. congruence.
Qed.

Lemma not_owned_other (k : Kernel.t) (c : Condition.t) (s s' : Semaphore.t) :
  consistent (k, c) -> Condition.owned s c = false -> known c s' ->
  Semaphore.fd s' <> Semaphore.fd s.
Proof.
  intros Hc Hno Hk E. rewrite (owned_known k c s s' Hc Hk E) in Hno. discriminate.
Qed.

Lemma not_owned_armed (s : Semaphore.t) (c : Condition.t) :
  Condition.owned s c = false -> armed (Semaphore.fd s) (Condition.queue_ c) = 0.
Proof.
  unfold Condition.owned. intros H. apply orb_false_elim in H as [H _].
  apply orb_false_elim in H as [H _]. rewrite points_to_armed in H.
  pose proof (armed_nonneg (Semaphore.fd s) (Condition.queue_ c)). lia.
Qed.

(** ** Condition: handles are signalled at most once *)

Lemma sound_intro (k : Kernel.t) (c : Condition.t) :
  (forall s, known c s -> handle_ok k c s) ->
  (forall fd s, Condition.observers_ c !! fd = Some s -> Semaphore.fd s = fd) ->
  (forall s, known c s -> 0 <= Semaphore.fd s) ->
  sound (k, c).
Proof.
  intros Hok Hkey Hpos. split; [split | split]; cbn [fst snd].
  - intros s Hs. apply Hok. left. exact Hs.
  - intros fd s Hs. split; [apply (Hkey fd s Hs) | apply Hok; right; left; eauto].
  - intros s Hs. apply Hok. right. right. exact Hs.
  - exact Hpos.
Qed.

Lemma sound_keys (k : Kernel.t) (c : Condition.t) (fd : Z) (s : Semaphore.t) :
  sound (k, c) -> Condition.observers_ c !! fd = Some s -> Semaphore.fd s = fd.
Proof. intros [[_ Ho] _] H. apply (Ho fd s H). Qed.

Lemma sound_nonneg (k : Kernel.t) (c : Condition.t) (s : Semaphore.t) :
  sound (k, c) -> known c s -> 0 <= Semaphore.fd s.
Proof. intros [_ [_ Hn]] H. apply Hn, H. Qed.

(** The kernel may change in whatever is not the semaphore of a handle
    that the condition knows. *)
Lemma sound_agree (k k' : Kernel.t) (c : Condition.t) :
  (forall s n, known c s ->
     Kernel.files k !! Semaphore.fd s = Some (Kernel.EventFd n true) ->
     Kernel.files k' !! Semaphore.fd s = Some (Kernel.EventFd n true)) ->
  sound (k, c) -> sound (k', c).
Proof.
  intros H Hs. apply sound_intro.
  - intros s Hk. destruct (sound_handle_ok k c s Hs Hk) as (n & Hf & Hr).
    exists n. split; [apply H; assumption | exact Hr].
  - intros fd s. apply sound_keys with (k := k), Hs.
  - intros s. apply sound_nonneg with (k := k), Hs.
Qed.

Lemma sound_errno (e : Z) (k : Kernel.t) (c : Condition.t) :
  sound (k, c) -> sound (Kernel.set_errno e k, c).
Proof. apply sound_agree. intros s n _ H. exact H. Qed.

Lemma sound_forget (fd : Z) (k : Kernel.t) (c : Condition.t) :
  sound (k, c) ->
  sound (Kernel.set_files (Kernel.forget fd <$> Kernel.files k) k, c).
Proof. apply sound_agree. intros s n _ H. simpl. apply forget_lookup_eventfd. exact H. Qed.

(** A descriptor that was not open is none of a handle. *)
Lemma sound_open_file (fd : Z) (f : Kernel.File) (k : Kernel.t) (c : Condition.t) :
  Kernel.files k !! fd = None ->
  sound (k, c) ->
  sound (Kernel.set_files (<[fd := f]> (Kernel.files k)) k, c).
Proof.
  intros Hfresh. apply sound_agree. intros s n _ H. simpl.
  rewrite lookup_insert_ne; [exact H|]. intros E. rewrite E in Hfresh. congruence.
Qed.

(** Closing the descriptor of a semaphore to which no pointer is left. *)
Lemma sound_close (s : Semaphore.t) (k : Kernel.t) (c : Condition.t) :
  Condition.owned s c = false ->
  sound (k, c) ->
  sound (Kernel.set_files
           (Kernel.forget (Semaphore.fd s) <$> delete (Semaphore.fd s) (Kernel.files k)) k, c).
Proof.
  intros Hno Hs. apply (sound_agree k); [|exact Hs]. intros s' n Hk H. simpl.
  apply forget_lookup_eventfd. rewrite lookup_delete_ne; [exact H|].
  intros E. destruct Hs as [Hc _]. exact (not_owned_other k c s s' Hc Hno Hk (eq_sym E)).
Qed.

(** The queue stays as it is: the handles are as good as they were. *)
Lemma sound_same_queue (k : Kernel.t) (c c' : Condition.t) :
  Condition.queue_ c' = Condition.queue_ c ->
  (forall s, known c' s -> known c s) ->
  (forall fd s, Condition.observers_ c' !! fd = Some s -> Condition.observers_ c !! fd = Some s) ->
  sound (k, c) -> sound (k, c').
Proof.
  intros Eq Hk Ho Hs. apply sound_intro.
  - intros s H. destruct (sound_handle_ok k c s Hs (Hk s H)) as (n & Hf & Hr).
    exists n. rewrite Eq. auto.
  - intros fd s H. apply (sound_keys k c fd s Hs), Ho, H.
  - intros s H. apply (sound_nonneg k c s Hs), Hk, H.
Qed.

Lemma sound_hold (s : Semaphore.t) (k : Kernel.t) (c : Condition.t) :
  known c s ->
  sound (k, c) -> sound (k, Condition.hold s c).
Proof.
  intros Hks. apply sound_same_queue; [reflexivity | | auto].
  intros s' [H|[H|[<-|H]]]; [left; exact H | right; left; exact H | exact Hks | right; right; exact H].
Qed.

Lemma sound_unhold (s : Semaphore.t) (k : Kernel.t) (c : Condition.t) :
  sound (k, c) -> sound (k, Condition.unhold s c).
Proof.
  apply sound_same_queue; [reflexivity | | auto].
  intros s' [H|[H|H]]; [left; exact H | right; left; exact H |].
  right. right. eapply remove_one_In, H.
Qed.

Lemma sound_insert_observer (k : Kernel.t) (c : Condition.t) (s : Semaphore.t) :
  In s (Condition.queue_ c) ->
  sound (k, c) ->
  sound (k, Condition.insert_observer (Semaphore.fd s) s c).
Proof.
  intros Hin Hs. unfold Condition.insert_observer.
  destruct (Condition.observers_ c !! Semaphore.fd s) eqn:E; [exact Hs|].
  apply sound_intro; cbn [Condition.queue_ Condition.observers_ Condition.callers].
  - assert (Hk : forall s', known (Condition.mk (Condition.queue_ c)
                                     (<[Semaphore.fd s := s]> (Condition.observers_ c))
                                     (Condition.callers c)) s' -> known c s').
    { intros s' [H|[[fd H]|H]]; [left; exact H | | right; right; exact H].
      cbn in H. destruct (Z.eq_dec (Semaphore.fd s) fd) as [<-|Hne].
      - rewrite lookup_insert_eq in H. injection H as <-. left. exact Hin.
      - rewrite lookup_insert_ne in H by auto. right. left. eauto. }
    intros s' H. destruct (sound_handle_ok k c s' Hs (Hk s' H)) as (n & Hf & Hr).
    exists n. auto.
  - intros fd s' H. destruct (Z.eq_dec (Semaphore.fd s) fd) as [<-|Hne].
    + rewrite lookup_insert_eq in H. injection H as <-. reflexivity.
    + rewrite lookup_insert_ne in H by auto. apply (sound_keys k c fd s' Hs H).
  - intros s' [H|[[fd H]|H]].
    + apply (sound_nonneg k c s' Hs). left. exact H.
    + cbn in H. destruct (Z.eq_dec (Semaphore.fd s) fd) as [<-|Hne].
      * rewrite lookup_insert_eq in H. injection H as <-.
        apply (sound_nonneg k c s Hs). left. exact Hin.
      * rewrite lookup_insert_ne in H by auto. apply (sound_nonneg k c s' Hs). right. left. eauto.
    + apply (sound_nonneg k c s' Hs). right. right. exact H.
Qed.

Lemma sound_erase_observer (k : Kernel.t) (c : Condition.t) (fd : Z) :
  sound (k, c) -> sound (k, Condition.erase_observer fd c).
Proof.
  apply sound_same_queue; [reflexivity | |].
  - intros s' [H|[[fd' H]|H]]; [left; exact H | | right; right; exact H].
    cbn in H. apply lookup_delete_Some in H as [_ H]. right. left. eauto.
  - intros fd' s H. cbn in H. apply lookup_delete_Some in H as [_ H]. exact H.
Qed.

(** A handle that is neither signalled nor armed is armed. *)
Lemma sound_push (s : Semaphore.t) (k : Kernel.t) (c : Condition.t) :
  Kernel.files k !! Semaphore.fd s = Some (Kernel.EventFd 0 true) ->
  armed (Semaphore.fd s) (Condition.queue_ c) = 0 ->
  0 <= Semaphore.fd s ->
  sound (k, c) -> sound (k, Condition.push_back s c).
Proof.
  intros Hf Ha Hpos Hs.
  assert (Hall : forall s', handle_ok k c s' -> handle_ok k (Condition.push_back s c) s').
  { intros s' (m & Hm & Hm0 & Hm1). exists m. split; [exact Hm|]. split; [exact Hm0|].
    cbn [Condition.push_back Condition.queue_]. rewrite armed_app, armed_single.
    destruct (Z.eqb_spec (Semaphore.fd s) (Semaphore.fd s')) as [E|E]; [|lia].
    rewrite <- E in Hm, Hm1 |- *. rewrite Hf in Hm. injection Hm as <-. lia. }
  assert (Hnew : handle_ok k (Condition.push_back s c) s).
  { exists 0. split; [exact Hf|]. split; [lia|].
    cbn [Condition.push_back Condition.queue_]. rewrite armed_app, armed_single, Z.eqb_refl. lia. }
  apply sound_intro.
  - intros s' [H|[H|H]].
    + cbn in H. apply in_app_or in H as [H|[<-|[]]]; [|exact Hnew].
      apply Hall, (sound_handle_ok k c s' Hs). left. exact H.
    + apply Hall, (sound_handle_ok k c s' Hs). right. left. exact H.
    + apply Hall, (sound_handle_ok k c s' Hs). right. right. exact H.
  - intros fd s' H. apply (sound_keys k c fd s' Hs H).
  - intros s' [H|[H|H]].
    + cbn in H. apply in_app_or in H as [H|[<-|[]]]; [|exact Hpos].
      apply (sound_nonneg k c s' Hs). left. exact H.
    + apply (sound_nonneg k c s' Hs). right. left. exact H.
    + apply (sound_nonneg k c s' Hs). right. right. exact H.
Qed.

(** The handle at the back of the queue is not signalled; signalling it
    and taking it off the queue keeps the state sound. *)
Lemma sound_notify (k : Kernel.t) (c : Condition.t) (s : Semaphore.t) :
  last (Condition.queue_ c) = Some s ->
  sound (k, c) ->
  Kernel.files k !! Semaphore.fd s = Some (Kernel.EventFd 0 true) /\
  0 <= Semaphore.fd s /\
  armed (Semaphore.fd s) (Condition.queue_ (Condition.pop_back c)) = 0 /\
  sound (Kernel.set_files (<[Semaphore.fd s := Kernel.EventFd (0 + 1) true]> (Kernel.files k)) k,
         Condition.pop_back c).
Proof.
  intros Hlast Hs.
  apply last_Some in Hlast as [q' Eq].
  assert (Hin : In s (Condition.queue_ c)) by (rewrite Eq; apply in_or_app; right; left; reflexivity).
  destruct (sound_handle_ok k c s Hs (or_introl Hin)) as (n & Hf & H0 & H1).
  pose proof (armed_In s _ Hin) as Hge.
  assert (n = 0) by lia. subst n. split; [exact Hf|].
  split; [apply (sound_nonneg k c s Hs); left; exact Hin|].
  assert (Hpop : Condition.queue_ (Condition.pop_back c) = q').
  { unfold Condition.pop_back. simpl. rewrite Eq. apply removelast_last. }
  assert (Hq' : armed (Semaphore.fd s) q' = 0).
  { rewrite Eq, armed_app, armed_single, Z.eqb_refl in H1.
    pose proof (armed_nonneg (Semaphore.fd s) q'). lia. }
  split; [rewrite Hpop; exact Hq'|].
  assert (Hk : forall s', known (Condition.pop_back c) s' -> known c s').
  { intros s' [H|[H|H]]; [|right; left; exact H | right; right; exact H].
    left. rewrite Hpop in H. rewrite Eq. apply in_or_app. left. exact H. }
  apply sound_intro.
  - intros s' H. destruct (sound_handle_ok k c s' Hs (Hk s' H)) as (m & Hm & Hm0 & Hm1).
    unfold handle_ok. rewrite Hpop. cbn [Kernel.files Kernel.set_files].
    rewrite Eq, armed_app, armed_single in Hm1.
    destruct (Z.eq_dec (Semaphore.fd s') (Semaphore.fd s)) as [E|Hne].
    + exists 1. rewrite E, lookup_insert_eq. split; [reflexivity|]. split; [lia|]. lia.
    + exists m. rewrite lookup_insert_ne by auto. split; [exact Hm|]. split; [exact Hm0|].
      replace (Semaphore.fd s =? Semaphore.fd s') with false in Hm1 by lia. lia.
  - intros fd s' H. apply (sound_keys k c fd s' Hs H).
  - intros s' H. apply (sound_nonneg k c s' Hs), Hk, H.
Qed.

(** Taking a signal off a semaphore keeps the state sound. *)
Lemma sound_down (k : Kernel.t) (c : Condition.t) (fd n n' : Z) (sem : bool) :
  Kernel.files k !! fd = Some (Kernel.EventFd n sem) ->
  n <> 0 -> (sem = true -> n' = n - 1) ->
  sound (k, c) ->
  sound (Kernel.set_files (<[fd := Kernel.EventFd n' sem]> (Kernel.files k)) k, c).
Proof.
  intros Hf Hpos Hn' Hs. apply sound_intro.
  - intros s H. destruct (sound_handle_ok k c s Hs H) as (m & Hm & Hm0 & Hm1).
    unfold handle_ok. cbn [Kernel.files Kernel.set_files].
    destruct (Z.eq_dec (Semaphore.fd s) fd) as [E|Hne].
    + rewrite E in *. rewrite Hf in Hm. injection Hm as Em Es.
      exists n'. rewrite lookup_insert_eq, Es. split; [reflexivity|].
      specialize (Hn' Es). lia.
    + exists m. rewrite lookup_insert_ne by auto. auto.
  - intros fd' s H. apply (sound_keys k c fd' s Hs H).
  - intros s H. apply (sound_nonneg k c s Hs H).
Qed.

Lemma close_open (fd : Z) (k : Kernel.t) f :
  Kernel.files k !! fd = Some f ->
  Kernel.close fd k =
    Returns 0 (Kernel.set_files (Kernel.forget fd <$> delete fd (Kernel.files k)) k).
Proof. intros H. unfold Kernel.close. rewrite H. reflexivity. Qed.

Lemma closed_lookup (fd h : Z) (fs : gmap Z Kernel.File) :
  (Kernel.forget fd <$> delete fd fs) !! h =
    if decide (h = fd) then None else Kernel.forget fd <$> fs !! h.
Proof.
  rewrite lookup_fmap. destruct (decide (h = fd)) as [->|Hne].
  - rewrite lookup_delete_eq. reflexivity.
  - rewrite lookup_delete_ne by auto. reflexivity.
Qed.

(** ** Condition: what the calls do to the pointers *)

Lemma release_owned (s : Semaphore.t) (k : Kernel.t) (c : Condition.t) :
  Condition.owned s c = true -> Condition.release s (k, c) = Returns tt (k, c).
Proof. intros H. unfold Condition.release, bind, this. rewrite H. reflexivity. Qed.

(** The last pointer to a semaphore goes: its descriptor is closed. *)
Lemma release_last (s : Semaphore.t) (k : Kernel.t) (c : Condition.t) f :
  Condition.owned s c = false ->
  0 <= Semaphore.fd s ->
  Kernel.files k !! Semaphore.fd s = Some f ->
  Condition.release s (k, c) =
    Returns tt
      (Kernel.set_files
         (Kernel.forget (Semaphore.fd s) <$> delete (Semaphore.fd s) (Kernel.files k)) k, c).
Proof.
  intros Hno Hpos Hf. unfold Condition.release, bind, this. rewrite Hno.
  unfold sys, Semaphore.dtor, when. unfold Semaphore.fd in *.
  replace (0 <=? Semaphore.fd_ s) with true by lia.
  unfold bind. rewrite (close_open _ k f Hf). reflexivity.
Qed.

Lemma release_keeps (s : Semaphore.t) :
  keeps sound sound (Condition.release s) (fun _ => sound).
Proof.
  intros [k c] Hs. destruct (Condition.owned s c) eqn:Eo.
  - rewrite release_owned by exact Eo. exact Hs.
  - unfold Condition.release, bind, this. rewrite Eo.
    unfold sys, Semaphore.dtor, when.
    destruct (0 <=? Semaphore.fd_ s); [|exact Hs].
    unfold bind, Kernel.close.
    destruct (Kernel.files k !! Semaphore.fd_ s) eqn:Ef; cbn.
    + apply sound_close; assumption.
    + apply sound_errno, Hs.
Qed.

Lemma release_returns (s : Semaphore.t) (st : Kernel.t * Condition.t) :
  sound st -> exists st', Condition.release s st = Returns tt st' /\ sound st'.
Proof.
  intros Hs. pose proof (release_keeps s st Hs) as Hr. destruct st as [k c].
  unfold Condition.release, bind, this in *.
  destruct (Condition.owned s c); [eexists; split; [reflexivity | exact Hr]|].
  unfold sys, Semaphore.dtor, when, bind, Kernel.close, Kernel.fail, ret in *.
  destruct (0 <=? Semaphore.fd_ s); [|eexists; split; [reflexivity | exact Hr]].
  destruct (Kernel.files k !! Semaphore.fd_ s); eexists; (split; [reflexivity | exact Hr]).
Qed.

Lemma leaving_keeps {A} (s : Semaphore.t) (P : Kernel.t * Condition.t -> Prop)
    (body : M (Kernel.t * Condition.t) A) :
  keeps sound P body (fun _ => sound) ->
  keeps sound P (Condition.leaving s body) (fun _ => sound).
Proof.
  intros Hb st Hst. specialize (Hb st Hst). unfold Condition.leaving.
  destruct (body st) as [a [k1 c1]|e [k1 c1]|st1|]; try exact Hb.
  - destruct (release_returns s (k1, Condition.unhold s c1)) as (st2 & E & H2);
      [apply sound_unhold, Hb|].
    unfold bind at 1. rewrite update_eq. unfold bind at 1. rewrite E. exact H2.
  - destruct (release_returns s (k1, Condition.unhold s c1)) as (st2 & E & H2);
      [apply sound_unhold, Hb|].
    unfold bind at 1. rewrite update_eq. rewrite E. exact H2.
Qed.

(** What is left of a call that returns. *)
Lemma leaving_returns {A} (s : Semaphore.t) (body : M (Kernel.t * Condition.t) A)
    (st : Kernel.t * Condition.t) a k1 c1 :
  body st = Returns a (k1, c1) ->
  Condition.leaving s body st =
    match Condition.release s (k1, Condition.unhold s c1) with
    | Returns _ st' => Returns a st'
    | Throws e st' => Throws e st'
    | Blocks st' => Blocks st'
    | Undefined => Undefined
    end.
Proof.
  intros H. unfold Condition.leaving. rewrite H.
  unfold bind at 1. rewrite update_eq. unfold bind at 1.
  destruct (Condition.release s (k1, Condition.unhold s c1)); reflexivity.
Qed.

Lemma leaving_blocks {A} (s : Semaphore.t) (body : M (Kernel.t * Condition.t) A)
    (st st' : Kernel.t * Condition.t) :
  body st = Blocks st' -> Condition.leaving s body st = Blocks st'.
Proof. intros H. unfold Condition.leaving. rewrite H. reflexivity. Qed.

Lemma leaving_throws {A} (s : Semaphore.t) (body : M (Kernel.t * Condition.t) A)
    (st : Kernel.t * Condition.t) e k1 c1 :
  body st = Throws e (k1, c1) ->
  Condition.owned s (Condition.unhold s c1) = true ->
  Condition.leaving s body st = Throws e (k1, Condition.unhold s c1).
Proof.
  intros H Ho. unfold Condition.leaving. rewrite H.
  unfold bind at 1. rewrite update_eq. rewrite release_owned by exact Ho. reflexivity.
Qed.

(** ** Condition: every step keeps the state sound *)

(** A new semaphore: no pointer to it is in the condition yet. *)
Lemma new_handle_keeps :
  keeps sound sound (sys (Semaphore.ctor 0 CLOSE))
    (fun s st => sound st /\
       Kernel.files (fst st) !! Semaphore.fd s = Some (Kernel.EventFd 0 true) /\
       0 <= Semaphore.fd s /\ Condition.owned s (snd st) = false).
Proof.
  intros [k c] Hs. destruct (Z.lt_ge_cases (Kernel.lowest_free (Kernel.files k)) (Kernel.nofile k)).
  - rewrite (sys_eq _ _ _ _ _ (Semaphore_ctor_spec k H)). cbn [fst snd].
    split; [apply sound_open_file; [apply lowest_free_fresh | exact Hs]|].
    split; [simpl; apply lookup_insert_eq|].
    split; [apply lowest_free_nonneg|].
    apply (not_owned_fresh k c); [exact Hs | apply lowest_free_fresh].
  - rewrite (sys_throws _ _ _ _ _ (Semaphore_ctor_full k H)). apply sound_errno, Hs.
Qed.

(** The local variable of a call that has made its semaphore, and the
    handle in the queue. *)
Lemma hold_new_keeps (s : Semaphore.t) :
  keeps sound
    (fun st => sound st /\
       Kernel.files (fst st) !! Semaphore.fd s = Some (Kernel.EventFd 0 true) /\
       0 <= Semaphore.fd s /\ Condition.owned s (snd st) = false)
    (update (Condition.hold s) ;; update (Condition.push_back s))
    (fun _ st => sound st /\ In s (Condition.queue_ (snd st)) /\
       Kernel.files (fst st) !! Semaphore.fd s = Some (Kernel.EventFd 0 true)).
Proof.
  intros [k c] (Hs & Hf & Hpos & Hno). unfold bind. rewrite !update_eq. cbn [fst snd].
  pose proof (not_owned_armed s c Hno) as Ha.
  assert (Hp : sound (k, Condition.push_back s c)) by (apply sound_push; assumption).
  split; [|split; [simpl; apply in_or_app; right; left; reflexivity | exact Hf]].
  change (Condition.push_back s (Condition.hold s c))
    with (Condition.hold s (Condition.push_back s c)).
  apply sound_hold; [|exact Hp]. left. simpl. apply in_or_app. right. left. reflexivity.
Qed.

Lemma down_keeps (s : Semaphore.t) :
  keeps sound sound (sys (Semaphore.down s)) (fun _ => sound).
Proof.
  intros [k c] Hs. unfold sys.
  destruct (Kernel.files k !! Semaphore.fd s) as [[n sem|i]|] eqn:E.
  - rewrite (Semaphore_down_spec s k n sem E).
    destruct (n =? 0) eqn:En; [exact Hs|].
    destruct sem; eapply sound_down; eauto; lia.
  - unfold Semaphore.down, spin, Semaphore.read_, Kernel.read, bind.
    unfold Semaphore.fd in E. rewrite E. simpl. apply sound_errno, Hs.
  - unfold Semaphore.down, spin, Semaphore.read_, Kernel.read, bind.
    unfold Semaphore.fd in E. rewrite E. simpl. apply sound_errno, Hs.
Qed.

(** [down()] on a handle that the condition knows: when it returns the
    handle is neither signalled nor armed. *)
Lemma down_known_keeps (s : Semaphore.t) :
  keeps sound (fun st => sound st /\ known (snd st) s) (sys (Semaphore.down s))
    (fun _ st => sound st /\ known (snd st) s /\
                 Kernel.files (fst st) !! Semaphore.fd s = Some (Kernel.EventFd 0 true) /\
                 armed (Semaphore.fd s) (Condition.queue_ (snd st)) = 0).
Proof.
  intros [k c] [Hs Hk]. cbn [fst snd] in *. unfold sys.
  destruct (sound_handle_ok k c s Hs Hk) as (n & Hf & H0 & H1).
  rewrite (Semaphore_down_spec s k n true Hf).
  destruct (n =? 0) eqn:En; [exact Hs|].
  pose proof (armed_nonneg (Semaphore.fd s) (Condition.queue_ c)).
  assert (n = 1) by lia. subst n. cbn [fst snd].
  split; [eapply sound_down; eauto; lia|]. split; [exact Hk|].
  split; [simpl; apply lookup_insert_eq | lia].
Qed.

Lemma epoll_wait_sleeps (epfd fd timeout : Z) (k : Kernel.t) sem :
  timeout < 0 ->
  Kernel.files k !! epfd =
    Some (Kernel.Epoll {[fd := snd (EpollSet.createEpollEvent fd EpollSet.READ EpollSet.LEVEL
                                      EpollSet.REPEATING)]}) ->
  Kernel.files k !! fd = Some (Kernel.EventFd 0 sem) ->
  Kernel.epoll_wait epfd 1 timeout k = Blocks k.
Proof.
  intros Ht He Hf. unfold Kernel.epoll_wait. rewrite He.
  replace (1 <=? 0) with false by reflexivity.
  unfold Kernel.ready_events. rewrite map_to_list_singleton. simpl. rewrite Hf. simpl.
  replace (timeout <? 0) with true by lia. reflexivity.
Qed.

(** [down(timeout)] with a timeout that is negative as an [int], on a
    semaphore that is not signalled: the caller sleeps in [epoll_wait], and
    the EpollSet stays open. *)
Lemma Semaphore_down_timeout_sleeps (s : Semaphore.t) (timeout : Z) (k : Kernel.t) sem :
  0 <= timeout ->
  to_int timeout < 0 ->
  Kernel.files k !! Semaphore.fd s = Some (Kernel.EventFd 0 sem) ->
  Kernel.lowest_free (Kernel.files k) < Kernel.nofile k ->
  Semaphore.down_timeout s timeout k =
    Blocks
      (Kernel.set_files
         (<[Kernel.lowest_free (Kernel.files k) :=
              Kernel.Epoll {[Semaphore.fd s :=
                               snd (EpollSet.createEpollEvent (Semaphore.fd s) EpollSet.READ
                                      EpollSet.LEVEL EpollSet.REPEATING)]}]>
            (Kernel.files k)) k).
Proof.
  intros Ht Hti Hs Hfree.
  pose proof (lowest_free_fresh (Kernel.files k)) as Hfresh.
  set (fd2 := Kernel.lowest_free (Kernel.files k)) in *.
  assert (Hne : Semaphore.fd s <> fd2) by (intros E; rewrite E in Hs; congruence).
  unfold Semaphore.down_timeout.
  replace (timeout <? 0) with false by lia.
  erewrite bind_eq by (eapply EpollSet_ctor_fd_spec; [exact Hs | exact Hfree]).
  fold fd2. unfold scoped.
  match goal with
  | |- match ?body ?st with _ => _ end = _ =>
      assert (Hb : body st = Blocks st); [|rewrite Hb; reflexivity]
  end.
  unfold EpollSet.whenReady. apply bind_blocks.
  unfold EpollSet.wait. erewrite bind_eq by reflexivity. simpl negb. cbv iota.
  apply bind_blocks. unfold spin. apply bind_blocks. unfold EpollSet.wait_round.
  erewrite bind_eq by reflexivity. apply bind_blocks. apply sys_blocks.
  simpl EpollSet.fd_. simpl EpollSet.numFds_. change (to_int 1) with 1.
  eapply epoll_wait_sleeps with (fd := Semaphore.fd s) (sem := sem); [exact Hti | |].
  - simpl. apply lookup_insert_eq.
  - simpl. rewrite lookup_insert_ne by auto. exact Hs.
Qed.

Lemma down_timeout_keeps (s : Semaphore.t) (timeout : Z) :
  keeps sound
    (fun st => sound st /\
       Kernel.files (fst st) !! Semaphore.fd s = Some (Kernel.EventFd 0 true))
    (sys (Semaphore.down_timeout s timeout)) (fun _ => sound).
Proof.
  intros [k c] [Hs Hf]. cbn [fst snd] in *.
  destruct (Z.lt_ge_cases timeout 0) as [Hneg|Hpos].
  - erewrite sys_blocks; [exact Hs|]. unfold Semaphore.down_timeout.
    replace (timeout <? 0) with true by lia.
    apply bind_blocks. rewrite (Semaphore_down_spec s k 0 true Hf). reflexivity.
  - destruct (Z.lt_ge_cases (Kernel.lowest_free (Kernel.files k)) (Kernel.nofile k)).
    + destruct (Z.lt_ge_cases (to_int timeout) 0).
      * erewrite sys_blocks by (apply Semaphore_down_timeout_sleeps with (sem := true); assumption).
        apply sound_open_file; [apply lowest_free_fresh | exact Hs].
      * erewrite sys_eq by (apply Semaphore_down_timeout_idle with (sem := true); assumption).
        apply sound_forget, Hs.
    + erewrite sys_throws; [apply sound_errno, Hs|].
      unfold Semaphore.down_timeout. replace (timeout <? 0) with false by lia.
      apply bind_throws. apply EpollSet_ctor_fd_full. assumption.
Qed.

Lemma with_new_handle_keeps {A} (s : Semaphore.t) (body : M (Kernel.t * Condition.t) A) :
  keeps sound
    (fun st => sound st /\ In s (Condition.queue_ (snd st)) /\
       Kernel.files (fst st) !! Semaphore.fd s = Some (Kernel.EventFd 0 true))
    body (fun _ => sound) ->
  keeps sound
    (fun st => sound st /\
       Kernel.files (fst st) !! Semaphore.fd s = Some (Kernel.EventFd 0 true) /\
       0 <= Semaphore.fd s /\ Condition.owned s (snd st) = false)
    (Condition.with_handle s (update (Condition.push_back s) ;; body)) (fun _ => sound).
Proof.
  intros Hb. unfold Condition.with_handle.
  intros st Hst. pose proof (hold_new_keeps s st Hst) as H.
  destruct st as [k c]. unfold bind in H. rewrite !update_eq in H.
  unfold bind at 1. rewrite update_eq.
  apply (leaving_keeps s (fun st => st = (k, Condition.hold s c))); [|reflexivity].
  intros st' ->. unfold bind at 1. rewrite update_eq. apply Hb. exact H.
Qed.

Lemma wait_keeps : keeps sound sound Condition.wait (fun _ => sound).
Proof.
  unfold Condition.wait. eapply keeps_bind; [apply new_handle_keeps|]. intros s.
  apply with_new_handle_keeps.
  apply keeps_pre with (P := sound); [intros st H; apply H | apply down_keeps].
Qed.

Lemma wait_timeout_keeps (timeout : Z) :
  keeps sound sound (Condition.wait_timeout timeout) (fun _ => sound).
Proof.
  unfold Condition.wait_timeout. eapply keeps_bind; [apply new_handle_keeps|]. intros s.
  apply with_new_handle_keeps.
  eapply keeps_pre with
    (P := fun st => sound st /\
            Kernel.files (fst st) !! Semaphore.fd s = Some (Kernel.EventFd 0 true));
    [intros st (H1 & _ & H2); auto | apply down_timeout_keeps].
Qed.

Lemma observe_keeps : keeps sound sound Condition.observe (fun _ => sound).
Proof.
  unfold Condition.observe. eapply keeps_bind; [apply new_handle_keeps|]. intros s.
  apply with_new_handle_keeps.
  apply keeps_bind with (Q := fun _ => sound);
    [|intros []; apply keeps_ret; intros st H; exact H].
  apply keeps_update. intros k c (Hs & Hin & _). apply sound_insert_observer; assumption.
Qed.

Lemma lookup_keeps (fd : Z) :
  keeps sound sound (Condition.lookup_ fd)
    (fun i st => sound st /\ fst i = fd /\ Condition.observers_ (snd st) !! fd = Some (snd i)).
Proof.
  intros [k c] Hs. unfold Condition.lookup_, bind, this.
  destruct (Condition.observers_ c !! fd) eqn:E; cbn; auto.
Qed.

(** What is left of [ack]: the signal is taken and the handle armed
    again. *)
Lemma rearm_keeps (s : Semaphore.t) :
  keeps sound (fun st => sound st /\ known (snd st) s)
    (sys (Semaphore.down s) ;; update (Condition.push_back s)) (fun _ => sound).
Proof.
  eapply keeps_bind; [apply down_known_keeps|]. intros [].
  apply keeps_update. intros k c (Hs & Hk & Hf & Ha). cbn [fst snd] in *.
  apply sound_push; try assumption. apply (sound_nonneg k c s Hs Hk).
Qed.

Lemma held_keeps {A} (s : Semaphore.t) (body : M (Kernel.t * Condition.t) A) :
  keeps sound (fun st => sound st /\ known (snd st) s) body (fun _ => sound) ->
  keeps sound (fun st => sound st /\ known (snd st) s) (Condition.with_handle s body)
    (fun _ => sound).
Proof.
  intros Hb [k c] [Hs Hk]. unfold Condition.with_handle. unfold bind at 1. rewrite update_eq.
  apply (leaving_keeps s (fun st => st = (k, Condition.hold s c))); [|reflexivity].
  intros st' ->. apply Hb. cbn [fst snd] in *. split; [apply sound_hold; assumption|].
  right. right. left. reflexivity.
Qed.

Lemma ack_keeps (fd : Z) : keeps sound sound (Condition.ack fd) (fun _ => sound).
Proof.
  unfold Condition.ack. eapply keeps_bind; [apply lookup_keeps|]. intros [fd' s].
  cbn [fst snd].
  apply keeps_pre with (P := fun st => sound st /\ known (snd st) s);
    [|apply held_keeps, rearm_keeps].
  intros [k c] (Hs & _ & Ho). split; [exact Hs|]. right. left. eauto.
Qed.

Lemma stopObserving_keeps (fd : Z) :
  keeps sound sound (Condition.stopObserving fd) (fun _ => sound).
Proof.
  unfold Condition.stopObserving. eapply keeps_bind; [apply lookup_keeps|]. intros [fd' s].
  cbn [fst snd]. eapply keeps_bind with (Q := fun _ => sound); [|intros []; apply release_keeps].
  apply keeps_update. intros k c (Hs & _ & _). apply sound_erase_observer, Hs.
Qed.

(** One round of notification: the handle at the back is signalled and
    removed, and destroyed when the queue had the last pointer to it. *)
Lemma notify_round_keeps (s : Semaphore.t) :
  keeps sound (fun st => sound st /\ last (Condition.queue_ (snd st)) = Some s)
    (sys (Semaphore.up s 1) ;; update Condition.pop_back ;; Condition.release s)
    (fun _ => sound).
Proof.
  intros [k c] [Hs Hl]. cbn [fst snd] in *.
  destruct (sound_notify k c s Hl Hs) as (Hf & _ & _ & Hs').
  erewrite bind_eq; cycle 1.
  { apply sys_eq. apply (Semaphore_up_spec s k 0 true Hf). unfold uint64_max. lia. }
  unfold bind at 1. rewrite update_eq. apply release_keeps. exact Hs'.
Qed.

Lemma notifyOne_keeps : keeps sound sound Condition.notifyOne (fun _ => sound).
Proof.
  intros [k c] Hs. unfold Condition.notifyOne. unfold bind at 1. unfold this at 1.
  destruct (last (Condition.queue_ c)) as [s|] eqn:E; [|exact Hs].
  apply (notify_round_keeps s (k, c)). auto.
Qed.

Lemma notifyAll_loop_keeps (rounds : nat) :
  keeps sound sound (Condition.notifyAll_loop rounds) (fun _ => sound).
Proof.
  induction rounds as [|rounds IH]; intros [k c] Hs; simpl; [exact Hs|].
  unfold bind at 1. unfold this at 1.
  destruct (last (Condition.queue_ c)) as [s|] eqn:E; [|exact Hs].
  pose proof (notify_round_keeps s (k, c) (conj Hs E)) as H.
  change (sys (Semaphore.up s 1) ;; update Condition.pop_back ;; Condition.release s ;;
          Condition.notifyAll_loop rounds)
    with (sys (Semaphore.up s 1) ;; update Condition.pop_back ;;
          (Condition.release s ;; Condition.notifyAll_loop rounds)).
  revert H. unfold bind.
  destruct (sys (Semaphore.up s 1) (k, c)) as [[] st1| | |]; auto.
  destruct (update Condition.pop_back st1) as [[] st2| | |]; auto.
  destruct (Condition.release s st2) as [[] st3| | |]; auto.
  intros H. apply IH, H.
Qed.

Lemma notifyAll_keeps : keeps sound sound Condition.notifyAll (fun _ => sound).
Proof.
  intros [k c] Hs. unfold Condition.notifyAll, bind, this.
  apply notifyAll_loop_keeps, Hs.
Qed.

Lemma points_to_callers (s : Semaphore.t) (c : Condition.t) :
  Condition.points_to s (Condition.callers c) = true -> known c s.
Proof.
  unfold Condition.points_to. intros H. apply existsb_exists in H as (s' & Hin & E).
  assert (s' = s) by (apply semaphore_eq; lia). subst s'. right. right. exact Hin.
Qed.

Lemma resume_keeps (s : Semaphore.t) : keeps sound sound (Condition.resume s) (fun _ => sound).
Proof.
  intros [k c] Hs. unfold Condition.resume. unfold bind at 1. unfold this at 1.
  destruct (Condition.points_to s (Condition.callers c)) eqn:E; [|exact Hs].
  apply (leaving_keeps s sound); [apply down_keeps | exact Hs].
Qed.

Lemma resume_ack_keeps (s : Semaphore.t) :
  keeps sound sound (Condition.resume_ack s) (fun _ => sound).
Proof.
  intros [k c] Hs. unfold Condition.resume_ack. unfold bind at 1. unfold this at 1.
  destruct (Condition.points_to s (Condition.callers c)) eqn:E; [|exact Hs].
  apply (leaving_keeps s (fun st => sound st /\ known (snd st) s)); [apply rearm_keeps|].
  split; [exact Hs | apply points_to_callers, E].
Qed.

Lemma call_keeps (op : Condition.Op) : keeps sound sound (Condition.call op) (fun _ => sound).
Proof.
  destruct op; simpl.
  - apply wait_keeps.
  - eapply keeps_bind; [apply wait_timeout_keeps|]. intros b. apply keeps_ret. auto.
  - eapply keeps_bind; [apply observe_keeps|]. intros b. apply keeps_ret. auto.
  - apply ack_keeps.
  - apply stopObserving_keeps.
  - apply notifyOne_keeps.
  - apply notifyAll_keeps.
  - apply resume_keeps.
  - apply resume_ack_keeps.
Qed.

Lemma call_sound (op : Condition.Op) (st st' : Kernel.t * Condition.t) :
  sound st -> after (Condition.call op st) = Some st' -> sound st'.
Proof. apply keeps_after, call_keeps. Qed.

Lemma reachable_sound (st : Kernel.t * Condition.t) : reachable st -> sound st.
Proof.
  induction 1 as [k|st st' op _ IH H].
  - apply sound_intro.
    + intros s [[]|[[fd H]|[]]]. cbn in H. rewrite lookup_empty in H. discriminate.
    + intros fd s H. cbn in H. rewrite lookup_empty in H. discriminate.
    + intros s [[]|[[fd H]|[]]]. cbn in H. rewrite lookup_empty in H. discriminate.
  - eapply call_sound; eassumption.
Qed.

Lemma reachable_consistent (st : Kernel.t * Condition.t) : reachable st -> consistent st.
Proof. intros H. apply reachable_sound in H. apply H. Qed.

(** ** Condition: a wait that times out *)

Lemma pop_back_push_back (s : Semaphore.t) (c : Condition.t) :
  Condition.pop_back (Condition.push_back s c) = c.
Proof.
  destruct c as [q obs cs]. unfold Condition.pop_back, Condition.push_back. simpl.
  rewrite removelast_last. reflexivity.
Qed.

Lemma unhold_push_hold (s : Semaphore.t) (c : Condition.t) :
  Condition.unhold s (Condition.push_back s (Condition.hold s c)) = Condition.push_back s c.
Proof.
  destruct c as [q obs cs]. unfold Condition.unhold, Condition.push_back, Condition.hold. simpl.
  rewrite Z.eqb_refl. reflexivity.
Qed.

Lemma owned_push_back (s : Semaphore.t) (c : Condition.t) :
  Condition.owned s (Condition.push_back s c) = true.
Proof.
  unfold Condition.owned. rewrite (points_to_In s s); [reflexivity | | reflexivity].
  simpl. apply in_or_app. right. left. reflexivity.
Qed.

Lemma with_handle_eq {A} (s : Semaphore.t) (body : M (Kernel.t * Condition.t) A)
    (k : Kernel.t) (c : Condition.t) :
  Condition.with_handle s body (k, c) = Condition.leaving s body (k, Condition.hold s c).
Proof. unfold Condition.with_handle. unfold bind at 1. rewrite update_eq. reflexivity. Qed.

Lemma wait_timeout_idle (timeout : Z) (k : Kernel.t) (c : Condition.t) :
  0 <= timeout ->
  0 <= to_int timeout ->
  Z.of_nat (size (Kernel.files k)) + 1 < Kernel.nofile k ->
  let fd1 := Kernel.lowest_free (Kernel.files k) in
  let fs1 := <[fd1 := Kernel.EventFd 0 true]> (Kernel.files k) in
  Condition.wait_timeout timeout (k, c) =
    Returns false
      (Kernel.set_files (Kernel.forget (Kernel.lowest_free fs1) <$> fs1) k,
       Condition.push_back (Semaphore.mk fd1) c).
Proof.
  intros Ht Hti Hroom fd1 fs1.
  pose proof (lowest_free_le_size (Kernel.files k)) as Hle.
  pose proof (lowest_free_fresh (Kernel.files k)) as Hfresh. fold fd1 in Hle, Hfresh.
  assert (Hle1 : Kernel.lowest_free fs1 <= Z.of_nat (size (Kernel.files k)) + 1).
  { pose proof (lowest_free_le_size fs1) as H. unfold fs1 in H at 2.
    rewrite map_size_insert_None in H by exact Hfresh. lia. }
  unfold Condition.wait_timeout.
  erewrite bind_eq by (apply sys_eq, Semaphore_ctor_spec; lia). fold fd1 fs1.
  rewrite with_handle_eq.
  erewrite leaving_returns; cycle 1.
  { erewrite bind_eq by apply update_eq.
    apply sys_eq. apply Semaphore_down_timeout_idle with (sem := true); simpl.
    - exact Ht.
    - exact Hti.
    - apply lookup_insert_eq.
    - fold fs1. lia. }
  rewrite unhold_push_hold, release_owned by apply owned_push_back. reflexivity.
Qed.

(** [notifyOne()] with the handle [s] at the back of the queue, when
    another pointer to [s] is left, and when none is. *)
Lemma notifyOne_last (s : Semaphore.t) (k : Kernel.t) (c : Condition.t) n sem :
  Kernel.files k !! Semaphore.fd s = Some (Kernel.EventFd n sem) ->
  n + 1 <= uint64_max - 1 ->
  Condition.owned s c = true ->
  Condition.notifyOne (k, Condition.push_back s c) =
    Returns tt
      (Kernel.set_files (<[Semaphore.fd s := Kernel.EventFd (n + 1) sem]> (Kernel.files k)) k, c).
Proof.
  intros Hs Hn Ho. unfold Condition.notifyOne.
  erewrite bind_eq by reflexivity.
  change (Condition.queue_ (Condition.push_back s c)) with (Condition.queue_ c ++ [s]).
  rewrite last_snoc.
  erewrite bind_eq by (apply sys_eq, Semaphore_up_spec; eassumption).
  unfold bind at 1. rewrite update_eq, pop_back_push_back.
  apply release_owned, Ho.
Qed.

Lemma notifyOne_last_pointer (s : Semaphore.t) (k : Kernel.t) (c : Condition.t) n sem :
  Kernel.files k !! Semaphore.fd s = Some (Kernel.EventFd n sem) ->
  n + 1 <= uint64_max - 1 ->
  0 <= Semaphore.fd s ->
  Condition.owned s c = false ->
  Condition.notifyOne (k, Condition.push_back s c) =
    Returns tt
      (Kernel.set_files
         (Kernel.forget (Semaphore.fd s) <$> delete (Semaphore.fd s) (Kernel.files k)) k, c).
Proof.
  intros Hs Hn Hpos Ho. unfold Condition.notifyOne.
  erewrite bind_eq by reflexivity.
  change (Condition.queue_ (Condition.push_back s c)) with (Condition.queue_ c ++ [s]).
  rewrite last_snoc.
  erewrite bind_eq by (apply sys_eq, Semaphore_up_spec; eassumption).
  unfold bind at 1. rewrite update_eq, pop_back_push_back.
  erewrite release_last; [|exact Ho | exact Hpos | simpl; apply lookup_insert_eq].
  simpl. rewrite delete_insert_eq. reflexivity.
Qed.

(** C10.  In every state that steps on a condition lead to, a
    [wait(timeout)] that nothing wakes up, with a timeout that is not
    negative as an [int] either (and with descriptors left for its
    semaphore and for the EpollSet of [down(timeout)]), returns false and
    leaves its new handle [s] at the back of the notification queue, its
    descriptor open.  The next [notifyOne()] signals that handle and removes
    it, and with the last pointer to it gone its descriptor is closed: the
    queue is what it was before the wait, so no handle that was waiting is
    signalled, and no eventfd of the process has changed, so no descriptor
    of an observer has become readable. *)
Theorem timed_out_wait_leaves_stale_handle (timeout : Z) (k : Kernel.t) (c : Condition.t) :
  reachable (k, c) ->
  0 <= timeout ->
  0 <= to_int timeout ->
  Z.of_nat (size (Kernel.files k)) + 1 < Kernel.nofile k ->
  exists (s : Semaphore.t) (k1 k2 : Kernel.t),
    Kernel.files k !! Semaphore.fd s = None /\
    Condition.wait_timeout timeout (k, c) = Returns false (k1, Condition.push_back s c) /\
    Kernel.files k1 !! Semaphore.fd s = Some (Kernel.EventFd 0 true) /\
    Condition.notifyOne (k1, Condition.push_back s c) = Returns tt (k2, c) /\
    Kernel.files k2 !! Semaphore.fd s = None /\
    (forall h n sem, h <> Semaphore.fd s ->
       (Kernel.files k2 !! h = Some (Kernel.EventFd n sem) <->
        Kernel.files k !! h = Some (Kernel.EventFd n sem))).
Proof.
  intros Hr Ht Hti Hroom. apply reachable_sound in Hr.
  pose proof (lowest_free_fresh (Kernel.files k)) as Hfresh.
  pose proof (lowest_free_nonneg (Kernel.files k)) as Hpos.
  set (fd1 := Kernel.lowest_free (Kernel.files k)) in *.
  set (fs1 := <[fd1 := Kernel.EventFd 0 true]> (Kernel.files k)).
  set (k1 := Kernel.set_files (Kernel.forget (Kernel.lowest_free fs1) <$> fs1) k).
  assert (Hs1 : Kernel.files k1 !! fd1 = Some (Kernel.EventFd 0 true)).
  { unfold k1. simpl. apply forget_lookup_eventfd. apply lookup_insert_eq. }
  exists (Semaphore.mk fd1), k1,
    (Kernel.set_files (Kernel.forget fd1 <$> delete fd1 (Kernel.files k1)) k1).
  split; [exact Hfresh|].
  split; [apply wait_timeout_idle; assumption|].
  split; [exact Hs1|].
  split.
  { apply (notifyOne_last_pointer (Semaphore.mk fd1) k1 c 0 true Hs1);
      [unfold uint64_max; lia | exact Hpos |].
    apply (not_owned_fresh k c); [exact Hr | exact Hfresh]. }
  split; [simpl; rewrite closed_lookup; destruct (decide (fd1 = fd1)); [reflexivity | congruence]|].
  intros h n sem Hne. simpl in *. rewrite closed_lookup.
  destruct (decide (h = fd1)); [congruence|].
  rewrite <- lookup_fmap, !forget_lookup_eventfd. unfold fs1. rewrite lookup_insert_ne by auto. reflexivity.
Qed.

Lemma timed_out_wait_leaves_stale_handle_witness :
  exists (s : Semaphore.t) (k1 k2 : Kernel.t),
    Kernel.files boot !! Semaphore.fd s = None /\
    Condition.wait_timeout 10 (boot, Condition.ctor)
      = Returns false (k1, Condition.push_back s Condition.ctor) /\
    Kernel.files k1 !! Semaphore.fd s = Some (Kernel.EventFd 0 true) /\
    Condition.notifyOne (k1, Condition.push_back s Condition.ctor)
      = Returns tt (k2, Condition.ctor) /\
    Kernel.files k2 !! Semaphore.fd s = None /\
    (forall h n sem, h <> Semaphore.fd s ->
       (Kernel.files k2 !! h = Some (Kernel.EventFd n sem) <->
        Kernel.files boot !! h = Some (Kernel.EventFd n sem))).
Proof.
  apply (timed_out_wait_leaves_stale_handle 10 boot Condition.ctor).
  - apply (reachable_ctor boot).
  - lia.
  - vm_compute. discriminate.
  - vm_compute. reflexivity.
Defined.

(** ** Condition: ack *)

Lemma readable_eventfd (k : Kernel.t) (fd : Z) n sem :
  Kernel.files k !! fd = Some (Kernel.EventFd n sem) ->
  readable k fd = (0 <? n).
Proof.
  intros H. unfold readable. rewrite H. simpl.
  destruct (0 <? n); destruct (n <? uint64_max - 1); reflexivity.
Qed.

(** [ack] in a sound state: the descriptor is unknown and the call
    throws, or its handle is not signalled and the call waits, holding the
    handle, or the handle holds one signal, which the call consumes. *)
Lemma ack_cases (fd : Z) (k : Kernel.t) (c : Condition.t) :
  sound (k, c) ->
  (Condition.observers_ c !! fd = None /\
   Condition.ack fd (k, c) = Throws NoSuchItem (k, c)) \/
  (exists s, Condition.observers_ c !! fd = Some s /\ Semaphore.fd s = fd /\
     ((Kernel.files k !! fd = Some (Kernel.EventFd 0 true) /\
       Condition.ack fd (k, c) = Blocks (k, Condition.hold s c)) \/
      (Kernel.files k !! fd = Some (Kernel.EventFd 1 true) /\
       Condition.ack fd (k, c) =
         Returns tt (Kernel.set_files (<[fd := Kernel.EventFd 0 true]> (Kernel.files k)) k,
                     Condition.push_back s c)))).
Proof.
  intros Hc. destruct (Condition.observers_ c !! fd) as [s|] eqn:E.
  - right. exists s. split; [reflexivity|].
    pose proof (sound_keys k c fd s Hc E) as Efd. split; [exact Efd|].
    assert (Hl : Condition.lookup_ fd (k, c) = Returns (fd, s) (k, c)).
    { unfold Condition.lookup_. erewrite bind_eq by reflexivity. rewrite E. reflexivity. }
    destruct (sound_handle_ok k c s Hc) as (n & Hn & H0 & H1); [right; left; eauto|].
    pose proof (armed_nonneg (Semaphore.fd s) (Condition.queue_ c)) as Hge.
    unfold Condition.ack. rewrite (bind_eq _ _ _ _ _ Hl). cbn [snd].
    rewrite with_handle_eq.
    destruct (Z.eq_dec n 0) as [->|Hne].
    + left. rewrite <- Efd at 1. split; [exact Hn|].
      apply leaving_blocks, bind_blocks, sys_blocks.
      rewrite (Semaphore_down_spec s _ 0 true Hn). reflexivity.
    + right. assert (n = 1) by lia. subst n.
      rewrite <- Efd at 1. split; [exact Hn|].
      erewrite leaving_returns; cycle 1.
      { erewrite bind_eq; cycle 1.
        { apply sys_eq. rewrite (Semaphore_down_spec s k 1 true Hn). reflexivity. }
        apply update_eq. }
      rewrite unhold_push_hold, release_owned by apply owned_push_back.
      rewrite Efd. reflexivity.
  - left. split; [reflexivity|].
    unfold Condition.ack, Condition.lookup_, bind, this. rewrite E. reflexivity.
Qed.

(** C6.  In every state that calls lead to, [ack(fd)] for a descriptor
    that is not in the observer table throws NoSuchItem and changes
    nothing; for the descriptor of an observer whose handle is signalled
    (readable) it returns, the descriptor is not readable afterwards, and
    the handle is at the back of the notification queue again.  No other
    descriptor is touched. *)
Theorem ack_unknown_or_signalled (k : Kernel.t) (c : Condition.t) (fd : Z) :
  reachable (k, c) ->
  (Condition.observers_ c !! fd = None ->
   Condition.ack fd (k, c) = Throws NoSuchItem (k, c)) /\
  (forall s,
     Condition.observers_ c !! fd = Some s ->
     readable k fd = true ->
     exists k',
       Condition.ack fd (k, c) = Returns tt (k', Condition.push_back s c) /\
       readable k' fd = false /\
       (forall h, h <> fd -> Kernel.files k' !! h = Kernel.files k !! h)).
Proof.
  intros Hr. apply reachable_sound in Hr.
  destruct (ack_cases fd k c Hr) as [[E Hack]|(s & E & Efd & [[Hn Hack]|(Hn & Hack)])].
  - split; [intros _; exact Hack | intros s' Hs'; congruence].
  - split; [intros Hs; congruence|]. intros s' _ Hrd.
    rewrite (readable_eventfd k fd 0 true Hn) in Hrd. discriminate.
  - split; [intros Hs; congruence|]. intros s' Hs' _.
    assert (s' = s) by congruence. subst s'.
    eexists. split; [exact Hack|]. split.
    + rewrite (readable_eventfd _ fd 0 true); [reflexivity|]. simpl. apply lookup_insert_eq.
    + intros h Hne. simpl. apply lookup_insert_ne. auto.
Qed.

Lemma signalled_observer_reachable : reachable signalled_observer.
Proof.
  eapply reachable_call with (op := Condition.NotifyAll).
  - eapply reachable_call with (op := Condition.Observe).
    + apply (reachable_ctor boot).
    + vm_compute. reflexivity.
  - vm_compute. reflexivity.
Qed.

Lemma ack_unknown_or_signalled_witness :
  Condition.ack 5 signalled_observer = Throws NoSuchItem signalled_observer /\
  exists k',
    Condition.ack 0 signalled_observer
      = Returns tt (k', Condition.push_back (Semaphore.mk 0) (snd signalled_observer)) /\
    readable k' 0 = false.
Proof.
  split.
  - apply (ack_unknown_or_signalled (fst signalled_observer) (snd signalled_observer) 5).
    + exact signalled_observer_reachable.
    + vm_compute. reflexivity.
  - destruct (ack_unknown_or_signalled (fst signalled_observer) (snd signalled_observer) 0
                signalled_observer_reachable) as [_ H].
    destruct (H (Semaphore.mk 0)) as (k' & H1 & H2 & _).
    + vm_compute. reflexivity.
    + vm_compute. reflexivity.
    + exists k'. split; assumption.
Defined.


(** ** Queue: what one call does *)

Section QueueFacts.
Context {Item : Type}.
Import Queue.
Abbreviation WorldI := (Queue.World Item).
Abbreviation tI := (Queue.t Item).


Lemma issueNotifications_spec oldSize newSize (w : WorldI) :
  exists w',
    issueNotifications_ oldSize newSize w = Returns tt w' /\
    notified w' = notified w ++ size_events oldSize newSize (self w) ++ mark_events oldSize newSize (self w) /\
    highWaterCrossed_ (self w') = latch_after oldSize newSize (self w) /\
    ReadWriteToggle.state (queueState_ (self w')) = toggle_after oldSize newSize (self w) /\
    q_ (self w') = q_ (self w) /\
    same_settings (self w) (self w') /\
    others w' = others w /\ now w' = now w /\ waited w' = waited w.
Proof.
  destruct w as [q n o nt wt]. destruct q as [mx lw hw items tg hc].
  unfold issueNotifications_, size_events, mark_events, latch_after, toggle_after,
    crossing_high, crossing_low, same_settings.
  unfold bind, when, field, gets, notifyAll, setState, modify, ret, set_self,
    set_queueState_, set_highWaterCrossed_. simpl.
  destruct (oldSize =? 0) eqn:E1, (newSize =? 0) eqn:E2,
           (mx <=? oldSize) eqn:E3, (newSize <? mx) eqn:E4,
           (oldSize <? mx) eqn:E5, (mx <=? newSize) eqn:E6;
  try (exfalso; lia);
  destruct (oldSize <=? hw) eqn:E7, (hw <? newSize) eqn:E8, hc,
           (lw <? oldSize) eqn:E9, (newSize <=? lw) eqn:E10;
  try (exfalso; lia);
  repeat (simpl; rewrite ?E3, ?E4, ?E5, ?E6, ?E7, ?E8, ?E9, ?E10);
  (eexists; repeat split; simpl; rewrite ?app_nil_r, <- ?app_assoc, ?setState_state; reflexivity).
Qed.

Lemma quiet_refl (w : WorldI) : others w = [] -> quiet w w.
Proof. unfold quiet. auto. Qed.

Lemma quiet_trans (w1 w2 w3 : WorldI) : quiet w1 w2 -> quiet w2 w3 -> quiet w1 w3.
Proof. unfold quiet. intros (-> & -> & _) (-> & -> & ->). auto. Qed.

Lemma Condition_wait_quiet cv timeout (w w' : WorldI) b :
  others w = [] -> Condition_wait cv timeout w = Returns b w' -> quiet w w'.
Proof.
  unfold Condition_wait, quiet. intros -> H.
  destruct (time_limit timeout); [|discriminate]. injection H as <- <-. simpl. auto.
Qed.

Lemma while_quiet {L} (cond : L -> WorldI -> bool) (body : L -> M WorldI L) :
  (forall l w l1 w1, others w = [] -> body l w = Returns l1 w1 -> quiet w w1) ->
  forall l w l' w',
    others w = [] -> while_ cond body l w = Returns l' w' ->
    quiet w w' /\ cond l' w' = false.
Proof.
  intros Hbody l w l' w' Ho H. unfold while_ in H.
  eapply (loop_Returns (fun s => quiet w s)); [| apply quiet_refl; exact Ho | exact H].
  intros l0 s l1 s1 Hq _ Hb. eapply quiet_trans; [exact Hq|].
  eapply Hbody; [|exact Hb]. apply Hq.
Qed.

Lemma waitForInvariant_quiet timeout cv inv (w w' : WorldI) b :
  others w = [] -> waitForInvariant_ timeout cv inv w = Returns b w' ->
  quiet w w' /\ b = inv (self w').
Proof.
  intros Ho H. unfold waitForInvariant_ in H.
  apply bind_Returns in H as (haveTime & w1 & Hw & H).
  apply gets_Returns in H as [-> ->].
  apply while_quiet in Hw; [| | exact Ho].
  - destruct Hw as [Hq _]. auto.
  - intros l w0 l1 w2 Ho0 Hb. eapply Condition_wait_quiet; eauto.
Qed.

Lemma resized (op : Queue.Op Item) (w w1 w' : WorldI) (items' : list Item) oldSize newSize :
  others w = [] -> quiet w w1 ->
  oldSize = q_size (self w) -> newSize = Z.of_nat (length items') ->
  (newSize = oldSize + 1 /\ oldSize < maxSize_ (self w)) \/
  (newSize = oldSize - 1) \/ newSize = 0 ->
  issueNotifications_ oldSize newSize (set_self (set_q_ items') w1) = Returns tt w' ->
  others w' = [] /\ effect op w w'.
Proof.
  intros Ho (Hs & Hn & Ho1) Hold Hnew Hrel H.
  destruct (issueNotifications_spec oldSize newSize (set_self (set_q_ items') w1))
    as (w2 & Heq & Hnt & Hl & Htg & Hq & Hset & Hoth & _).
  rewrite Heq in H. injection H as <-.
  split; [rewrite Hoth; exact Ho1|].
  destruct w1 as [q1 n1 o1 nt1 wt1]. simpl in *. subst q1 nt1.
  eapply effect_resized with (oldSize := oldSize) (newSize := newSize); eauto.
  unfold q_size. rewrite Hq. simpl. exact Hnew.
Qed.

Lemma waitUntilNotFull_quiet timeout (w w' : WorldI) b :
  others w = [] -> waitUntilNotFull_ timeout w = Returns b w' -> quiet w w'.
Proof. intros Ho H. eapply waitForInvariant_quiet in H; [apply H | exact Ho]. Qed.

Lemma waitUntilNotEmpty_quiet timeout (w w' : WorldI) b :
  others w = [] -> waitUntilNotEmpty_ timeout w = Returns b w' -> quiet w w'.
Proof. intros Ho H. eapply waitForInvariant_quiet in H; [apply H | exact Ho]. Qed.

(** The tail of [executePut_]: the item is appended and the notifications
    are issued. *)
Lemma put_finish_effect item timeout (w w1 w' : WorldI) b :
  others w = [] -> quiet w w1 ->
  (maxSize_ (self w1) <=? q_size (self w1)) = false ->
  (modify (set_self (fun q => set_q_ (q_ q ++ [item]) q)) ;;
   n <- size_ ;;
   issueNotifications_ (n - 1) n ;;
   ret true) w1 = Returns b w' ->
  others w' = [] /\ effect (Put item timeout) w w'.
Proof.
  intros Ho Hq Hc H.
  apply bind_Returns in H as (u & w2 & Hm & H). apply modify_Returns in Hm. subst w2.
  apply bind_Returns in H as (n & w2 & Hn & H). apply gets_Returns in Hn as [-> ->].
  apply bind_Returns in H as (u' & w3 & Hi & H). apply ret_Returns in H as [-> ->].
  destruct u'.
  assert (Hs : self w1 = self w) by apply Hq.
  assert (Hlen : q_size (self (set_self (fun q => set_q_ (q_ q ++ [item]) q) w1))
                 = q_size (self w) + 1).
  { rewrite <- Hs. unfold q_size. simpl. rewrite length_app. simpl. lia. }
  rewrite Hlen in Hi. replace (q_size (self w) + 1 - 1) with (q_size (self w)) in Hi by lia.
  refine (resized _ w w1 _ (q_ (self w1) ++ [item]) (q_size (self w)) (q_size (self w) + 1)
            Ho Hq eq_refl _ _ Hi).
  - rewrite length_app. rewrite <- Hs. unfold q_size. simpl. lia.
  - left. split; [reflexivity|]. rewrite <- Hs. lia.
Qed.

Lemma put_effect item timeout (w w' : WorldI) b :
  others w = [] -> put item timeout w = Returns b w' ->
  others w' = [] /\ effect (Put item timeout) w w'.
Proof.
  intros Ho H. unfold put, executePut_ in H.
  destruct (timeout <? 0).
  - apply bind_Returns in H as (u & w1 & Hw & H).
    apply while_quiet in Hw; [| | exact Ho].
    2:{ intros l w0 l1 w2 Ho0 Hb. apply bind_Returns in Hb as (b0 & w3 & Hb & Hr).
        apply ret_Returns in Hr as [-> ->]. eapply waitUntilNotFull_quiet; eauto. }
    destruct Hw as [Hq Hc]. eapply put_finish_effect; eauto.
  - apply bind_Returns in H as (t0 & w0 & Hc0 & H). apply gets_Returns in Hc0 as [-> ->].
    apply bind_Returns in H as (t1 & w1 & Hw & H).
    apply while_quiet in Hw; [| | exact Ho].
    2:{ intros l wa l1 w2 Ho0 Hb. apply bind_Returns in Hb as (b0 & w3 & Hb & Hr).
        apply gets_Returns in Hr as [-> ->]. eapply waitUntilNotFull_quiet; eauto. }
    destruct Hw as [Hq _].
    apply bind_Returns in H as (full & w2 & Hf & H). apply gets_Returns in Hf as [-> ->].
    destruct (maxSize_ (self w1) <=? q_size (self w1)) eqn:Efull.
    + apply ret_Returns in H as [-> ->]. split; [apply Hq|]. apply effect_none; apply Hq.
    + eapply put_finish_effect; eauto.
Qed.

(** The tail of [get]: the first item is removed and the notifications are
    issued. *)
Lemma get_finish_effect {A} op (f : Item -> A) (w w1 w' : WorldI) b :
  others w = [] -> quiet w w1 ->
  (item <- pop_front ;;
   n <- size_ ;;
   issueNotifications_ (n + 1) n ;;
   ret (f item)) w1 = Returns b w' ->
  others w' = [] /\ effect op w w'.
Proof.
  intros Ho Hq H.
  apply bind_Returns in H as (item & w2 & Hp & H).
  unfold pop_front in Hp. destruct (q_ (self w1)) as [|x rest] eqn:Eq; [discriminate|].
  injection Hp as <- <-.
  apply bind_Returns in H as (n & w2 & Hn & H). apply gets_Returns in Hn as [-> ->].
  apply bind_Returns in H as (u' & w3 & Hi & H). apply ret_Returns in H as [-> ->].
  destruct u'.
  assert (Hs : self w1 = self w) by apply Hq.
  assert (Hlen : q_size (self (set_self (set_q_ rest) w1)) = q_size (self w) - 1).
  { rewrite <- Hs. unfold q_size. simpl. rewrite Eq. simpl. lia. }
  rewrite Hlen in Hi. replace (q_size (self w) - 1 + 1) with (q_size (self w)) in Hi by lia.
  refine (resized _ w w1 _ rest (q_size (self w)) (q_size (self w) - 1)
            Ho Hq eq_refl _ _ Hi).
  - rewrite <- Hs. unfold q_size. rewrite Eq. simpl. lia.
  - right. left. reflexivity.
Qed.

Lemma get_effect op (w w' : WorldI) item :
  others w = [] -> get w = Returns item w' -> others w' = [] /\ effect op w w'.
Proof.
  intros Ho H. unfold get in H.
  apply bind_Returns in H as (u & w1 & Hw & H).
  apply while_quiet in Hw; [| | exact Ho].
  2:{ intros l w0 l1 w2 Ho0 Hb. apply bind_Returns in Hb as (b0 & w3 & Hb & Hr).
      apply ret_Returns in Hr as [-> ->]. eapply waitUntilNotEmpty_quiet; eauto. }
  destruct Hw as [Hq _]. eapply (get_finish_effect op (fun i => i)); eauto.
Qed.

Lemma get_timeout_effect op timeout (w w' : WorldI) r :
  others w = [] -> get_timeout timeout w = Returns r w' -> others w' = [] /\ effect op w w'.
Proof.
  intros Ho H. unfold get_timeout in H.
  destruct (timeout <? 0).
  - apply bind_Returns in H as (item & w1 & Hg & H). apply ret_Returns in H as [-> ->].
    eapply get_effect; eauto.
  - apply bind_Returns in H as (t0 & w0 & Hc0 & H). apply gets_Returns in Hc0 as [-> ->].
    apply bind_Returns in H as (t1 & w1 & Hw & H).
    apply while_quiet in Hw; [| | exact Ho].
    2:{ intros l wa l1 w2 Ho0 Hb. apply bind_Returns in Hb as (b0 & w3 & Hb & Hr).
        apply gets_Returns in Hr as [-> ->]. eapply waitUntilNotEmpty_quiet; eauto. }
    destruct Hw as [Hq _].
    apply bind_Returns in H as (e & w2 & Hf & H). apply gets_Returns in Hf as [-> ->].
    destruct (q_empty (self w1)).
    + apply ret_Returns in H as [-> ->]. split; [apply Hq|]. apply effect_none; apply Hq.
    + eapply (get_finish_effect op Some); eauto.
Qed.

Lemma getAll_effect op (w w' : WorldI) r :
  others w = [] -> getAll w = Returns r w' -> others w' = [] /\ effect op w w'.
Proof.
  intros Ho H. unfold getAll in H.
  apply bind_Returns in H as (items & w0 & Hf & H). apply gets_Returns in Hf as [-> ->].
  apply bind_Returns in H as (u & w1 & Hm & H). apply modify_Returns in Hm. subst w1.
  apply bind_Returns in H as (u' & w3 & Hi & H). apply ret_Returns in H as [-> ->].
  destruct u'.
  refine (resized _ w w _ [] (q_size (self w)) 0 Ho (quiet_refl w Ho) eq_refl eq_refl _ Hi).
  right. right. reflexivity.
Qed.

Lemma clear_effect op (w w' : WorldI) :
  others w = [] -> clear w = Returns tt w' -> others w' = [] /\ effect op w w'.
Proof.
  intros Ho H. unfold clear in H.
  apply bind_Returns in H as (n & w0 & Hf & H). apply gets_Returns in Hf as [-> ->].
  apply bind_Returns in H as (u & w1 & Hm & H). apply modify_Returns in Hm. subst w1.
  refine (resized _ w w _ [] (q_size (self w)) 0 Ho (quiet_refl w Ho) eq_refl eq_refl _ H).
  right. right. reflexivity.
Qed.

Lemma call_effect op (w w' : WorldI) :
  others w = [] -> call op w = Returns tt w' -> others w' = [] /\ effect op w w'.
Proof.
  intros Ho H. destruct op; simpl in H.
  - apply bind_Returns in H as (b & w1 & Hg & H). apply ret_Returns in H as [_ ->].
    eapply put_effect; eauto.
  - apply bind_Returns in H as (b & w1 & Hg & H). apply ret_Returns in H as [_ ->].
    eapply get_effect; eauto.
  - apply bind_Returns in H as (b & w1 & Hg & H). apply ret_Returns in H as [_ ->].
    eapply get_timeout_effect; eauto.
  - apply bind_Returns in H as (b & w1 & Hg & H). apply ret_Returns in H as [_ ->].
    eapply getAll_effect; eauto.
  - eapply clear_effect; eauto.
  - unfold setLowWaterMark in H.
    apply bind_Returns in H as (n & w0 & Hf & H). apply gets_Returns in Hf as [-> ->].
    destruct (highWaterMark_ (self w) <? value); [discriminate|].
    apply modify_Returns in H. subst w'. split; [exact Ho|].
    apply effect_marks; reflexivity.
  - unfold setHighWaterMark in H.
    apply bind_Returns in H as (n & w0 & Hf & H). apply gets_Returns in Hf as [-> ->].
    apply bind_Returns in H as (n & w0 & Hf & H). apply gets_Returns in Hf as [-> ->].
    destruct (maxSize_ (self w) <? value); [discriminate|].
    destruct (value <? lowWaterMark_ (self w)); [discriminate|].
    apply modify_Returns in H. subst w'. split; [exact Ho|].
    apply effect_marks; reflexivity.
Qed.

Lemma track_app latch (l1 l2 : list Cv) :
  track latch (l1 ++ l2) = match track latch l1 with Some b => track b l2 | None => None end.
Proof.
  revert latch. induction l1 as [|cv l1 IH]; intros latch; simpl; [reflexivity|].
  destruct cv, latch; auto.
Qed.

Lemma track_size_events latch oldSize newSize (q : tI) :
  track latch (size_events oldSize newSize q) = Some latch.
Proof.
  unfold size_events.
  destruct ((oldSize =? 0) && negb (newSize =? 0)), (negb (oldSize =? 0) && (newSize =? 0)),
    ((maxSize_ q <=? oldSize) && (newSize <? maxSize_ q)),
    ((oldSize <? maxSize_ q) && (maxSize_ q <=? newSize)); reflexivity.
Qed.

Lemma track_mark_events oldSize newSize (q : tI) :
  track (highWaterCrossed_ q) (mark_events oldSize newSize q) = Some (latch_after oldSize newSize q).
Proof.
  unfold mark_events, latch_after, crossing_high, crossing_low.
  destruct (highWaterCrossed_ q), (oldSize <=? highWaterMark_ q) eqn:E1,
    (highWaterMark_ q <? newSize) eqn:E2, (lowWaterMark_ q <? oldSize) eqn:E3,
    (newSize <=? lowWaterMark_ q) eqn:E4; simpl; try reflexivity.
Qed.

(** One call keeps the latch in step with the notifications. *)
Lemma effect_track op (w w' : WorldI) :
  effect op w w' ->
  track false (notified w) = Some (highWaterCrossed_ (self w)) ->
  track false (notified w') = Some (highWaterCrossed_ (self w')).
Proof.
  intros [oldSize newSize _ _ _ _ Hn Hl _ | Hs Hn | _ _ _ _ Hl Hn] Ht.
  - rewrite Hn, Hl, track_app, Ht, track_app, track_size_events. apply track_mark_events.
  - rewrite Hn, Hs. exact Ht.
  - rewrite Hn, Hl. exact Ht.
Qed.

Lemma calls_track ops : forall (w w' : WorldI),
  others w = [] -> calls ops w = Returns tt w' ->
  track false (notified w) = Some (highWaterCrossed_ (self w)) ->
  others w' = [] /\ track false (notified w') = Some (highWaterCrossed_ (self w')).
Proof.
  induction ops as [|op ops IH]; intros w w' Ho H Ht; simpl in H.
  - apply ret_Returns in H as [_ ->]. auto.
  - apply bind_Returns in H as ([] & w1 & Hc & H).
    apply call_effect in Hc as [Ho1 He]; [|exact Ho].
    eapply IH; eauto. eapply effect_track; eauto.
Qed.

Lemma track_stays_set (l : list Cv) b :
  track true l = Some b -> ~ In lowWaterMarkCv_ l -> b = true.
Proof.
  induction l as [|cv l IH]; simpl; intros H Hn.
  - congruence.
  - destruct cv; try discriminate; try (apply IH; [exact H | tauto]).
    exfalso. apply Hn. left. reflexivity.
Qed.

Lemma track_stays_clear (l : list Cv) b :
  track false l = Some b -> ~ In highWaterMarkCv_ l -> b = false.
Proof.
  induction l as [|cv l IH]; simpl; intros H Hn.
  - congruence.
  - destruct cv; try discriminate; try (apply IH; [exact H | tauto]).
    exfalso. apply Hn. left. reflexivity.
Qed.

Lemma track_high_high latch (a b c : list Cv) r :
  track latch (a ++ highWaterMarkCv_ :: b ++ highWaterMarkCv_ :: c) = Some r ->
  In lowWaterMarkCv_ b.
Proof.
  intros H. rewrite track_app in H.
  destruct (track latch a) as [x|]; [|discriminate]. simpl in H.
  destruct x; [discriminate|]. rewrite track_app in H.
  destruct (track true b) as [y|] eqn:Eb; [|discriminate].
  destruct (in_dec (fun x y : Cv => ltac:(decide equality) : {x = y} + {x <> y})
              lowWaterMarkCv_ b) as [Hin|Hn]; [exact Hin|].
  apply track_stays_set in Eb; [|exact Hn]. subst y. simpl in H. discriminate.
Qed.

Lemma track_low_low latch (a b c : list Cv) r :
  track latch (a ++ lowWaterMarkCv_ :: b ++ lowWaterMarkCv_ :: c) = Some r ->
  In highWaterMarkCv_ b.
Proof.
  intros H. rewrite track_app in H.
  destruct (track latch a) as [x|]; [|discriminate]. simpl in H.
  destruct x; [|discriminate]. rewrite track_app in H.
  destruct (track false b) as [y|] eqn:Eb; [|discriminate].
  destruct (in_dec (fun x y : Cv => ltac:(decide equality) : {x = y} + {x <> y})
              highWaterMarkCv_ b) as [Hin|Hn]; [exact Hin|].
  apply track_stays_clear in Eb; [|exact Hn]. subst y. simpl in H. discriminate.
Qed.

Lemma in_size_events cv oldSize newSize (q : tI) :
  In cv (size_events oldSize newSize q) -> cv <> highWaterMarkCv_ /\ cv <> lowWaterMarkCv_.
Proof.
  unfold size_events.
  destruct ((oldSize =? 0) && negb (newSize =? 0)), (negb (oldSize =? 0) && (newSize =? 0)),
    ((maxSize_ q <=? oldSize) && (newSize <? maxSize_ q)),
    ((oldSize <? maxSize_ q) && (maxSize_ q <=? newSize)); simpl;
  intuition (subst; discriminate).
Qed.

Lemma high_in_events oldSize newSize (q : tI) :
  In highWaterMarkCv_ (size_events oldSize newSize q ++ mark_events oldSize newSize q) <->
  oldSize <= highWaterMark_ q /\ highWaterMark_ q < newSize /\ highWaterCrossed_ q = false.
Proof.
  rewrite in_app_iff. split.
  - intros [H|H]; [apply in_size_events in H; tauto|].
    unfold mark_events, crossing_high, crossing_low in H.
    destruct (highWaterCrossed_ q), (oldSize <=? highWaterMark_ q) eqn:E1,
      (highWaterMark_ q <? newSize) eqn:E2, (lowWaterMark_ q <? oldSize) eqn:E3,
      (newSize <=? lowWaterMark_ q) eqn:E4; simpl in H;
    intuition (try discriminate; try lia).
  - intros (H1 & H2 & H3). right. unfold mark_events, crossing_high. rewrite H3.
    replace (oldSize <=? highWaterMark_ q) with true by lia.
    replace (highWaterMark_ q <? newSize) with true by lia. simpl. auto.
Qed.

Lemma low_in_events oldSize newSize (q : tI) :
  In lowWaterMarkCv_ (size_events oldSize newSize q ++ mark_events oldSize newSize q) <->
  lowWaterMark_ q < oldSize /\ newSize <= lowWaterMark_ q /\ highWaterCrossed_ q = true.
Proof.
  rewrite in_app_iff. split.
  - intros [H|H]; [apply in_size_events in H; tauto|].
    unfold mark_events, crossing_high, crossing_low in H.
    destruct (highWaterCrossed_ q), (oldSize <=? highWaterMark_ q) eqn:E1,
      (highWaterMark_ q <? newSize) eqn:E2, (lowWaterMark_ q <? oldSize) eqn:E3,
      (newSize <=? lowWaterMark_ q) eqn:E4; simpl in H;
    intuition (try discriminate; try lia).
  - intros (H1 & H2 & H3). right. unfold mark_events, crossing_high, crossing_low. rewrite H3.
    replace (lowWaterMark_ q <? oldSize) with true by lia.
    replace (newSize <=? lowWaterMark_ q) with true by lia. simpl.
    rewrite andb_false_r. simpl. auto.
Qed.

(** C4.  Watermark hysteresis.  After any calls on a newly constructed
    queue (the last of them [op]), between two notifications of
    [highWaterMarkCv_] there is one of [lowWaterMarkCv_], and between two of
    [lowWaterMarkCv_] one of [highWaterMarkCv_]; and a call notifies
    [highWaterMarkCv_] exactly when it takes the size from at most the
    high-water mark to above it with the latch clear, and [lowWaterMarkCv_]
    exactly when it takes the size from above the low-water mark to at most
    it with the latch set. *)
Theorem watermark_hysteresis (maxSize lowWaterMark highWaterMark toggle time : Z)
    (q : tI) (ops : list (Op Item)) (op : Op Item) (w w' : WorldI) :
  ctor maxSize lowWaterMark highWaterMark toggle = inr q ->
  calls ops (alone q time) = Returns tt w ->
  call op w = Returns tt w' ->
  (forall a b c, notified w' = a ++ highWaterMarkCv_ :: b ++ highWaterMarkCv_ :: c ->
                 In lowWaterMarkCv_ b) /\
  (forall a b c, notified w' = a ++ lowWaterMarkCv_ :: b ++ lowWaterMarkCv_ :: c ->
                 In highWaterMarkCv_ b) /\
  exists fired, notified w' = notified w ++ fired /\
    (In highWaterMarkCv_ fired <->
       q_size (self w) <= highWaterMark_ (self w) /\
       highWaterMark_ (self w) < q_size (self w') /\
       highWaterCrossed_ (self w) = false) /\
    (In lowWaterMarkCv_ fired <->
       lowWaterMark_ (self w) < q_size (self w) /\
       q_size (self w') <= lowWaterMark_ (self w) /\
       highWaterCrossed_ (self w) = true).
Proof.
  intros Hctor Hops Hop.
  assert (Hq : highWaterCrossed_ q = false).
  { unfold ctor in Hctor.
    destruct (maxSize <? highWaterMark); [discriminate|].
    destruct (highWaterMark <? lowWaterMark); [discriminate|].
    injection Hctor as <-. reflexivity. }
  destruct (calls_track ops (alone q time) w eq_refl Hops) as [Ho Ht].
  { simpl. rewrite Hq. reflexivity. }
  destruct (call_effect op w w' Ho Hop) as [Ho' He].
  pose proof (effect_track op w w' He Ht) as Ht'.
  split; [|split].
  - intros a b c E. rewrite E in Ht'. eapply track_high_high; eauto.
  - intros a b c E. rewrite E in Ht'. eapply track_low_low; eauto.
  - destruct He as [oldSize newSize Ho1 Hn1 _ _ Hn _ _ | Hs Hn | _ _ Hitems _ _ Hn].
    + exists (size_events oldSize newSize (self w) ++ mark_events oldSize newSize (self w)).
      split; [exact Hn|]. subst oldSize newSize.
      split; [apply high_in_events | apply low_in_events].
    + exists []. rewrite app_nil_r, Hs. split; [exact Hn|].
      split; (split; [intros []| lia]).
    + exists []. rewrite app_nil_r. split; [exact Hn|].
      assert (q_size (self w') = q_size (self w)) by (unfold q_size; rewrite Hitems; reflexivity).
      split; (split; [intros []| lia]).
Qed.

End QueueFacts.

Lemma watermark_hysteresis_witness :
  exists w w' : Queue.World Z,
    Queue.calls [Queue.Put 1 (-1); Queue.Put 2 (-1); Queue.Put 3 (-1); Queue.Put 4 (-1);
                 Queue.Put 5 (-1); Queue.Get; Queue.Put 6 (-1); Queue.Get; Queue.Get;
                 Queue.Get; Queue.Put 7 (-1); Queue.Put 8 (-1)]
      (Queue.alone queue_10_2_4 0) = Returns tt w /\
    Queue.call (Queue.Put 9 (-1)) w = Returns tt w' /\
    Queue.notified w' =
      [Queue.notEmptyCv_; Queue.highWaterMarkCv_; Queue.lowWaterMarkCv_;
       Queue.highWaterMarkCv_] /\
    (forall a b c,
        Queue.notified w' = a ++ Queue.highWaterMarkCv_ :: b ++ Queue.highWaterMarkCv_ :: c ->
        In Queue.lowWaterMarkCv_ b).
Proof.
  eexists. eexists.
  split; [vm_compute; reflexivity|].
  split; [vm_compute; reflexivity|].
  split; [reflexivity|].
  eapply (watermark_hysteresis 10 2 4 3 0 queue_10_2_4
           [Queue.Put 1 (-1); Queue.Put 2 (-1); Queue.Put 3 (-1); Queue.Put 4 (-1);
            Queue.Put 5 (-1); Queue.Get; Queue.Put 6 (-1); Queue.Get; Queue.Get;
            Queue.Get; Queue.Put 7 (-1); Queue.Put 8 (-1)] (Queue.Put 9 (-1))).
  - reflexivity.
  - vm_compute. reflexivity.
  - vm_compute. reflexivity.
Defined.

(** ** Queue: the calls that return *)

Section QueueProgress.
Context {Item : Type}.
Import Queue.

Lemma while_skip {L} (cond : L -> World Item -> bool) (body : L -> M (World Item) L) l w :
  cond l w = false -> while_ cond body l w = Returns l w.
Proof. intros H. unfold while_, rounds. simpl. rewrite H. reflexivity. Qed.

Lemma time_limit_small (timeout : Z) :
  0 <= timeout < 2 ^ 31 -> time_limit timeout = Some timeout.
Proof.
  intros H. unfold time_limit. rewrite to_int_small by lia.
  replace (timeout <? 0) with false by lia. reflexivity.
Qed.

(** With no other thread, a wait for something that does not hold runs
    into its time limit. *)
Lemma waitForInvariant_runs_out timeout limit cv (invariant : t Item -> bool) (w : World Item) :
  others w = [] -> invariant (self w) = false -> time_limit timeout = Some limit ->
  waitForInvariant_ timeout cv invariant w =
    Returns false (mkWorld (self w) (now w + limit) [] (notified w)
                           (waited w ++ [(cv, timeout)])).
Proof.
  intros Ho Hi Ht. unfold waitForInvariant_.
  erewrite bind_eq; cycle 1.
  { unfold while_, rounds. rewrite Ho. simpl. rewrite Hi. simpl.
    unfold bind, Condition_wait. rewrite Ho, Ht. simpl. rewrite Hi. reflexivity. }
  unfold field, gets. simpl. rewrite Hi. reflexivity.
Qed.

Lemma waitForInvariant_times_out timeout cv (invariant : t Item -> bool) (w : World Item) :
  others w = [] -> invariant (self w) = false -> 0 <= timeout < 2 ^ 31 ->
  waitForInvariant_ timeout cv invariant w =
    Returns false (mkWorld (self w) (now w + timeout) [] (notified w)
                           (waited w ++ [(cv, timeout)])).
Proof.
  intros Ho Hi Ht. apply waitForInvariant_runs_out; [exact Ho | exact Hi |].
  apply time_limit_small, Ht.
Qed.

Lemma issueNotifications_returns oldSize newSize (w : World Item) :
  exists w', issueNotifications_ oldSize newSize w = Returns tt w'.
Proof. destruct (issueNotifications_spec oldSize newSize w) as (w' & H & _). eauto. Qed.

(** The loop of a timed [put] or [get] on a queue on its own whose
    condition [c] for going on holds: it ends, by the deadline, with the
    queue as it was. *)
Lemma timed_loop_alone (c invariant : t Item -> bool) cv timeout (w : World Item) :
  (forall q, invariant q = negb (c q)) ->
  others w = [] -> c (self w) = true -> 0 <= timeout < 2 ^ 31 ->
  exists l w1,
    while_ (fun t w0 => c (self w0) && (t <? now w + timeout))
           (fun t => waitForInvariant_ (now w + timeout - t) cv invariant ;; clock)
           (now w) w = Returns l w1 /\
    self w1 = self w /\ others w1 = [] /\ notified w1 = notified w.
Proof.
  intros Hinv Ho Hc Ht.
  destruct (Z.eq_dec timeout 0) as [->|Hne].
  - exists (now w), w. split; [|auto]. apply while_skip. rewrite Hc. simpl. lia.
  - set (w1 := mkWorld (self w) (now w + (now w + timeout - now w)) [] (notified w)
                 (waited w ++ [(cv, now w + timeout - now w)])).
    exists (now w1), w1. split; [|auto].
    unfold while_, rounds. rewrite Ho. simpl. rewrite Hc.
    replace (now w <? now w + timeout) with true by lia. simpl.
    rewrite (bind_eq _ _ _ (now w1) w1).
    + simpl. replace (now w + (now w + timeout - now w) <? now w + timeout) with false by lia.
      rewrite andb_false_r. reflexivity.
    + rewrite (bind_eq _ _ _ false w1); [reflexivity|].
      apply waitForInvariant_times_out; [exact Ho | rewrite Hinv, Hc; reflexivity | lia].
Qed.

(** The tail of [executePut_] returns. *)
Lemma put_finish_returns (item : Item) (w1 : World Item) :
  exists w',
    (modify (set_self (fun q => set_q_ (q_ q ++ [item]) q)) ;;
     n <- size_ ;;
     issueNotifications_ (n - 1) n ;;
     ret true) w1 = Returns true w'.
Proof.
  set (w2 := set_self (fun q => set_q_ (q_ q ++ [item]) q) w1).
  destruct (issueNotifications_returns (q_size (self w2) - 1) (q_size (self w2)) w2)
    as (w' & E).
  exists w'.
  rewrite (bind_eq _ _ _ tt w2) by reflexivity.
  rewrite (bind_eq _ _ _ (q_size (self w2)) w2) by reflexivity.
  rewrite (bind_eq _ _ _ tt w' E). reflexivity.
Qed.

Lemma put_returns item timeout (w : World Item) :
  others w = [] ->
  proceeds (Put item timeout) (self w) = true ->
  exists b w', put item timeout w = Returns b w'.
Proof.
  intros Ho Hp. simpl in Hp. unfold put, executePut_.
  destruct (q_size (self w) <? maxSize_ (self w)) eqn:Efull.
  - destruct (timeout <? 0).
    + rewrite (bind_eq _ _ _ tt w); [|apply while_skip; lia].
      destruct (put_finish_returns item w) as (w' & E). eauto.
    + rewrite (bind_eq _ _ _ (now w) w) by reflexivity.
      rewrite (bind_eq _ _ _ (now w) w); [|apply while_skip; lia].
      rewrite (bind_eq _ _ _ false w); [|unfold field, gets; f_equal; lia].
      destruct (put_finish_returns item w) as (w' & E). eauto.
  - simpl in Hp. apply andb_prop in Hp as [Hp1 Hp2].
    replace (timeout <? 0) with false by lia.
    rewrite (bind_eq _ _ _ (now w) w) by reflexivity.
    destruct (timed_loop_alone (fun q => maxSize_ q <=? q_size q)
                (fun q => q_size q <? maxSize_ q) notFullCv_ timeout w)
      as (l & w1 & E & Hs & _); [intros q; lia | exact Ho | lia | lia |].
    unfold waitUntilNotFull_. rewrite (bind_eq _ _ _ l w1 E).
    rewrite (bind_eq _ _ _ true w1); [|unfold field, gets; f_equal; rewrite Hs; lia].
    eexists. eexists. reflexivity.
Qed.

(** The tail of [get] returns when there is an item. *)
Lemma get_finish_returns {A} (f : Item -> A) (w1 : World Item) :
  q_size (self w1) <> 0 ->
  exists r w',
    (item <- pop_front ;;
     n <- size_ ;;
     issueNotifications_ (n + 1) n ;;
     ret (f item)) w1 = Returns r w'.
Proof.
  intros Hne. destruct (q_ (self w1)) as [|x rest] eqn:Eq.
  - exfalso. apply Hne. unfold q_size. rewrite Eq. reflexivity.
  - set (w2 := set_self (set_q_ rest) w1).
    destruct (issueNotifications_returns (q_size (self w2) + 1) (q_size (self w2)) w2)
      as (w' & E).
    exists (f x), w'.
    rewrite (bind_eq _ _ _ x w2); [|unfold pop_front; rewrite Eq; reflexivity].
    rewrite (bind_eq _ _ _ (q_size (self w2)) w2) by reflexivity.
    rewrite (bind_eq _ _ _ tt w' E). reflexivity.
Qed.

Lemma get_returns (w : World Item) :
  q_size (self w) <> 0 -> exists item w', get w = Returns item w'.
Proof.
  intros Hne. unfold get.
  rewrite (bind_eq _ _ _ tt w); [|apply while_skip; unfold q_empty; lia].
  apply (get_finish_returns (fun i => i)). exact Hne.
Qed.

Lemma get_timeout_returns timeout (w : World Item) :
  others w = [] ->
  proceeds (GetTimeout timeout) (self w) = true ->
  exists r w', get_timeout timeout w = Returns r w'.
Proof.
  intros Ho Hp. simpl in Hp. unfold get_timeout.
  destruct (q_size (self w) =? 0) eqn:Eempty.
  - simpl in Hp. apply andb_prop in Hp as [Hp1 Hp2].
    replace (timeout <? 0) with false by lia.
    rewrite (bind_eq _ _ _ (now w) w) by reflexivity.
    destruct (timed_loop_alone q_empty (fun q => negb (q_empty q)) notEmptyCv_ timeout w)
      as (l & w1 & E & Hs & _); [reflexivity | exact Ho | exact Eempty | lia |].
    unfold waitUntilNotEmpty_. rewrite (bind_eq _ _ _ l w1 E).
    rewrite (bind_eq _ _ _ true w1); [|unfold field, gets; f_equal; rewrite Hs; exact Eempty].
    eexists. eexists. reflexivity.
  - destruct (timeout <? 0).
    + destruct (get_returns w) as (item & w' & E); [lia|].
      rewrite (bind_eq _ _ _ item w' E). eexists. eexists. reflexivity.
    + rewrite (bind_eq _ _ _ (now w) w) by reflexivity.
      rewrite (bind_eq _ _ _ (now w) w); [|apply while_skip; unfold q_empty; rewrite Eempty; reflexivity].
      rewrite (bind_eq _ _ _ false w); [|unfold field, gets; f_equal; exact Eempty].
      apply (get_finish_returns Some). lia.
Qed.

(** On a queue on its own, the calls that can proceed return (no loop of
    the model is cut short). *)
Lemma call_returns (op : Op Item) (w : World Item) :
  others w = [] -> proceeds op (self w) = true -> exists w', call op w = Returns tt w'.
Proof.
  intros Ho Hp. destruct op; simpl call.
  - destruct (put_returns item timeout w Ho Hp) as (b & w' & E).
    rewrite (bind_eq _ _ _ b w' E). eexists. reflexivity.
  - destruct (get_returns w) as (item & w' & E); [simpl in Hp; lia|].
    rewrite (bind_eq _ _ _ item w' E). eexists. reflexivity.
  - destruct (get_timeout_returns timeout w Ho Hp) as (r & w' & E).
    rewrite (bind_eq _ _ _ r w' E). eexists. reflexivity.
  - destruct (issueNotifications_returns (Z.of_nat (length (q_ (self w)))) 0
                (set_self (set_q_ []) w)) as (w' & E).
    exists w'. rewrite (bind_eq _ _ _ (q_ (self w)) w'); [reflexivity|].
    unfold getAll.
    rewrite (bind_eq _ _ _ (q_ (self w)) w) by reflexivity.
    rewrite (bind_eq _ _ _ tt (set_self (set_q_ []) w)) by reflexivity.
    rewrite (bind_eq _ _ _ tt w' E). reflexivity.
  - unfold clear.
    rewrite (bind_eq _ _ _ (q_size (self w)) w) by reflexivity.
    rewrite (bind_eq _ _ _ tt (set_self (set_q_ []) w)) by reflexivity.
    apply issueNotifications_returns.
  - simpl in Hp. unfold setLowWaterMark.
    rewrite (bind_eq _ _ _ (highWaterMark_ (self w)) w) by reflexivity.
    replace (highWaterMark_ (self w) <? value) with false by lia.
    eexists. reflexivity.
  - simpl in Hp. unfold setHighWaterMark.
    rewrite (bind_eq _ _ _ (maxSize_ (self w)) w) by reflexivity.
    rewrite (bind_eq _ _ _ (lowWaterMark_ (self w)) w) by reflexivity.
    replace (maxSize_ (self w) <? value) with false by lia.
    replace (value <? lowWaterMark_ (self w)) with false by lia.
    eexists. reflexivity.
Qed.

End QueueProgress.

(** ** Queue: the toggle and the size *)

Example queue_of_one_ctor : Queue.ctor_maxSize 1 3 = inr queue_of_one.
Proof. reflexivity. Qed.

Example queue_of_two_ctor : Queue.ctor_maxSize 2 3 = inr queue_of_two.
Proof. reflexivity. Qed.

Example queue_10_2_4_ctor : Queue.ctor 10 2 4 3 = inr queue_10_2_4.
Proof. reflexivity. Qed.

Section QueueToggle.
Context {Item : Type}.
Import Queue.

Lemma encodes_size_expected (q : t Item) :
  0 < maxSize_ q ->
  (encodes_size q <-> ReadWriteToggle.state (queueState_ q) = expected_state q).
Proof.
  intros Hmax. unfold encodes_size, expected_state.
  destruct (q_size q =? 0) eqn:E0; [|destruct (q_size q =? maxSize_ q) eqn:E1].
  - split.
    + intros (_ & H & _). apply H. lia.
    + intros ->. repeat split; intros; try discriminate; lia.
  - split.
    + intros (H & _ & _). apply H. lia.
    + intros ->. repeat split; intros; try discriminate; lia.
  - split.
    + intros (_ & _ & H). apply H. lia.
    + intros ->. repeat split; intros; try discriminate; lia.
Qed.

(** A call leaves the toggle in step with the size, unless it takes a full
    queue to empty in one step. *)
Lemma toggle_follows_size (op : Op Item) (w w' : World Item) :
  others w = [] ->
  call op w = Returns tt w' ->
  0 < maxSize_ (self w) ->
  q_size (self w) <= maxSize_ (self w) ->
  encodes_size (self w) ->
  ~ (q_size (self w) = maxSize_ (self w) /\ q_size (self w') = 0) ->
  encodes_size (self w').
Proof.
  intros Ho Hc Hmax Hsz Henc Hnot.
  destruct (call_effect op w w' Ho Hc) as [_ He].
  assert (Hpos : 0 <= q_size (self w)) by (unfold q_size; lia).
  destruct He as [oldSize newSize Hold Hnew Hrel (Hm & _ & _) _ _ Htg | Hs _ | _ Hm Hq Htg _ _].
  - apply encodes_size_expected in Henc; [|exact Hmax].
    apply encodes_size_expected; [lia|].
    rewrite Htg. unfold toggle_after, expected_state in *. rewrite Henc, Hm.
    clear Htg Henc. subst oldSize newSize.
    assert (Hnew : 0 <= q_size (self w')) by (unfold q_size; lia).
    revert Hmax Hsz Hpos Hnot Hrel Hnew.
    generalize (q_size (self w')) (q_size (self w)) (maxSize_ (self w)). clear.
    intros newSize oldSize mx Hmax Hsz Hpos Hnot Hrel Hnew.
    destruct (oldSize =? 0) eqn:E1, (newSize =? 0) eqn:E2,
      (mx <=? oldSize) eqn:E3, (newSize <? mx) eqn:E4,
      (oldSize <? mx) eqn:E5, (mx <=? newSize) eqn:E6,
      (oldSize =? mx) eqn:E7, (newSize =? mx) eqn:E8;
    simpl; try reflexivity; exfalso; lia.
  - rewrite Hs. exact Henc.
  - unfold encodes_size, q_size in *. rewrite Hm, Hq, Htg. exact Henc.
Qed.

End QueueToggle.

(** C1.  [Queue<int> q(1); q.put(7); q.get();] leaves the queue empty with
    its toggle in READ_WRITE, and so does [q.clear()] (and [q.getAll()]) on a
    full [Queue<int> q(2)]: after the rule for the empty queue has set
    WRITE_ONLY, the rule for the queue that is no longer full sets
    READ_WRITE. *)
Theorem toggle_after_full_queue_is_emptied :
  (exists w' : Queue.World Z,
     Queue.calls [Queue.Put 7 (-1); Queue.Get] (Queue.alone queue_of_one 0) = Returns tt w' /\
     Queue.q_size (Queue.self w') = 0 /\
     ReadWriteToggle.state (Queue.queueState_ (Queue.self w')) = ReadWriteToggle.READ_WRITE /\
     ~ Queue.encodes_size (Queue.self w')) /\
  (exists w' : Queue.World Z,
     Queue.calls [Queue.Put 7 (-1); Queue.Put 8 (-1); Queue.Clear] (Queue.alone queue_of_two 0)
       = Returns tt w' /\
     Queue.q_size (Queue.self w') = 0 /\
     ReadWriteToggle.state (Queue.queueState_ (Queue.self w')) = ReadWriteToggle.READ_WRITE /\
     ~ Queue.encodes_size (Queue.self w')) /\
  (exists w' : Queue.World Z,
     Queue.calls [Queue.Put 7 (-1); Queue.Put 8 (-1); Queue.GetAll] (Queue.alone queue_of_two 0)
       = Returns tt w' /\
     Queue.q_size (Queue.self w') = 0 /\
     ReadWriteToggle.state (Queue.queueState_ (Queue.self w')) = ReadWriteToggle.READ_WRITE /\
     ~ Queue.encodes_size (Queue.self w')).
Proof.
  repeat split; eexists; (split; [vm_compute; reflexivity|]);
  (split; [reflexivity|]); (split; [reflexivity|]);
  intros (_ & H & _); simpl in H; destruct H as [_ H];
  specialize (H eq_refl); discriminate.
Qed.

(** ** Queue: a queue without marks of its own *)

Section QueueMarks.
Context {Item : Type}.
Import Queue.

Lemma ctor_fields maxSize lowWaterMark highWaterMark toggle (q : t Item) :
  ctor maxSize lowWaterMark highWaterMark toggle = inr q ->
  maxSize_ q = maxSize /\ lowWaterMark_ q = lowWaterMark /\
  highWaterMark_ q = highWaterMark /\ q_ q = [] /\ highWaterCrossed_ q = false /\
  ReadWriteToggle.state (queueState_ q) = ReadWriteToggle.WRITE_ONLY /\
  lowWaterMark <= highWaterMark <= maxSize.
Proof.
  unfold ctor. intros H.
  destruct (maxSize <? highWaterMark) eqn:E1; [discriminate|].
  destruct (highWaterMark <? lowWaterMark) eqn:E2; [discriminate|].
  injection H as <-. simpl. repeat split; lia.
Qed.

(** While the high-water mark is the maximal size, a call that changes the
    items keeps the size within the maximum and notifies nothing on
    [highWaterMarkCv_]. *)
Lemma effect_without_high_water (op : Op Item) (w w' : World Item) :
  mutation op = true ->
  effect op w w' ->
  highWaterMark_ (self w) = maxSize_ (self w) ->
  q_size (self w) <= maxSize_ (self w) ->
  ~ In highWaterMarkCv_ (notified w) ->
  highWaterMark_ (self w') = maxSize_ (self w') /\
  maxSize_ (self w') = maxSize_ (self w) /\
  q_size (self w') <= maxSize_ (self w') /\
  ~ In highWaterMarkCv_ (notified w').
Proof.
  intros Hmut He Hhw Hsz Hnt.
  assert (Hpos : 0 <= q_size (self w)) by (unfold q_size; lia).
  destruct He as [oldSize newSize Hold Hnew Hrel (Hm & _ & Hh) Hn _ _ | Hs Hn | Hf _ _ _ _ _].
  - rewrite Hm, Hh. repeat split; try lia.
    rewrite Hn, in_app_iff, high_in_events. intros [X|X]; [tauto | lia].
  - rewrite Hs, Hn. auto.
  - congruence.
Qed.

Lemma calls_without_high_water (ops : list (Op Item)) : forall (w w' : World Item),
  forallb mutation ops = true ->
  others w = [] ->
  calls ops w = Returns tt w' ->
  highWaterMark_ (self w) = maxSize_ (self w) ->
  q_size (self w) <= maxSize_ (self w) ->
  ~ In highWaterMarkCv_ (notified w) ->
  others w' = [] /\
  highWaterMark_ (self w') = maxSize_ (self w') /\
  maxSize_ (self w') = maxSize_ (self w) /\
  q_size (self w') <= maxSize_ (self w') /\
  ~ In highWaterMarkCv_ (notified w').
Proof.
  induction ops as [|op ops IH]; intros w w' Hmut Ho H Hhw Hsz Hnt; simpl in *.
  - apply ret_Returns in H as [_ ->]. auto.
  - apply andb_prop in Hmut as [Hm1 Hm2].
    apply bind_Returns in H as ([] & w1 & Hc & H).
    apply call_effect in Hc as [Ho1 He]; [|exact Ho].
    destruct (effect_without_high_water op w w1 Hm1 He Hhw Hsz Hnt) as (H1 & H2 & H3 & H4).
    destruct (IH w1 w' Hm2 Ho1 H H1 H3 H4) as (H5 & H6 & H7 & H8 & H9).
    repeat split; [exact H5 | exact H6 | congruence | exact H8 | exact H9].
Qed.

(** What a call of a queue on its own adds to the log when it takes the
    size to the maximal size, which is also the high-water mark, from
    below: [fullCv_], and not [highWaterMarkCv_]. *)
Lemma filling_call_fires_full (op : Op Item) (w w' : World Item) :
  others w = [] ->
  call op w = Returns tt w' ->
  highWaterMark_ (self w) = maxSize_ (self w) ->
  q_size (self w) < maxSize_ (self w) ->
  q_size (self w') = maxSize_ (self w) ->
  In fullCv_ (fired w w') /\ ~ In highWaterMarkCv_ (fired w w').
Proof.
  intros Ho H Hhw Hlt Heq. destruct (call_effect op w w' Ho H) as [_ He].
  destruct He as [oldSize newSize Hold Hnew _ _ Hn _ _ | Hs Hn | _ _ Hq _ _ Hn].
  - unfold fired. rewrite Hn, drop_app_length. subst oldSize newSize. split.
    + rewrite in_app_iff. left. unfold size_events. rewrite !in_app_iff.
      right. right. right.
      replace (q_size (self w) <? maxSize_ (self w)) with true by lia.
      replace (maxSize_ (self w) <=? q_size (self w')) with true by lia.
      left. reflexivity.
    + rewrite high_in_events. lia.
  - rewrite Hs in Heq. lia.
  - unfold q_size in Heq, Hlt. rewrite Hq in Heq. lia.
Qed.

(** C8, as amended.  A queue constructed with both marks at its maximal
    size never notifies [highWaterMarkCv_], whatever is put into it and
    taken from it: the event needs a size above the high-water mark, and
    the size does not exceed the maximal size.  In particular a further
    call that takes the size from below the maximal size to it notifies
    [fullCv_] and not [highWaterMarkCv_]. *)
Theorem no_high_water_event_without_marks (maxSize toggle time : Z) (q : t Item)
    (ops : list (Op Item)) (w' : World Item) :
  0 <= maxSize ->
  ctor maxSize maxSize maxSize toggle = inr q ->
  forallb mutation ops = true ->
  calls ops (alone q time) = Returns tt w' ->
  ~ In highWaterMarkCv_ (notified w') /\ q_size (self w') <= maxSize /\
  (forall op w'',
     call op w' = Returns tt w'' ->
     q_size (self w') < maxSize ->
     q_size (self w'') = maxSize ->
     In fullCv_ (fired w' w'') /\ ~ In highWaterMarkCv_ (fired w' w'')).
Proof.
  intros Hmax Hctor Hmut Hcalls.
  apply ctor_fields in Hctor as (Hm & _ & Hh & Hq & _).
  destruct (calls_without_high_water ops (alone q time) w' Hmut eq_refl Hcalls)
    as (Ho & Hhw & H1 & H2 & H3); simpl.
  - congruence.
  - unfold q_size. rewrite Hq, Hm. simpl. exact Hmax.
  - intros [].
  - simpl in H1. rewrite Hm in H1. split; [exact H3|]. split; [rewrite <- H1; exact H2|].
    intros op w'' Hop Hlt Heq.
    apply (filling_call_fires_full op w' w'' Ho Hop Hhw); rewrite H1; assumption.
Qed.

End QueueMarks.

(** C8, as stated, fails: [Queue<int> q(1); q.put(7);] takes the size from
    below the maximum to the maximum and notifies [notEmptyCv_] and
    [fullCv_] only. *)
Lemma filling_put_fires_no_high_water :
  ~ high_water_on_filling (Queue.alone queue_of_one 0) (Queue.Put 7 (-1)).
Proof.
  intros H.
  specialize (H _ eq_refl). vm_compute in H.
  destruct H as [_ H]. destruct H as [H|[H|[]]]; [split; reflexivity | discriminate H | discriminate H].
Qed.

Lemma no_high_water_event_without_marks_witness :
  exists w' : Queue.World Z,
    Queue.calls [Queue.Put 7 (-1); Queue.Get] (Queue.alone queue_of_one 0) = Returns tt w' /\
    ~ In Queue.highWaterMarkCv_ (Queue.notified w') /\
    Queue.q_size (Queue.self w') <= 1 /\
    (forall op w'',
       Queue.call op w' = Returns tt w'' ->
       Queue.q_size (Queue.self w') < 1 ->
       Queue.q_size (Queue.self w'') = 1 ->
       In Queue.fullCv_ (fired w' w'') /\ ~ In Queue.highWaterMarkCv_ (fired w' w'')).
Proof.
  eexists. split; [vm_compute; reflexivity|].
  apply (no_high_water_event_without_marks 1 3 0 queue_of_one
           [Queue.Put 7 (-1); Queue.Get]).
  - lia.
  - reflexivity.
  - reflexivity.
  - vm_compute. reflexivity.
Defined.

(** ** Queue: the timeout of the watermark waits *)

(** C2.  [q.wait(100, HIGH_WATER_MARK)] on a queue above its low-water
    mark with the latch set: another thread takes an item 60 ms into the
    call, which fires the low-water event; nothing follows.  The second
    wait is entered with the timeout of 100 ms again ([timeLeft] is
    computed and not used), and the call returns false 160 ms after it was
    made.  In [q.wait(100, LOW_WATER_MARK)], with the high-water event
    80 ms into the call, [timeLeft] is the time that has passed, 80 ms, and
    that call too returns after 160 ms. *)
Theorem watermark_wait_exceeds_timeout :
  (exists w' : Queue.World Z,
     Queue.wait 100 Queue.HIGH_WATER_MARK
       (Queue.mkWorld above_low_water 0 [Queue.mkArrival 60 at_low_water] [] [])
       = Returns false w' /\
     Queue.waited w' = [(Queue.lowWaterMarkCv_, 100); (Queue.highWaterMarkCv_, 100)] /\
     Queue.now w' = 160) /\
  (exists w' : Queue.World Z,
     Queue.wait 100 Queue.LOW_WATER_MARK
       (Queue.mkWorld below_high_water 0 [Queue.mkArrival 80 past_high_water] [] [])
       = Returns false w' /\
     Queue.waited w' = [(Queue.highWaterMarkCv_, 100); (Queue.lowWaterMarkCv_, 80)] /\
     Queue.now w' = 160).
Proof.
  split; eexists; (split; [vm_compute; reflexivity|]); split; reflexivity.
Qed.

(** ** Queue: moves *)

Section QueueMoves.
Context {Item : Type}.
Import Queue.

(** What the move constructor does, whatever is moved: the toggle of the
    new queue is the default-constructed one, in READ_WRITE. *)
Lemma move_ctor_spec (other : t Item) (toggle : Z) :
  let '(new, source) := move_ctor other toggle in
  q_ new = q_ other /\
  highWaterCrossed_ new = highWaterCrossed_ other /\
  ReadWriteToggle.state (queueState_ new) = ReadWriteToggle.READ_WRITE /\
  q_ source = [] /\
  highWaterCrossed_ source = false /\
  ReadWriteToggle.state (queueState_ source) = ReadWriteToggle.WRITE_ONLY.
Proof.
  unfold move_ctor. simpl. rewrite setState_state. repeat split.
Qed.

(** Move assignment does set the toggle of the destination by the size
    (for a source whose size is within its maximum). *)
Lemma move_assign_body_spec (self other : t Item) :
  q_size other <= maxSize_ other ->
  let '(new, source) := move_assign_body self other in
  q_ new = q_ other /\
  highWaterCrossed_ new = highWaterCrossed_ other /\
  ReadWriteToggle.state (queueState_ new) = expected_state new /\
  q_ source = [] /\
  highWaterCrossed_ source = false /\
  ReadWriteToggle.state (queueState_ source) = ReadWriteToggle.WRITE_ONLY.
Proof.
  intros Hsz. unfold move_assign_body, expected_state, q_size in *. simpl.
  rewrite !setState_state.
  repeat split.
  destruct (Z.of_nat (length (q_ other)) =? 0) eqn:E0; [reflexivity|].
  destruct (Z.of_nat (length (q_ other)) <? maxSize_ other) eqn:E1,
    (Z.of_nat (length (q_ other)) =? maxSize_ other) eqn:E2; try reflexivity; lia.
Qed.

End QueueMoves.

(** C3.  [Queue<int> q(10, 2, 4); Queue<int> copy(std::move(q));] the
    moved-from queue is as stated, but the toggle of [copy], which holds
    no items, is in READ_WRITE: the move constructor leaves the toggle of
    the new queue as it is constructed.  Move assignment of the same queue
    gives WRITE_ONLY. *)
Theorem move_constructed_toggle_ignores_size :
  Queue.q_size (fst (Queue.move_ctor queue_10_2_4 4)) = 0 /\
  ReadWriteToggle.state (Queue.queueState_ (fst (Queue.move_ctor queue_10_2_4 4)))
    = ReadWriteToggle.READ_WRITE /\
  ~ Queue.encodes_size (fst (Queue.move_ctor queue_10_2_4 4)) /\
  ReadWriteToggle.state
    (Queue.queueState_
       (fst (Queue.move_assign_body
               (Queue.mk 5 5 5 [] (ReadWriteToggle.make 4) false) queue_10_2_4)))
    = ReadWriteToggle.WRITE_ONLY.
Proof.
  split; [reflexivity|]. split; [reflexivity|]. split; [|reflexivity].
  intros (_ & H & _). simpl in H. destruct H as [_ H].
  specialize (H eq_refl). discriminate.
Qed.

(** ** Guards *)

(** C9.  Move construction of a Queue::Guard from an active guard gives a
    guard that is active and whose [fd()] is -1, and leaves the source
    inactive; move construction of a Condition::Guard gives a guard with
    the descriptor of the source. *)
Theorem queue_guard_move_loses_fd (g : Queue.Guard) (cg : Condition.Guard) :
  Queue.Guard_active g = true ->
  Queue.Guard_active (fst (Queue.Guard_move_ctor g)) = true /\
  Queue.Guard_fd (fst (Queue.Guard_move_ctor g)) = -1 /\
  Queue.Guard_active (snd (Queue.Guard_move_ctor g)) = false /\
  Condition.Guard_fd (fst (Condition.Guard_move_ctor cg)) = Condition.Guard_fd cg /\
  Condition.Guard_active (fst (Condition.Guard_move_ctor cg)) = Condition.Guard_active cg.
Proof.
  intros H. destruct g as [q e f], cg as [c f']. simpl in *. auto.
Qed.

Lemma queue_guard_move_loses_fd_witness :
  Queue.Guard_active (fst (Queue.Guard_move_ctor (Queue.mkGuard (Some 1) Queue.HIGH_WATER_MARK 7)))
    = true /\
  Queue.Guard_fd (fst (Queue.Guard_move_ctor (Queue.mkGuard (Some 1) Queue.HIGH_WATER_MARK 7)))
    = -1 /\
  Queue.Guard_active (snd (Queue.Guard_move_ctor (Queue.mkGuard (Some 1) Queue.HIGH_WATER_MARK 7)))
    = false /\
  Condition.Guard_fd (fst (Condition.Guard_move_ctor (Condition.mkGuard (Some 1) 7))) = 7 /\
  Condition.Guard_active (fst (Condition.Guard_move_ctor (Condition.mkGuard (Some 1) 7))) = true.
Proof.
  apply (queue_guard_move_loses_fd (Queue.mkGuard (Some 1) Queue.HIGH_WATER_MARK 7)
           (Condition.mkGuard (Some 1) 7)).
  reflexivity.
Defined.

(** * Further properties of the components *)

(** ** Event types, epoll flags and names *)

Lemma land_low (c m t : Z) : Z.land c m = c -> Z.land c t = Z.land c (Z.land t m).
Proof. intros H. rewrite (Z.land_comm t m), Z.land_assoc, H. reflexivity. Qed.

Lemma land_low_l (c m t : Z) : Z.land c m = c -> Z.land t c = Z.land (Z.land t m) c.
Proof. intros H. rewrite <- Z.land_assoc, (Z.land_comm m c), H. reflexivity. Qed.

Lemma land_ones_range (t n : Z) : 0 <= n -> 0 <= Z.land t (Z.ones n) < 2 ^ n.
Proof. intros Hn. rewrite Z.land_ones by exact Hn. apply Z.mod_pos_bound. lia. Qed.

(** Either the bit [k] of [t] is set or it is not. *)
Lemma land_pow2 (t k : Z) : 0 <= k -> Z.land t (2 ^ k) = 0 \/ Z.land t (2 ^ k) = 2 ^ k.
Proof.
  intros Hk. destruct (Z.testbit t k) eqn:E; [right | left]; apply Z.bits_inj'; intros n Hn;
    rewrite Z.land_spec, Z.pow2_bits_eqb by exact Hk.
  - destruct (Z.eqb_spec k n) as [->|]; [rewrite E; reflexivity | apply andb_false_r].
  - rewrite Z.bits_0. destruct (Z.eqb_spec k n) as [->|]; [rewrite E; reflexivity | apply andb_false_r].
Qed.

(** A property of the numbers below [n], checked one by one. *)
Lemma below_forallb (P : Z -> bool) (n : nat) :
  forallb P (map Z.of_nat (seq 0 n)) = true ->
  forall r, 0 <= r < Z.of_nat n -> P r = true.
Proof.
  intros H r Hr. rewrite forallb_forall in H. apply H.
  apply in_map_iff. exists (Z.to_nat r). split; [lia|]. apply in_seq. lia.
Qed.

(** Only the six event bits of an event type matter to [epollFlags]. *)
Lemma epollFlags_low (t : Z) : EpollSet.epollFlags t = EpollSet.epollFlags (Z.land t 63).
Proof.
  unfold EpollSet.epollFlags, EpollSet.EVENT_FLAG_MAP. cbn [fold_left fst snd].
  rewrite (land_low EpollSet.READ 63 t), (land_low EpollSet.WRITE 63 t),
    (land_low EpollSet.READ_HANGUP 63 t), (land_low EpollSet.HANGUP 63 t),
    (land_low EpollSet.PRIORITY 63 t), (land_low EpollSet.ERROR 63 t) by reflexivity.
  reflexivity.
Qed.

Lemma registered_events_translate_back (events : Z) (trigger : EpollSet.EpollTrigger)
    (repeat : EpollSet.EpollRepeat) :
  EpollSet.translateEpollEventFlags
    (Z.lor (Z.lor (EpollSet.epollFlags events) (EpollSet.epollFlags_trigger trigger))
           (EpollSet.epollFlags_repeat repeat)) = Z.land events 63.
Proof.
  rewrite epollFlags_low.
  pose proof (land_ones_range events 6 ltac:(lia)) as Hr.
  change (Z.ones 6) with 63 in Hr. change (2 ^ 6) with (Z.of_nat 64) in Hr.
  revert Hr. generalize (Z.land events 63). intros r Hr.
  apply Z.eqb_eq. revert r Hr.
  match goal with
  | |- forall r : Z, _ -> @?P r = true => apply (below_forallb P)
  end.
  destruct trigger, repeat; vm_compute; reflexivity.
Qed.

Lemma reported_flags_translate_forth (flags : Z) :
  EpollSet.epollFlags (EpollSet.translateEpollEventFlags flags) = Z.land flags kernel_event_bits.
Proof.
  change kernel_event_bits with (Z.lor (Z.ones 5) Kernel.EPOLLRDHUP).
  rewrite Z.land_lor_distr_r.
  unfold EpollSet.translateEpollEventFlags, EpollSet.EVENT_FLAG_MAP. cbn [fold_left fst snd].
  rewrite (land_low_l Kernel.EPOLLIN (Z.ones 5) flags),
    (land_low_l Kernel.EPOLLOUT (Z.ones 5) flags),
    (land_low_l Kernel.EPOLLHUP (Z.ones 5) flags),
    (land_low_l Kernel.EPOLLPRI (Z.ones 5) flags),
    (land_low_l Kernel.EPOLLERR (Z.ones 5) flags) by reflexivity.
  pose proof (land_ones_range flags 5 ltac:(lia)) as Hr.
  change (2 ^ 5) with (Z.of_nat 32) in Hr.
  revert Hr. generalize (Z.land flags (Z.ones 5)). intros r Hr.
  change Kernel.EPOLLRDHUP with (2 ^ 13).
  destruct (land_pow2 flags 13 ltac:(lia)) as [-> | ->];
    apply Z.eqb_eq; revert r Hr;
    match goal with
    | |- forall r : Z, _ -> @?P r = true => apply (below_forallb P)
    end; vm_compute; reflexivity.
Qed.

(** X1.  The [struct epoll_event] that a registration builds carries the
    descriptor, and the flags in it translate back to the six event bits of
    the requested event types, whatever the trigger and the repeat mode
    are.  Conversely, of the flags that the kernel reports, those of the six
    events survive the translation to event types and back, and no other
    (EPOLLET and EPOLLONESHOT, for instance, are dropped). *)
Theorem event_flags_round_trip (fd events flags : Z) (trigger : EpollSet.EpollTrigger)
    (repeat : EpollSet.EpollRepeat) :
  fst (EpollSet.createEpollEvent fd events trigger repeat) = fd /\
  EpollSet.translateEpollEventFlags (snd (EpollSet.createEpollEvent fd events trigger repeat))
    = Z.land events 63 /\
  EpollSet.epollFlags (EpollSet.translateEpollEventFlags flags) = Z.land flags kernel_event_bits.
Proof.
  split; [reflexivity|]. split.
  - apply registered_events_translate_back.
  - apply reported_flags_translate_forth.
Qed.

Lemma string_app_cons ch (a b : string) : String ch a +:+ b = String ch (a +:+ b).
Proof. reflexivity. Qed.

Lemma string_app_assoc (a b c : string) : (a +:+ b) +:+ c = a +:+ (b +:+ c).
Proof.
  induction a as [|ch a IH]; [reflexivity|].
  rewrite !string_app_cons, IH. reflexivity.
Qed.

(** The loop of [operator<<]: the names of the selected entries are
    written with a bar before each but the first name of the output. *)
Lemma print_loop (events : Z) (l : list (Z * string)) : forall (out : string) (cnt : Z),
  0 <= cnt ->
  fst (fold_left (EpollEventType.print_step events) l (out, cnt)) =
    match map snd (List.filter (selected events) l) with
    | [] => out
    | names => (if cnt =? 0 then out else out +:+ "|") +:+ String.concat "|" names
    end.
Proof.
  induction l as [|event l IH]; intros out cnt Hcnt; [reflexivity|].
  cbn [fold_left List.filter]. unfold EpollEventType.print_step at 2.
  unfold EpollEventType.and_, EpollSet.NONE.
  fold (selected events event). destruct (selected events event) eqn:E.
  - rewrite IH by lia. cbn [map].
    replace (cnt + 1 =? 0) with false by lia.
    destruct (map snd (List.filter (selected events) l)) as [|name names] eqn:En.
    + cbn [String.concat]. destruct (cnt =? 0); reflexivity.
    + cbn [String.concat]. destruct (cnt =? 0); cbn [negb];
        rewrite ?string_app_assoc; reflexivity.
  - apply IH. exact Hcnt.
Qed.

(** X2.  [operator<<] writes NONE for the value 0, and for every other
    value the names of the event types in it, in the order READ, WRITE,
    READ_HANGUP, HANGUP, PRIORITY, ERROR, separated by bars, with no bar
    before the first or after the last; a value that is not 0 and has none
    of the six bits is written as nothing. *)
Theorem print_joins_names (events : Z) :
  EpollEventType.print events =
    (if events =? 0 then "NONE"
     else String.concat "|"
            (map snd (List.filter (selected events) EpollEventType.eventToNameMap))) /\
  (events <> 0 -> Z.land events 63 = 0 -> EpollEventType.print events = "").
Proof.
  assert (H : EpollEventType.print events =
    (if events =? 0 then "NONE"
     else String.concat "|"
            (map snd (List.filter (selected events) EpollEventType.eventToNameMap)))).
  { unfold EpollEventType.print, EpollSet.NONE. destruct (events =? 0); [reflexivity|].
    rewrite print_loop by lia.
    destruct (map snd (List.filter (selected events) EpollEventType.eventToNameMap)); reflexivity. }
  split; [exact H|].
  intros Hne Hlow. rewrite H. replace (events =? 0) with false by lia.
  unfold EpollEventType.eventToNameMap, selected. cbn [List.filter fst].
  rewrite (land_low_l EpollSet.READ 63 events), (land_low_l EpollSet.WRITE 63 events),
    (land_low_l EpollSet.READ_HANGUP 63 events), (land_low_l EpollSet.HANGUP 63 events),
    (land_low_l EpollSet.PRIORITY 63 events), (land_low_l EpollSet.ERROR 63 events)
    by reflexivity.
  rewrite Hlow. reflexivity.
Qed.

Lemma print_joins_names_witness :
  EpollEventType.print 3 = "READ|WRITE" /\ EpollEventType.print 64 = "".
Proof.
  split.
  - rewrite (proj1 (print_joins_names 3)). reflexivity.
  - apply (proj2 (print_joins_names 64)); [lia | reflexivity].
Defined.

(** ** EpollSet: registrations *)

Lemma epoll_ctl_del_spec (epfd fd events : Z) (k : Kernel.t) i f m :
  Kernel.files k !! epfd = Some (Kernel.Epoll i) ->
  Kernel.files k !! fd = Some f ->
  fd <> epfd ->
  i !! fd = Some m ->
  Kernel.epoll_ctl epfd Kernel.EPOLL_CTL_DEL fd events k =
    Returns 0 (Kernel.set_files (<[epfd := Kernel.Epoll (delete fd i)]> (Kernel.files k)) k).
Proof.
  intros He Hf Hne Hi. unfold Kernel.epoll_ctl. rewrite He, Hf.
  replace (fd =? epfd) with false by lia.
  replace (Kernel.EPOLL_CTL_DEL =? Kernel.EPOLL_CTL_ADD) with false by reflexivity.
  replace (Kernel.EPOLL_CTL_DEL =? Kernel.EPOLL_CTL_MOD) with false by reflexivity.
  replace (Kernel.EPOLL_CTL_DEL =? Kernel.EPOLL_CTL_DEL) with true by reflexivity.
  rewrite Hi. reflexivity.
Qed.

(** X3.  On a set that watches an open descriptor already, [add] of that
    descriptor throws ItemExistsError; on a set that does not watch it,
    [remove] and [modify] throw NoSuchItem.  In each case the set, its
    [numTargets()] included, and the descriptors of the process are as
    before (errno apart). *)
Theorem registration_errors_change_nothing (fd events : Z) (trigger : EpollSet.EpollTrigger)
    (repeat : EpollSet.EpollRepeat) (k : Kernel.t) (s : EpollSet.t) i f :
  Kernel.files k !! EpollSet.fd_ s = Some (Kernel.Epoll i) ->
  Kernel.files k !! fd = Some f ->
  fd <> EpollSet.fd_ s ->
  (i !! fd <> None ->
   EpollSet.add fd events trigger repeat (k, s)
     = Throws ItemExistsError (Kernel.set_errno Kernel.EEXIST k, s)) /\
  (i !! fd = None ->
   EpollSet.remove fd (k, s) = Throws NoSuchItem (Kernel.set_errno Kernel.ENOENT k, s) /\
   EpollSet.modify fd events trigger repeat (k, s)
     = Throws NoSuchItem (Kernel.set_errno Kernel.ENOENT k, s)).
Proof.
  intros He Hf Hne. split.
  - intros Hi. destruct (i !! fd) as [m|] eqn:Em; [clear Hi | congruence].
    unfold EpollSet.add.
    erewrite bind_eq by reflexivity.
    erewrite bind_throws; [reflexivity|].
    apply sys_throws. unfold EpollSet.addEvent_.
    erewrite bind_eq; cycle 1.
    { unfold Kernel.epoll_ctl. rewrite He, Hf.
      replace (fd =? EpollSet.fd_ s) with false by lia.
      replace (Kernel.EPOLL_CTL_ADD =? Kernel.EPOLL_CTL_ADD) with true by reflexivity.
      rewrite Em. reflexivity. }
    reflexivity.
  - intros Hi.
    assert (Hctl : forall op ev, op = Kernel.EPOLL_CTL_DEL \/ op = Kernel.EPOLL_CTL_MOD ->
              Kernel.epoll_ctl (EpollSet.fd_ s) op fd ev k
              = Returns (-1) (Kernel.set_errno Kernel.ENOENT k)).
    { intros op ev Hop. unfold Kernel.epoll_ctl. rewrite He, Hf.
      replace (fd =? EpollSet.fd_ s) with false by lia. rewrite Hi.
      destruct Hop as [-> | ->]; reflexivity. }
    split.
    + unfold EpollSet.remove.
      erewrite bind_eq by reflexivity.
      erewrite bind_eq by (apply sys_eq, Hctl; auto).
      reflexivity.
    + unfold EpollSet.modify.
      erewrite bind_eq by reflexivity.
      erewrite bind_eq by (apply sys_eq, Hctl; auto).
      reflexivity.
Qed.

Lemma registration_errors_change_nothing_witness :
  (exists st,
     EpollSet.add 0 EpollSet.READ EpollSet.LEVEL EpollSet.REPEATING with_epoll_set
       = Returns tt st /\
     EpollSet.add 0 EpollSet.WRITE EpollSet.EDGE EpollSet.REPEATING st
       = Throws ItemExistsError (Kernel.set_errno Kernel.EEXIST (fst st), snd st)) /\
  EpollSet.remove 0 with_epoll_set
    = Throws NoSuchItem (Kernel.set_errno Kernel.ENOENT (fst with_epoll_set), snd with_epoll_set) /\
  EpollSet.modify 0 EpollSet.READ EpollSet.LEVEL EpollSet.REPEATING with_epoll_set
    = Throws NoSuchItem (Kernel.set_errno Kernel.ENOENT (fst with_epoll_set), snd with_epoll_set).
Proof.
  split.
  - eexists. split; [vm_compute; reflexivity|].
    apply (registration_errors_change_nothing 0 EpollSet.WRITE EpollSet.EDGE EpollSet.REPEATING
             _ _ {[0 := 1]} (Kernel.EventFd 0 false)).
    + vm_compute. reflexivity.
    + vm_compute. reflexivity.
    + vm_compute. lia.
    + vm_compute. discriminate.
  - apply (registration_errors_change_nothing 0 EpollSet.READ EpollSet.LEVEL EpollSet.REPEATING
             (fst with_epoll_set) (snd with_epoll_set) ∅ (Kernel.EventFd 0 false)).
    + vm_compute. reflexivity.
    + vm_compute. reflexivity.
    + vm_compute. lia.
    + reflexivity.
Defined.

(** X4.  [add] of an open descriptor that the set does not watch,
    followed by [remove] of it, returns and leaves the set and the kernel
    exactly as they were: the interest list and [numTargets()] are
    restored. *)
Theorem add_then_remove_restores (fd events : Z) (trigger : EpollSet.EpollTrigger)
    (repeat : EpollSet.EpollRepeat) (k : Kernel.t) (s : EpollSet.t) i f :
  Kernel.files k !! EpollSet.fd_ s = Some (Kernel.Epoll i) ->
  Kernel.files k !! fd = Some f ->
  fd <> EpollSet.fd_ s ->
  i !! fd = None ->
  0 <= EpollSet.numFds_ s < uint32_modulus ->
  (EpollSet.add fd events trigger repeat ;; EpollSet.remove fd) (k, s) = Returns tt (k, s).
Proof.
  intros He Hf Hne Hi Hn.
  set (ev := snd (EpollSet.createEpollEvent fd events trigger repeat)).
  set (k1 := Kernel.set_files
               (<[EpollSet.fd_ s := Kernel.Epoll (<[fd := ev]> i)]> (Kernel.files k)) k).
  set (s1 := EpollSet.set_numFds_ ((EpollSet.numFds_ s + 1) mod uint32_modulus) s).
  rewrite (bind_eq _ _ _ tt (k1, s1)); cycle 1.
  { unfold EpollSet.add.
    erewrite bind_eq by reflexivity.
    erewrite bind_eq; cycle 1.
    { apply sys_eq. unfold EpollSet.addEvent_.
      erewrite bind_eq by (eapply epoll_ctl_add_spec; eassumption).
      reflexivity. }
    reflexivity. }
  unfold EpollSet.remove.
  erewrite bind_eq by reflexivity.
  erewrite bind_eq; cycle 1.
  { apply sys_eq. eapply epoll_ctl_del_spec with (f := f) (m := ev).
    - simpl. apply lookup_insert_eq.
    - simpl. rewrite lookup_insert_ne by auto. exact Hf.
    - exact Hne.
    - apply lookup_insert_eq. }
  cbv beta iota. replace (0 <=? 0) with true by reflexivity.
  rewrite update_eq. f_equal. f_equal.
  - unfold k1, Kernel.set_files. simpl.
    rewrite insert_insert_eq, delete_insert_eq, delete_id by exact Hi.
    rewrite insert_id by exact He. destruct k; reflexivity.
  - unfold s1. destruct s as [oe efd n evs]. unfold EpollSet.set_numFds_. simpl in *.
    f_equal. rewrite Zminus_mod_idemp_l. replace (n + 1 - 1) with n by lia.
    apply Z.mod_small. exact Hn.
Qed.

Lemma add_then_remove_restores_witness :
  (EpollSet.add 0 EpollSet.READ EpollSet.LEVEL EpollSet.REPEATING ;; EpollSet.remove 0)
    with_epoll_set = Returns tt with_epoll_set.
Proof.
  apply (add_then_remove_restores 0 EpollSet.READ EpollSet.LEVEL EpollSet.REPEATING
           (fst with_epoll_set) (snd with_epoll_set) ∅ (Kernel.EventFd 0 false)).
  - vm_compute. reflexivity.
  - vm_compute. reflexivity.
  - vm_compute. lia.
  - reflexivity.
  - vm_compute. split; [discriminate | reflexivity].
Defined.

(** X5.  [wait(timeout)] with the default [maxEvents] of 0 on a set whose
    [numTargets()] is 0, a newly constructed one for instance, throws
    SystemError with EINVAL whatever the timeout: the call asks
    [epoll_wait] for at most [numFds_] events, and the kernel rejects a
    maximum of 0. *)
Theorem wait_without_targets_throws (timeout : Z) (k : Kernel.t) (s : EpollSet.t) i :
  Kernel.files k !! EpollSet.fd_ s = Some (Kernel.Epoll i) ->
  EpollSet.numTargets s = 0 ->
  EpollSet.wait timeout 0 (k, s) =
    Throws (SystemError Kernel.EINVAL) (Kernel.set_errno Kernel.EINVAL k, s).
Proof.
  intros He Hn. unfold EpollSet.numTargets in Hn. unfold EpollSet.wait.
  erewrite bind_eq by reflexivity. rewrite Hn. cbn [negb Z.eqb].
  erewrite bind_throws; [reflexivity|].
  unfold spin. erewrite bind_throws; [reflexivity|].
  unfold EpollSet.wait_round.
  erewrite bind_eq by reflexivity.
  erewrite bind_eq; cycle 1.
  { apply sys_eq. unfold Kernel.epoll_wait. rewrite He. reflexivity. }
  reflexivity.
Qed.

Lemma wait_without_targets_throws_witness :
  EpollSet.wait 100 0 with_epoll_set =
    Throws (SystemError Kernel.EINVAL)
           (Kernel.set_errno Kernel.EINVAL (fst with_epoll_set), snd with_epoll_set).
Proof.
  apply (wait_without_targets_throws 100 (fst with_epoll_set) (snd with_epoll_set) ∅).
  - vm_compute. reflexivity.
  - reflexivity.
Defined.

(** X6.  From the constructor on, through any calls of [add], [modify]
    and [remove] that return (the calls that throw end the sequence),
    [numTargets()] is the number of descriptors that the kernel has
    registered in the set, as a [uint32_t]. *)
Theorem numTargets_counts_registrations (onExec : OnExecMode) (k k0 : Kernel.t)
    (s : EpollSet.t) (ops : list EpollSet.Op) (st : Kernel.t * EpollSet.t) :
  EpollSet.ctor onExec k = Returns s k0 ->
  forallb (fun op => negb (is_Clear op)) ops = true ->
  EpollSet.calls ops (k0, s) = Returns tt st ->
  EpollSet.numTargets (snd st) = EpollSet.registered st mod uint32_modulus.
Proof.
  intros Hctor Hops Hcalls.
  apply (numTargets_without_clear ops (k0, s) st Hops); [|exact Hcalls].
  unfold EpollSet.ctor in Hctor.
  apply bind_Returns in Hctor as (fd & k1 & Hfd & Hret).
  injection Hret as <- <-.
  unfold EpollSet.createEpollFd in Hfd.
  apply bind_Returns in Hfd as (fd' & k2 & Hopen & Hfd).
  destruct (fd' <? 0) eqn:Eneg; [apply bind_Returns in Hfd as (e & k3 & _ & Hfd); discriminate|].
  injection Hfd as <- <-.
  unfold Kernel.epoll_create1, Kernel.open_file in Hopen.
  destruct (Kernel.lowest_free (Kernel.files k) <? Kernel.nofile k) eqn:E.
  - injection Hopen as <- <-. exists ∅. simpl. rewrite lookup_insert_eq. split; reflexivity.
  - unfold Kernel.fail in Hopen. injection Hopen as <- <-. discriminate Eneg.
Qed.

Lemma numTargets_counts_registrations_witness :
  exists st,
    EpollSet.calls [EpollSet.Add 0 EpollSet.READ EpollSet.LEVEL EpollSet.REPEATING;
                    EpollSet.Modify 0 EpollSet.WRITE EpollSet.EDGE EpollSet.ONE_SHOT;
                    EpollSet.Remove 0] with_epoll_set = Returns tt st /\
    EpollSet.numTargets (snd st) = EpollSet.registered st mod uint32_modulus.
Proof.
  eexists. split; [vm_compute; reflexivity|].
  apply (numTargets_counts_registrations CLOSE
           (Kernel.mk (<[0 := Kernel.EventFd 0 false]> ∅) 1024 0) (fst with_epoll_set)
           (snd with_epoll_set)
           [EpollSet.Add 0 EpollSet.READ EpollSet.LEVEL EpollSet.REPEATING;
            EpollSet.Modify 0 EpollSet.WRITE EpollSet.EDGE EpollSet.ONE_SHOT;
            EpollSet.Remove 0]).
  - vm_compute. reflexivity.
  - reflexivity.
  - vm_compute. reflexivity.
Defined.

(** X7.  The constructor [EpollSet(fd, events, ...)] for a descriptor that
    is not open (with a descriptor free for the epoll instance) throws
    SystemError, with EBADF, or with EINVAL when [fd] is the number that the
    new epoll instance got, and the epoll instance that it has created
    stays open: the registration fails in the body of the constructor,
    after [fd_] was initialised, and no destructor runs. *)
Theorem ctor_fd_failure_leaves_epoll_open (fd events : Z) (trigger : EpollSet.EpollTrigger)
    (repeat : EpollSet.EpollRepeat) (onExec : OnExecMode) (k : Kernel.t) :
  Kernel.files k !! fd = None ->
  Kernel.lowest_free (Kernel.files k) < Kernel.nofile k ->
  exists e k',
    EpollSet.ctor_fd fd events trigger repeat onExec k = Throws (SystemError e) k' /\
    e = (if fd =? Kernel.lowest_free (Kernel.files k) then Kernel.EINVAL else Kernel.EBADF) /\
    Kernel.files k' = <[Kernel.lowest_free (Kernel.files k) := Kernel.Epoll ∅]> (Kernel.files k).
Proof.
  intros Hf Hfree.
  set (fd2 := Kernel.lowest_free (Kernel.files k)) in *.
  set (k1 := Kernel.set_files (<[fd2 := Kernel.Epoll ∅]> (Kernel.files k)) k).
  assert (Hc : EpollSet.createEpollFd onExec k = Returns fd2 k1).
  { unfold EpollSet.createEpollFd, Kernel.epoll_create1.
    erewrite bind_eq by (apply open_file_spec; exact Hfree). fold fd2.
    replace (fd2 <? 0) with false by (subst fd2; symmetry; apply lowest_free_not_negative).
    reflexivity. }
  unfold EpollSet.ctor_fd. rewrite (bind_eq _ _ _ _ _ Hc).
  destruct (Z.eqb_spec fd fd2) as [->|Hne].
  - exists Kernel.EINVAL, (Kernel.set_errno Kernel.EINVAL k1). split; [|split; reflexivity].
    erewrite bind_throws; [reflexivity|].
    unfold EpollSet.addEvent_.
    erewrite bind_eq; cycle 1.
    { unfold Kernel.epoll_ctl. simpl. rewrite lookup_insert_eq.
      rewrite Z.eqb_refl. reflexivity. }
    reflexivity.
  - exists Kernel.EBADF, (Kernel.set_errno Kernel.EBADF k1). split; [|split; reflexivity].
    erewrite bind_throws; [reflexivity|].
    unfold EpollSet.addEvent_.
    erewrite bind_eq; cycle 1.
    { unfold Kernel.epoll_ctl. simpl. rewrite lookup_insert_eq.
      rewrite lookup_insert_ne by auto. rewrite Hf. reflexivity. }
    reflexivity.
Qed.

Lemma ctor_fd_failure_leaves_epoll_open_witness :
  exists e k',
    EpollSet.ctor_fd 7 EpollSet.READ EpollSet.LEVEL EpollSet.REPEATING CLOSE boot
      = Throws (SystemError e) k' /\
    e = (if 7 =? Kernel.lowest_free (Kernel.files boot) then Kernel.EINVAL else Kernel.EBADF) /\
    Kernel.files k' = <[Kernel.lowest_free (Kernel.files boot) := Kernel.Epoll ∅]> (Kernel.files boot).
Proof.
  apply (ctor_fd_failure_leaves_epoll_open 7 EpollSet.READ EpollSet.LEVEL EpollSet.REPEATING
           CLOSE boot).
  - reflexivity.
  - vm_compute. reflexivity.
Defined.

(** ** Semaphore *)

(** X8.  The constructor of a semaphore, with a descriptor free, returns
    a semaphore on a descriptor that was not open, in semaphore mode
    whatever [onExec] is, whose count is the initial value modulo 2^32:
    [eventfd] takes the initial value as an [unsigned int]. *)
Theorem semaphore_initial_value_is_32_bits (initialValue : Z) (onExec : OnExecMode)
    (k : Kernel.t) :
  Kernel.lowest_free (Kernel.files k) < Kernel.nofile k ->
  exists s k',
    Semaphore.ctor initialValue onExec k = Returns s k' /\
    Kernel.files k !! Semaphore.fd s = None /\
    Kernel.files k' !! Semaphore.fd s
      = Some (Kernel.EventFd (initialValue mod uint32_modulus) true).
Proof.
  intros Hfree.
  exists (Semaphore.mk (Kernel.lowest_free (Kernel.files k))).
  eexists. split; [|split].
  - unfold Semaphore.ctor, Semaphore.createEventFd, Kernel.eventfd, bind.
    rewrite open_file_spec by exact Hfree. rewrite lowest_free_not_negative. reflexivity.
  - apply lowest_free_fresh.
  - simpl. rewrite lookup_insert_eq. destruct onExec; reflexivity.
Qed.

Lemma semaphore_initial_value_is_32_bits_witness :
  exists s k',
    Semaphore.ctor (2 ^ 32 + 3) CLOSE boot = Returns s k' /\
    Kernel.files boot !! Semaphore.fd s = None /\
    Kernel.files k' !! Semaphore.fd s = Some (Kernel.EventFd ((2 ^ 32 + 3) mod uint32_modulus) true).
Proof.
  apply (semaphore_initial_value_is_32_bits (2 ^ 32 + 3) CLOSE boot).
  vm_compute. reflexivity.
Defined.

Lemma Semaphore_up_v_spec (s : Semaphore.t) (v : Z) (k : Kernel.t) n sem :
  Kernel.files k !! Semaphore.fd s = Some (Kernel.EventFd n sem) ->
  v <> uint64_max ->
  n + v <= uint64_max - 1 ->
  Semaphore.up s v k =
    Returns tt (Kernel.set_files (<[Semaphore.fd s := Kernel.EventFd (n + v) sem]> (Kernel.files k)) k).
Proof.
  intros H Hv Hn. unfold Semaphore.up, spin, Semaphore.write_, Kernel.write, bind.
  unfold Semaphore.fd in H. rewrite H.
  replace (v =? uint64_max) with false by lia.
  replace (n + v <=? uint64_max - 1) with true by lia. reflexivity.
Qed.

(** X9.  [up(v)] followed by [down()] on a semaphore with count [n]
    (and room for [v] more) returns and leaves the count at [n + v - 1]:
    [down] takes one unit whatever was added.  For [v = 1] the kernel is
    exactly as it was. *)
Theorem up_then_down_takes_one (s : Semaphore.t) (v : Z) (k : Kernel.t) (n : Z) :
  Kernel.files k !! Semaphore.fd s = Some (Kernel.EventFd n true) ->
  0 <= n -> 0 < v -> n + v <= uint64_max - 1 ->
  (Semaphore.up s v ;; Semaphore.down s) k =
    Returns tt (Kernel.set_files
                  (<[Semaphore.fd s := Kernel.EventFd (n + v - 1) true]> (Kernel.files k)) k) /\
  (v = 1 -> (Semaphore.up s v ;; Semaphore.down s) k = Returns tt k).
Proof.
  intros Hs Hn Hv Hmax.
  assert (E : (Semaphore.up s v ;; Semaphore.down s) k =
    Returns tt (Kernel.set_files
                  (<[Semaphore.fd s := Kernel.EventFd (n + v - 1) true]> (Kernel.files k)) k)).
  { erewrite bind_eq by (apply Semaphore_up_v_spec; [exact Hs | unfold uint64_max in *; lia | exact Hmax]).
    erewrite Semaphore_down_spec by (simpl; apply lookup_insert_eq).
    replace (n + v =? 0) with false by lia.
    unfold Kernel.set_files. simpl. rewrite insert_insert_eq. reflexivity. }
  split; [exact E|].
  intros ->. rewrite E. f_equal.
  replace (n + 1 - 1) with n by lia.
  rewrite insert_id by exact Hs. destruct k; reflexivity.
Qed.

Lemma up_then_down_takes_one_witness :
  (Semaphore.up (Semaphore.mk 0) 3 ;; Semaphore.down (Semaphore.mk 0)) (fst signalled_observer) =
    Returns tt (Kernel.set_files
                  (<[0 := Kernel.EventFd (1 + 3 - 1) true]> (Kernel.files (fst signalled_observer)))
                  (fst signalled_observer)) /\
  (3 = 1 -> (Semaphore.up (Semaphore.mk 0) 3 ;; Semaphore.down (Semaphore.mk 0))
              (fst signalled_observer) = Returns tt (fst signalled_observer)).
Proof.
  apply (up_then_down_takes_one (Semaphore.mk 0) 3 (fst signalled_observer) 1).
  - reflexivity.
  - lia.
  - lia.
  - vm_compute. discriminate.
Defined.

(** A set that watches one eventfd for reading reports it when its counter
    is positive. *)
Lemma epoll_wait_ready (epfd fd timeout : Z) (k : Kernel.t) n sem :
  0 < n ->
  Kernel.files k !! epfd =
    Some (Kernel.Epoll {[fd := snd (EpollSet.createEpollEvent fd EpollSet.READ EpollSet.LEVEL
                                      EpollSet.REPEATING)]}) ->
  Kernel.files k !! fd = Some (Kernel.EventFd n sem) ->
  Kernel.epoll_wait epfd 1 timeout k = Returns (1, [(fd, Kernel.EPOLLIN)]) k.
Proof.
  intros Hn He Hf. unfold Kernel.epoll_wait. rewrite He.
  replace (1 <=? 0) with false by reflexivity.
  unfold Kernel.ready_events. rewrite map_to_list_singleton. simpl. rewrite Hf.
  unfold Kernel.ready_mask. replace (0 <? n) with true by lia.
  destruct (n <? uint64_max - 1); reflexivity.
Qed.

Lemma EpollSet_wait_ready (timeout : Z) (k : Kernel.t) (set : EpollSet.t) fd :
  Kernel.epoll_wait (EpollSet.fd_ set) (to_int (EpollSet.numFds_ set)) (to_int timeout) k
    = Returns (1, [(fd, Kernel.EPOLLIN)]) k ->
  EpollSet.wait timeout 0 (k, set) =
    Returns true (k, EpollSet.set_events_ [EpollSet.mkEvent fd EpollSet.READ] set).
Proof.
  intros H. unfold EpollSet.wait.
  erewrite bind_eq by reflexivity. simpl negb. cbv iota.
  erewrite bind_eq; cycle 1.
  { apply spin_first. unfold EpollSet.wait_round.
    erewrite bind_eq by reflexivity.
    erewrite bind_eq by (apply sys_eq; exact H).
    reflexivity. }
  reflexivity.
Qed.

(** X10.  [down(timeout)] with a timeout that is not negative, on a
    semaphore whose count is positive, with a descriptor free for the
    EpollSet that the call polls with: the call returns true, the count is
    one less, the descriptor of the EpollSet is closed again, and every
    other eventfd is as it was. *)
Theorem timed_down_takes_signal (s : Semaphore.t) (timeout : Z) (k : Kernel.t) (n : Z) :
  0 <= timeout ->
  0 < n ->
  Kernel.files k !! Semaphore.fd s = Some (Kernel.EventFd n true) ->
  Kernel.lowest_free (Kernel.files k) < Kernel.nofile k ->
  exists k',
    Semaphore.down_timeout s timeout k = Returns true k' /\
    Kernel.files k' !! Semaphore.fd s = Some (Kernel.EventFd (n - 1) true) /\
    Kernel.files k' !! Kernel.lowest_free (Kernel.files k) = None /\
    (forall h c sem, h <> Semaphore.fd s ->
       (Kernel.files k' !! h = Some (Kernel.EventFd c sem) <->
        Kernel.files k !! h = Some (Kernel.EventFd c sem))).
Proof.
  intros Ht Hn Hs Hfree.
  pose proof (lowest_free_fresh (Kernel.files k)) as Hfresh.
  pose proof (lowest_free_nonneg (Kernel.files k)) as Hpos.
  set (fd2 := Kernel.lowest_free (Kernel.files k)) in *.
  assert (Hne : Semaphore.fd s <> fd2) by (intros E; rewrite E in Hs; congruence).
  set (fs1 := <[Semaphore.fd s := Kernel.EventFd (n - 1) true]> (Kernel.files k)).
  exists (Kernel.set_files (Kernel.forget fd2 <$> fs1) k).
  split; [|split; [|split]].
  - unfold Semaphore.down_timeout.
    replace (timeout <? 0) with false by lia.
    erewrite bind_eq by (eapply EpollSet_ctor_fd_spec; [exact Hs | exact Hfree]).
    fold fd2. unfold scoped, EpollSet.whenReady.
    erewrite bind_eq; cycle 1.
    { apply EpollSet_wait_ready with (fd := Semaphore.fd s).
      simpl EpollSet.fd_. simpl EpollSet.numFds_. change (to_int 1) with 1.
      eapply epoll_wait_ready with (n := n) (sem := true); [exact Hn | |].
      - simpl. apply lookup_insert_eq.
      - simpl. rewrite lookup_insert_ne by auto. exact Hs. }
    cbv iota.
    erewrite bind_eq by reflexivity.
    erewrite bind_eq; cycle 1.
    { apply sys_eq. unfold Semaphore.read_, Kernel.read, bind. simpl.
      unfold Semaphore.fd in Hs, Hne. rewrite lookup_insert_ne by auto. rewrite Hs.
      replace (n =? 0) with false by lia. reflexivity. }
    unfold ret at 1. cbv iota.
    erewrite EpollSet_dtor_spec; [| simpl; exact Hpos |]; cycle 1.
    { simpl. rewrite lookup_insert_ne by (unfold Semaphore.fd in Hne; auto).
      apply lookup_insert_eq. }
    simpl. unfold fs1, Semaphore.fd in *.
    rewrite delete_insert_ne by auto.
    rewrite delete_insert_id by exact Hfresh. reflexivity.
  - simpl. apply forget_lookup_eventfd. apply lookup_insert_eq.
  - simpl. rewrite lookup_fmap. unfold fs1.
    rewrite lookup_insert_ne by auto. rewrite Hfresh. reflexivity.
  - intros h c sem Hh. simpl. rewrite forget_lookup_eventfd. unfold fs1.
    rewrite lookup_insert_ne by auto. reflexivity.
Qed.

Lemma timed_down_takes_signal_witness :
  exists k',
    Semaphore.down_timeout (Semaphore.mk 0) 10 (fst signalled_observer) = Returns true k' /\
    Kernel.files k' !! Semaphore.fd (Semaphore.mk 0) = Some (Kernel.EventFd (1 - 1) true) /\
    Kernel.files k' !! Kernel.lowest_free (Kernel.files (fst signalled_observer)) = None /\
    (forall h c sem, h <> Semaphore.fd (Semaphore.mk 0) ->
       (Kernel.files k' !! h = Some (Kernel.EventFd c sem) <->
        Kernel.files (fst signalled_observer) !! h = Some (Kernel.EventFd c sem))).
Proof.
  apply (timed_down_takes_signal (Semaphore.mk 0) 10 (fst signalled_observer) 1).
  - lia.
  - lia.
  - reflexivity.
  - vm_compute. reflexivity.
Defined.

(** X11.  Move assignment between two semaphores on different open
    descriptors closes the descriptor of the target and hands it the
    descriptor of the source, whose count is untouched; the source is left
    with descriptor -1, so that its destructor closes nothing, and the
    destructor of the target closes the descriptor that was handed over.
    No [close] fails on the way (errno is as before).  Assignment of a
    semaphore to itself does nothing. *)
Theorem semaphore_moves_close_once (a b : Semaphore.t) (k : Kernel.t) na nb :
  Kernel.files k !! Semaphore.fd a = Some (Kernel.EventFd na true) ->
  Kernel.files k !! Semaphore.fd b = Some (Kernel.EventFd nb true) ->
  Semaphore.fd a <> Semaphore.fd b ->
  0 <= Semaphore.fd a -> 0 <= Semaphore.fd b ->
  exists k1 k2,
    Semaphore.move_assign a b k = Returns (Semaphore.mk (Semaphore.fd b), Semaphore.mk (-1)) k1 /\
    Kernel.files k1 !! Semaphore.fd a = None /\
    Kernel.files k1 !! Semaphore.fd b = Some (Kernel.EventFd nb true) /\
    Semaphore.dtor (Semaphore.mk (-1)) k1 = Returns tt k1 /\
    Semaphore.dtor (Semaphore.mk (Semaphore.fd b)) k1 = Returns tt k2 /\
    Kernel.files k2 !! Semaphore.fd b = None /\
    Kernel.errno k2 = Kernel.errno k /\
    Semaphore.move_assign a a k = Returns (a, a) k.
Proof.
  intros Ha Hb Hne Hpa Hpb. unfold Semaphore.fd in *.
  set (k1 := Kernel.set_files
               (Kernel.forget (Semaphore.fd_ a) <$> delete (Semaphore.fd_ a) (Kernel.files k)) k).
  assert (Hb1 : Kernel.files k1 !! Semaphore.fd_ b = Some (Kernel.EventFd nb true)).
  { simpl. rewrite closed_lookup. destruct (decide _) as [E|_]; [congruence|].
    rewrite Hb. reflexivity. }
  exists k1,
    (Kernel.set_files
       (Kernel.forget (Semaphore.fd_ b) <$> delete (Semaphore.fd_ b) (Kernel.files k1)) k1).
  split; [|split; [|split; [|split; [|split; [|split; [|split]]]]]].
  - unfold Semaphore.move_assign.
    replace (Semaphore.fd_ a =? Semaphore.fd_ b) with false by lia. cbn [negb].
    replace (0 <=? Semaphore.fd_ a) with true by lia. unfold when.
    erewrite bind_eq; cycle 1.
    { erewrite bind_eq by (eapply close_open; exact Ha). reflexivity. }
    reflexivity.
  - simpl. rewrite closed_lookup. destruct (decide _) as [_|E]; [reflexivity | congruence].
  - exact Hb1.
  - reflexivity.
  - unfold Semaphore.dtor. cbn [Semaphore.fd_].
    replace (0 <=? Semaphore.fd_ b) with true by lia. unfold when.
    erewrite bind_eq by (eapply close_open; exact Hb1). reflexivity.
  - simpl. rewrite closed_lookup. destruct (decide _) as [_|E]; [reflexivity | congruence].
  - reflexivity.
  - unfold Semaphore.move_assign. rewrite Z.eqb_refl. reflexivity.
Qed.

Lemma semaphore_moves_close_once_witness :
  exists k1 k2,
    Semaphore.move_assign (Semaphore.mk 0) (Semaphore.mk 1) (fst two_waiters)
      = Returns (Semaphore.mk (Semaphore.fd (Semaphore.mk 1)), Semaphore.mk (-1)) k1 /\
    Kernel.files k1 !! Semaphore.fd (Semaphore.mk 0) = None /\
    Kernel.files k1 !! Semaphore.fd (Semaphore.mk 1) = Some (Kernel.EventFd 0 true) /\
    Semaphore.dtor (Semaphore.mk (-1)) k1 = Returns tt k1 /\
    Semaphore.dtor (Semaphore.mk (Semaphore.fd (Semaphore.mk 1))) k1 = Returns tt k2 /\
    Kernel.files k2 !! Semaphore.fd (Semaphore.mk 1) = None /\
    Kernel.errno k2 = Kernel.errno (fst two_waiters) /\
    Semaphore.move_assign (Semaphore.mk 0) (Semaphore.mk 0) (fst two_waiters)
      = Returns (Semaphore.mk 0, Semaphore.mk 0) (fst two_waiters).
Proof.
  apply (semaphore_moves_close_once (Semaphore.mk 0) (Semaphore.mk 1) (fst two_waiters) 0 0).
  - reflexivity.
  - reflexivity.
  - simpl. lia.
  - simpl. lia.
  - simpl. lia.
Defined.

(** ** ReadWriteToggle *)

Section Toggle.
Import ReadWriteToggle.

Lemma toggle_writeValue (k : Kernel.t) (f c v : Z) :
  Kernel.files k !! f = Some (Kernel.EventFd c false) ->
  v <> uint64_max -> c + v <= uint64_max - 1 ->
  Sys.writeValue f v k
    = Returns tt (Kernel.set_files (<[f := Kernel.EventFd (c + v) false]> (Kernel.files k)) k).
Proof.
  intros H Hv Hc. unfold Sys.writeValue, bind, Kernel.write. rewrite H.
  replace (v =? uint64_max) with false by lia.
  replace (c + v <=? uint64_max - 1) with true by lia. reflexivity.
Qed.

Lemma toggle_readValue (k : Kernel.t) (f c : Z) :
  Kernel.files k !! f = Some (Kernel.EventFd c false) -> c <> 0 ->
  Sys.readValue f k
    = Returns c (Kernel.set_files (<[f := Kernel.EventFd 0 false]> (Kernel.files k)) k).
Proof.
  intros H Hc. unfold Sys.readValue, bind, Kernel.read. rewrite H.
  replace (c =? 0) with false by lia. reflexivity.
Qed.

Lemma STATE_VALUES_inj (a b : State) : STATE_VALUES a = STATE_VALUES b -> a = b.
Proof. destruct a, b; intros H; try reflexivity; vm_compute in H; discriminate. Qed.

Lemma STATE_VALUES_range (a : State) : 0 <= STATE_VALUES a <= uint64_max - 1.
Proof. destruct a; vm_compute; split; discriminate. Qed.

(** [changeState_] takes the counter of the eventfd from the value of the
    old state to the value of the new one. *)
Lemma toggle_changeState (k : Kernel.t) (f : Z) (st s : State) :
  Kernel.files k !! f = Some (Kernel.EventFd (STATE_VALUES st) false) ->
  st <> s ->
  Sys.changeState_ s (k, Sys.mk f st)
    = Returns tt (Kernel.set_files
                    (<[f := Kernel.EventFd (STATE_VALUES s) false]> (Kernel.files k)) k,
                  Sys.mk f s).
Proof.
  intros H Hne. unfold Sys.changeState_.
  rewrite (bind_eq _ _ _ f (k, Sys.mk f st)) by reflexivity.
  rewrite (bind_eq _ _ _ st (k, Sys.mk f st)) by reflexivity.
  cbv zeta.
  pose proof (STATE_VALUES_range st) as Hst. pose proof (STATE_VALUES_range s) as Hs.
  assert (Hv : STATE_VALUES st <> STATE_VALUES s) by (intros E; apply Hne, STATE_VALUES_inj, E).
  assert (Hmax : uint64_max = 2 ^ 64 - 1) by reflexivity.
  destruct (STATE_VALUES st <? STATE_VALUES s) eqn:E1.
  - erewrite bind_eq; cycle 1.
    { unfold sys. erewrite toggle_writeValue by (first [exact H | lia]). reflexivity. }
    unfold update. cbn [Sys.fd_]. repeat f_equal. lia.
  - replace (STATE_VALUES s <? STATE_VALUES st) with true by lia.
    set (k1 := Kernel.set_files (<[f := Kernel.EventFd 0 false]> (Kernel.files k)) k).
    destruct (STATE_VALUES s =? 0) eqn:E2; cbn [negb]; unfold when.
    + erewrite bind_eq; cycle 1.
      { erewrite bind_eq; cycle 1.
        { unfold sys. erewrite toggle_readValue by (first [exact H | lia]). reflexivity. }
        reflexivity. }
      unfold update. cbn [Sys.fd_]. fold k1. unfold k1. repeat f_equal. lia.
    + erewrite bind_eq; cycle 1.
      { erewrite bind_eq; cycle 1.
        { unfold sys. erewrite toggle_readValue by (first [exact H | lia]). reflexivity. }
        fold k1. unfold sys.
        erewrite (toggle_writeValue k1 f 0) by
          (first [apply lookup_insert_eq | lia]). reflexivity. }
      unfold update, k1. cbn [Sys.fd_ Kernel.files Kernel.set_files].
      rewrite insert_insert_eq. destruct k; reflexivity.
Qed.

Lemma toggle_setState (k : Kernel.t) (x : Sys.t) (s : State) :
  in_step k x ->
  exists k',
    Sys.setState s (k, x) = Returns tt (k', Sys.mk (Sys.fd_ x) s) /\
    in_step k' (Sys.mk (Sys.fd_ x) s) /\
    Kernel.errno k' = Kernel.errno k /\
    (forall fd, fd <> Sys.fd_ x -> Kernel.files k' !! fd = Kernel.files k !! fd).
Proof.
  destruct x as [f st]. unfold in_step. cbn [Sys.fd_ Sys.state_]. intros H.
  unfold Sys.setState. rewrite (bind_eq _ _ _ st (k, Sys.mk f st)) by reflexivity.
  destruct (State_eqb s st) eqn:E; cbn [negb]; unfold when.
  - assert (s = st) as -> by (destruct s, st; try reflexivity; discriminate).
    exists k. repeat split; auto.
  - assert (st <> s) by (intros ->; destruct s; discriminate).
    rewrite (toggle_changeState k f st s H) by assumption.
    eexists. split; [reflexivity|]. cbn [Kernel.files Kernel.set_files Kernel.errno].
    split; [apply lookup_insert_eq|]. split; [destruct k; reflexivity|].
    intros fd Hfd. apply lookup_insert_ne. congruence.
Qed.

(** The toggle with its counter among its fields, as the queue carries
    it, goes through the states and the counters that the system calls
    give. *)
Lemma toggle_setState_counter (k : Kernel.t) (x : Sys.t) (s : State) :
  in_step k x ->
  let p := setState s (mk (Sys.fd_ x) (Sys.state_ x) (STATE_VALUES (Sys.state_ x))) in
  exists k',
    Sys.setState s (k, x) = Returns tt (k', Sys.mk (fd p) (state p)) /\
    Kernel.files k' !! fd p = Some (Kernel.EventFd (counter p) false).
Proof.
  intros H. cbv zeta.
  destruct (toggle_setState k x s H) as (k' & E & Hin & _).
  exists k'. rewrite setState_state, setState_fd. cbn [fd fd_].
  split; [exact E|].
  rewrite (setState_counter s (mk (Sys.fd_ x) (Sys.state_ x) (STATE_VALUES (Sys.state_ x))))
    by reflexivity.
  exact Hin.
Qed.

Lemma toggle_setStates (k : Kernel.t) (x : Sys.t) (states : list State) :
  in_step k x ->
  exists k',
    Sys.setStates states (k, x)
      = Returns tt (k', Sys.mk (Sys.fd_ x) (default (Sys.state_ x) (last states))) /\
    in_step k' (Sys.mk (Sys.fd_ x) (default (Sys.state_ x) (last states))) /\
    Kernel.errno k' = Kernel.errno k /\
    (forall fd, fd <> Sys.fd_ x -> Kernel.files k' !! fd = Kernel.files k !! fd).
Proof.
  revert k x. induction states as [|s states IH]; intros k x H.
  - exists k. destruct x as [f st]. repeat split; auto.
  - destruct (toggle_setState k x s H) as (k1 & E1 & H1 & He1 & Ho1).
    destruct (IH k1 _ H1) as (k2 & E2 & H2 & He2 & Ho2).
    cbn [Sys.fd_ Sys.state_] in *.
    assert (Hlast : default (Sys.state_ x) (last (s :: states)) = default s (last states)).
    { rewrite last_cons. destruct (last states); reflexivity. }
    rewrite Hlast. exists k2. split; [|split; [exact H2|split; [congruence|]]].
    + cbn [Sys.setStates]. rewrite (bind_eq _ _ _ tt _ E1). exact E2.
    + intros fd Hfd. rewrite Ho2, Ho1 by exact Hfd. reflexivity.
Qed.

End Toggle.

(** X12.  [setState] keeps the eventfd of a toggle in step with its
    state.  For a toggle whose descriptor is an eventfd with the counter
    [STATE_VALUES[state_]] (as for the eventfd that [createEventFd]
    creates, with the counter 1, and the initialiser [state_(READ_WRITE)];
    the constructor itself has no defined result), any calls of [setState]
    return, none throws or sleeps; afterwards the state is the
    one set last, the descriptor is the same, the eventfd has the counter
    of that state, and poll reports the descriptor readable unless the
    state is WRITE_ONLY and writable unless it is READ_ONLY.  No other
    descriptor is touched, and errno is as it was. *)
Theorem toggle_readiness_follows_state (k : Kernel.t) (x : ReadWriteToggle.Sys.t)
    (states : list ReadWriteToggle.State) :
  in_step k x ->
  exists k',
    let st := default (ReadWriteToggle.Sys.state_ x) (last states) in
    let x' := ReadWriteToggle.Sys.mk (ReadWriteToggle.Sys.fd_ x) st in
    ReadWriteToggle.Sys.setStates states (k, x) = Returns tt (k', x') /\
    in_step k' x' /\
    readable k' (ReadWriteToggle.Sys.fd_ x)
      = negb (ReadWriteToggle.State_eqb st ReadWriteToggle.WRITE_ONLY) /\
    writable k' (ReadWriteToggle.Sys.fd_ x)
      = negb (ReadWriteToggle.State_eqb st ReadWriteToggle.READ_ONLY) /\
    Kernel.errno k' = Kernel.errno k /\
    (forall fd, fd <> ReadWriteToggle.Sys.fd_ x ->
                Kernel.files k' !! fd = Kernel.files k !! fd).
Proof.
  intros H.
  destruct (toggle_setStates k x states H) as (k' & E & Hin & He & Ho). exists k'. cbv zeta.
  split; [exact E|]. split; [exact Hin|].
  unfold in_step in Hin. cbn [ReadWriteToggle.Sys.fd_ ReadWriteToggle.Sys.state_] in Hin.
  unfold readable, writable. rewrite Hin.
  repeat split; [| | exact He | exact Ho];
    destruct (default (ReadWriteToggle.Sys.state_ x) (last states)); reflexivity.
Qed.

Lemma toggle_readiness_follows_state_witness :
  exists k',
    ReadWriteToggle.Sys.setStates
        [ReadWriteToggle.READ_ONLY; ReadWriteToggle.READ_WRITE; ReadWriteToggle.WRITE_ONLY]
        (new_toggle_kernel, new_toggle)
      = Returns tt (k', ReadWriteToggle.Sys.mk 0 ReadWriteToggle.WRITE_ONLY) /\
    in_step k' (ReadWriteToggle.Sys.mk 0 ReadWriteToggle.WRITE_ONLY) /\
    readable k' 0 = false /\
    writable k' 0 = true /\
    Kernel.errno k' = Kernel.errno new_toggle_kernel /\
    (forall fd, fd <> 0 -> Kernel.files k' !! fd = Kernel.files new_toggle_kernel !! fd).
Proof.
  apply (toggle_readiness_follows_state new_toggle_kernel new_toggle
           [ReadWriteToggle.READ_ONLY; ReadWriteToggle.READ_WRITE; ReadWriteToggle.WRITE_ONLY]).
  reflexivity.
Defined.

(** ** Condition: observers, waiters and notifications *)

Lemma armed_observer_reachable : reachable armed_observer.
Proof.
  eapply reachable_call with (op := Condition.Observe).
  - apply (reachable_ctor boot).
  - vm_compute. reflexivity.
Qed.

Lemma two_waiters_reachable : reachable two_waiters.
Proof.
  eapply reachable_call with (op := Condition.Wait).
  - eapply reachable_call with (op := Condition.Wait).
    + apply (reachable_ctor boot).
    + vm_compute. reflexivity.
  - vm_compute. reflexivity.
Qed.

Lemma armed_zero (h : Z) (q : list Semaphore.t) :
  armed h q = 0 <-> forall s, In s q -> Semaphore.fd s <> h.
Proof.
  induction q as [|s q IH]; simpl.
  - split; [intros _ s [] | reflexivity].
  - pose proof (armed_nonneg h q) as Hge. split.
    + intros H s' [<-|Hs'].
      * destruct (Z.eqb_spec (Semaphore.fd s) h); [lia | assumption].
      * apply IH; [|exact Hs']. destruct (Semaphore.fd s =? h); lia.
    + intros H. assert (Semaphore.fd s <> h) by (apply H; left; reflexivity).
      replace (Semaphore.fd s =? h) with false by lia.
      rewrite (proj2 IH); [reflexivity|]. intros s' Hs'. apply H. right. exact Hs'.
Qed.

(** X13.  In every state that steps on a condition lead to, the
    descriptor of each observer is an open semaphore whose count is 0 or 1,
    so that a notification is never counted twice; and each handle in the
    notification queue is in it once, with a count of 0: a handle that is
    waiting to be notified is not readable. *)
Theorem handles_hold_at_most_one_signal (k : Kernel.t) (c : Condition.t) :
  reachable (k, c) ->
  (forall fd s, Condition.observers_ c !! fd = Some s ->
     Semaphore.fd s = fd /\
     exists n, Kernel.files k !! fd = Some (Kernel.EventFd n true) /\ (n = 0 \/ n = 1)) /\
  (forall s, In s (Condition.queue_ c) ->
     Kernel.files k !! Semaphore.fd s = Some (Kernel.EventFd 0 true) /\
     readable k (Semaphore.fd s) = false /\
     armed (Semaphore.fd s) (Condition.queue_ c) = 1).
Proof.
  intros Hr. apply reachable_consistent in Hr. destruct Hr as [Hq Ho]. cbn [fst snd] in *.
  split.
  - intros fd s Hs. destruct (Ho fd s Hs) as [E (n & Hn & H0 & H1)]. split; [exact E|].
    exists n. rewrite <- E. split; [exact Hn|].
    pose proof (armed_nonneg (Semaphore.fd s) (Condition.queue_ c)). lia.
  - intros s Hs. destruct (Hq s Hs) as (n & Hn & H0 & H1).
    pose proof (armed_In s _ Hs) as Hge.
    assert (n = 0) by lia. subst n.
    split; [exact Hn|]. split; [|lia].
    rewrite (readable_eventfd k _ 0 true Hn). reflexivity.
Qed.

Lemma handles_hold_at_most_one_signal_witness :
  (forall fd s, Condition.observers_ (snd armed_observer) !! fd = Some s ->
     Semaphore.fd s = fd /\
     exists n, Kernel.files (fst armed_observer) !! fd = Some (Kernel.EventFd n true) /\
               (n = 0 \/ n = 1)) /\
  (forall s, In s (Condition.queue_ (snd armed_observer)) ->
     Kernel.files (fst armed_observer) !! Semaphore.fd s = Some (Kernel.EventFd 0 true) /\
     readable (fst armed_observer) (Semaphore.fd s) = false /\
     armed (Semaphore.fd s) (Condition.queue_ (snd armed_observer)) = 1).
Proof.
  apply (handles_hold_at_most_one_signal (fst armed_observer) (snd armed_observer)).
  exact armed_observer_reachable.
Defined.

(** X14.  [ack(fd)] for the descriptor of an observer that is not
    readable (no notification since [observe] or the last [ack]) suspends
    the caller, which holds a pointer to the handle of the observer; the
    notification queue, the observer table and the kernel are as they
    were. *)
Theorem ack_waits_for_the_signal (k : Kernel.t) (c : Condition.t) (fd : Z) (s : Semaphore.t) :
  reachable (k, c) ->
  Condition.observers_ c !! fd = Some s ->
  readable k fd = false ->
  Condition.ack fd (k, c) = Blocks (k, Condition.hold s c).
Proof.
  intros Hr Hs Hrd. apply reachable_sound in Hr.
  destruct (ack_cases fd k c Hr) as [[E _]|(s' & E & Efd & [[Hn Hack]|(Hn & _)])].
  - congruence.
  - assert (s' = s) by congruence. subst s'. exact Hack.
  - rewrite (readable_eventfd k fd 1 true Hn) in Hrd. discriminate.
Qed.

Lemma ack_waits_for_the_signal_witness :
  Condition.ack 0 armed_observer
    = Blocks (fst armed_observer, Condition.hold (Semaphore.mk 0) (snd armed_observer)).
Proof.
  apply (ack_waits_for_the_signal (fst armed_observer) (snd armed_observer) 0 (Semaphore.mk 0)).
  - exact armed_observer_reachable.
  - vm_compute. reflexivity.
  - vm_compute. reflexivity.
Defined.

Lemma fresh_observer (k : Kernel.t) (c : Condition.t) (fd : Z) :
  consistent (k, c) -> Kernel.files k !! fd = None -> Condition.observers_ c !! fd = None.
Proof.
  intros [_ Ho] Hfresh. cbn [fst snd] in Ho.
  destruct (Condition.observers_ c !! fd) as [s|] eqn:E; [|reflexivity].
  destruct (Ho fd s E) as [Efd (n & Hn & _)]. rewrite Efd in Hn. congruence.
Qed.

Lemma observe_spec (k : Kernel.t) (c : Condition.t) :
  consistent (k, c) ->
  Kernel.lowest_free (Kernel.files k) < Kernel.nofile k ->
  let fd := Kernel.lowest_free (Kernel.files k) in
  Condition.observe (k, c) =
    Returns fd
      (Kernel.set_files (<[fd := Kernel.EventFd 0 true]> (Kernel.files k)) k,
       Condition.mk (Condition.queue_ c ++ [Semaphore.mk fd])
                    (<[fd := Semaphore.mk fd]> (Condition.observers_ c))
                    (Condition.callers c)).
Proof.
  intros Hc Hfree fd.
  pose proof (lowest_free_fresh (Kernel.files k)) as Hfresh. fold fd in Hfresh.
  pose proof (fresh_observer k c fd Hc Hfresh) as Hnone.
  unfold Condition.observe.
  erewrite bind_eq by (apply sys_eq, Semaphore_ctor_spec; exact Hfree). fold fd.
  rewrite with_handle_eq.
  erewrite leaving_returns; cycle 1.
  { erewrite bind_eq by apply update_eq.
    erewrite bind_eq by apply update_eq. reflexivity. }
  assert (E : Condition.unhold (Semaphore.mk fd)
                (Condition.insert_observer (Semaphore.fd (Semaphore.mk fd)) (Semaphore.mk fd)
                   (Condition.push_back (Semaphore.mk fd) (Condition.hold (Semaphore.mk fd) c)))
              = Condition.mk (Condition.queue_ c ++ [Semaphore.mk fd])
                    (<[fd := Semaphore.mk fd]> (Condition.observers_ c))
                    (Condition.callers c)).
  { unfold Condition.insert_observer, Condition.push_back, Condition.hold, Condition.unhold.
    simpl. rewrite Hnone. simpl. rewrite Z.eqb_refl. reflexivity. }
  rewrite E. rewrite release_owned; [reflexivity|].
  unfold Condition.owned. simpl. rewrite lookup_insert_eq. rewrite orb_true_r. reflexivity.
Qed.

(** X15.  [observe()], with a descriptor free, returns a descriptor
    that was not open, enters it in the observer table, and the descriptor
    is not readable; a [notifyOne()] that follows makes it readable, takes
    the handle off the notification queue, and touches no other
    descriptor. *)
Theorem observer_is_notified (k : Kernel.t) (c : Condition.t) :
  reachable (k, c) ->
  Kernel.lowest_free (Kernel.files k) < Kernel.nofile k ->
  exists fd k1 c1 k2,
    Kernel.files k !! fd = None /\
    Condition.observe (k, c) = Returns fd (k1, c1) /\
    Condition.observers_ c1 = <[fd := Semaphore.mk fd]> (Condition.observers_ c) /\
    readable k1 fd = false /\
    Condition.notifyOne (k1, c1)
      = Returns tt (k2, Condition.mk (Condition.queue_ c) (Condition.observers_ c1)
                                     (Condition.callers c)) /\
    readable k2 fd = true /\
    (forall h, h <> fd -> Kernel.files k2 !! h = Kernel.files k !! h).
Proof.
  intros Hr Hfree. apply reachable_consistent in Hr.
  pose proof (lowest_free_fresh (Kernel.files k)) as Hfresh.
  set (fd := Kernel.lowest_free (Kernel.files k)) in *.
  set (k1 := Kernel.set_files (<[fd := Kernel.EventFd 0 true]> (Kernel.files k)) k).
  set (c1 := Condition.mk (Condition.queue_ c ++ [Semaphore.mk fd])
                          (<[fd := Semaphore.mk fd]> (Condition.observers_ c))
                          (Condition.callers c)).
  assert (Hs1 : Kernel.files k1 !! fd = Some (Kernel.EventFd 0 true)) by apply lookup_insert_eq.
  exists fd, k1, c1, (Kernel.set_files (<[fd := Kernel.EventFd (0 + 1) true]> (Kernel.files k1)) k1).
  split; [exact Hfresh|].
  split; [apply observe_spec; assumption|].
  split; [reflexivity|].
  split; [rewrite (readable_eventfd k1 fd 0 true Hs1); reflexivity|].
  split.
  - apply (notifyOne_last (Semaphore.mk fd) k1
             (Condition.mk (Condition.queue_ c) (Condition.observers_ c1) (Condition.callers c))
             0 true Hs1).
    + unfold uint64_max. lia.
    + unfold Condition.owned. simpl. rewrite lookup_insert_eq. rewrite orb_true_r. reflexivity.
  - split.
    + rewrite (readable_eventfd _ fd (0 + 1) true); [reflexivity|]. apply lookup_insert_eq.
    + intros h Hne. simpl. rewrite !lookup_insert_ne by auto. reflexivity.
Qed.

Lemma observer_is_notified_witness :
  exists fd k1 c1 k2,
    Kernel.files (fst armed_observer) !! fd = None /\
    Condition.observe armed_observer = Returns fd (k1, c1) /\
    Condition.observers_ c1 = <[fd := Semaphore.mk fd]> (Condition.observers_ (snd armed_observer)) /\
    readable k1 fd = false /\
    Condition.notifyOne (k1, c1)
      = Returns tt (k2, Condition.mk (Condition.queue_ (snd armed_observer))
                                     (Condition.observers_ c1)
                                     (Condition.callers (snd armed_observer))) /\
    readable k2 fd = true /\
    (forall h, h <> fd -> Kernel.files k2 !! h = Kernel.files (fst armed_observer) !! h).
Proof.
  apply (observer_is_notified (fst armed_observer) (snd armed_observer)).
  - exact armed_observer_reachable.
  - vm_compute. reflexivity.
Defined.

(** X16.  [stopObserving(fd)] removes the entry of the observer and
    leaves its handle in the notification queue: after [observe()] and
    [stopObserving] of the descriptor, the observer table is what it was
    and the queue has the handle at its back, its descriptor open.  The
    next [notifyOne()] is spent on that handle: it takes the handle off the
    queue, which is then what it was before [observe], and with the last
    pointer to the semaphore gone its descriptor is closed.  The other
    descriptors are as they were before [observe] (an epoll set that listed
    the number of the closed descriptor has forgotten it). *)
Theorem stopped_observer_stays_queued (k : Kernel.t) (c : Condition.t) :
  reachable (k, c) ->
  Kernel.lowest_free (Kernel.files k) < Kernel.nofile k ->
  exists fd k1 k2,
    Kernel.files k !! fd = None /\
    (fd <- Condition.observe ;; Condition.stopObserving fd) (k, c)
      = Returns tt (k1, Condition.push_back (Semaphore.mk fd) c) /\
    Kernel.files k1 !! fd = Some (Kernel.EventFd 0 true) /\
    Condition.notifyOne (k1, Condition.push_back (Semaphore.mk fd) c) = Returns tt (k2, c) /\
    Kernel.files k2 !! fd = None /\
    (forall h, h <> fd -> Kernel.files k2 !! h = Kernel.forget fd <$> Kernel.files k !! h).
Proof.
  intros Hr Hfree. apply reachable_sound in Hr.
  pose proof (lowest_free_fresh (Kernel.files k)) as Hfresh.
  pose proof (lowest_free_nonneg (Kernel.files k)) as Hpos.
  pose proof (fresh_observer k c _ (proj1 Hr) Hfresh) as Hnone.
  set (fd := Kernel.lowest_free (Kernel.files k)) in *.
  set (k1 := Kernel.set_files (<[fd := Kernel.EventFd 0 true]> (Kernel.files k)) k).
  assert (Hs1 : Kernel.files k1 !! fd = Some (Kernel.EventFd 0 true)) by apply lookup_insert_eq.
  exists fd, k1, (Kernel.set_files (Kernel.forget fd <$> delete fd (Kernel.files k1)) k1).
  split; [exact Hfresh|]. split; [|split; [exact Hs1|split; [|split]]].
  - erewrite bind_eq by (apply observe_spec; [apply Hr | assumption]). fold fd k1.
    unfold Condition.stopObserving, Condition.lookup_.
    erewrite bind_eq; cycle 1.
    { erewrite bind_eq by reflexivity. simpl. rewrite lookup_insert_eq. reflexivity. }
    unfold bind at 1. rewrite update_eq.
    unfold Condition.erase_observer. simpl.
    rewrite delete_insert_id by exact Hnone.
    change (Condition.mk (Condition.queue_ c ++ [Semaphore.mk fd]) (Condition.observers_ c)
              (Condition.callers c)) with (Condition.push_back (Semaphore.mk fd) c).
    apply release_owned, owned_push_back.
  - apply (notifyOne_last_pointer (Semaphore.mk fd) k1 c 0 true Hs1);
      [unfold uint64_max; lia | exact Hpos |].
    apply (not_owned_fresh k c); [exact Hr | exact Hfresh].
  - simpl. rewrite closed_lookup. destruct (decide (fd = fd)); [reflexivity | congruence].
  - intros h Hne. simpl. rewrite closed_lookup. destruct (decide (h = fd)); [congruence|].
    rewrite lookup_insert_ne by auto. reflexivity.
Qed.

Lemma stopped_observer_stays_queued_witness :
  exists fd k1 k2,
    Kernel.files (fst two_waiters) !! fd = None /\
    (fd <- Condition.observe ;; Condition.stopObserving fd) two_waiters
      = Returns tt (k1, Condition.push_back (Semaphore.mk fd) (snd two_waiters)) /\
    Kernel.files k1 !! fd = Some (Kernel.EventFd 0 true) /\
    Condition.notifyOne (k1, Condition.push_back (Semaphore.mk fd) (snd two_waiters))
      = Returns tt (k2, snd two_waiters) /\
    Kernel.files k2 !! fd = None /\
    (forall h, h <> fd ->
       Kernel.files k2 !! h = Kernel.forget fd <$> Kernel.files (fst two_waiters) !! h).
Proof.
  apply (stopped_observer_stays_queued (fst two_waiters) (snd two_waiters)).
  - exact two_waiters_reachable.
  - vm_compute. reflexivity.
Defined.

(** One round of notification in a sound state: the handle at the back
    is signalled and taken off the queue; it stays open when a pointer to
    it is left, and is closed when not. *)
Lemma notify_round (k : Kernel.t) (c : Condition.t) (q : list Semaphore.t) (s : Semaphore.t)
    (rest : M (Kernel.t * Condition.t) unit) :
  sound (k, c) ->
  Condition.queue_ c = q ++ [s] ->
  let c0 := Condition.mk q (Condition.observers_ c) (Condition.callers c) in
  let k1 := Kernel.set_files (<[Semaphore.fd s := Kernel.EventFd 1 true]> (Kernel.files k)) k in
  let k' :=
    if Condition.owned s c0 then k1
    else Kernel.set_files
           (Kernel.forget (Semaphore.fd s) <$> delete (Semaphore.fd s) (Kernel.files k)) k in
  Kernel.files k !! Semaphore.fd s = Some (Kernel.EventFd 0 true) /\
  (forall s', In s' q -> Semaphore.fd s' <> Semaphore.fd s) /\
  sound (k', c0) /\
  (sys (Semaphore.up s 1) ;; update Condition.pop_back ;; Condition.release s ;; rest) (k, c)
    = rest (k', c0).
Proof.
  intros Hs Hq c0 k1 k'.
  assert (Hlast : last (Condition.queue_ c) = Some s) by (rewrite Hq; apply last_snoc).
  destruct (sound_notify k c s Hlast Hs) as (Hf & Hpos & Ha & Hs1).
  assert (Hpop : Condition.pop_back c = c0).
  { unfold Condition.pop_back, c0. rewrite Hq, removelast_last. reflexivity. }
  rewrite Hpop in Ha, Hs1. change (0 + 1) with 1 in Hs1. fold k1 in Hs1.
  split; [exact Hf|]. split; [apply armed_zero; exact Ha|].
  assert (Hrel : Condition.release s (k1, c0) = Returns tt (k', c0) /\ sound (k', c0)).
  { unfold k'. destruct (Condition.owned s c0) eqn:Eo.
    - split; [apply release_owned, Eo | exact Hs1].
    - split.
      + erewrite release_last; [|exact Eo | exact Hpos | apply lookup_insert_eq].
        simpl. rewrite delete_insert_eq. reflexivity.
      + pose proof (sound_close s k1 c0 Eo Hs1) as H. simpl in H.
        rewrite delete_insert_eq in H. exact H. }
  destruct Hrel as [Hrel Hs']. split; [exact Hs'|].
  erewrite bind_eq; cycle 1.
  { apply sys_eq. apply (Semaphore_up_spec s k 0 true Hf). unfold uint64_max. lia. }
  change (0 + 1) with 1. fold k1.
  unfold bind at 1. rewrite update_eq, Hpop.
  unfold bind at 1. rewrite Hrel. reflexivity.
Qed.

(** X17.  [notifyOne()] signals the handle that was queued last: with
    the queue [q ++ [s]], the call signals [s], which was not readable, and
    leaves [q] as the queue, with none of its handles readable.  When a
    pointer to [s] is left, in the observer table or with a caller, the
    descriptor of [s] is readable afterwards and no other descriptor is
    touched; when the queue had the last pointer, the semaphore is destroyed
    and its descriptor closed (an epoll set that watched it has forgotten
    it). *)
Theorem notifyOne_signals_latest (k : Kernel.t) (c : Condition.t) (q : list Semaphore.t)
    (s : Semaphore.t) :
  reachable (k, c) ->
  Condition.queue_ c = q ++ [s] ->
  exists k',
    Condition.notifyOne (k, c)
      = Returns tt (k', Condition.mk q (Condition.observers_ c) (Condition.callers c)) /\
    readable k (Semaphore.fd s) = false /\
    (if Condition.owned s (Condition.mk q (Condition.observers_ c) (Condition.callers c))
     then readable k' (Semaphore.fd s) = true /\
          (forall h, h <> Semaphore.fd s -> Kernel.files k' !! h = Kernel.files k !! h)
     else Kernel.files k' !! Semaphore.fd s = None /\
          (forall h, h <> Semaphore.fd s ->
             Kernel.files k' !! h = Kernel.forget (Semaphore.fd s) <$> Kernel.files k !! h)) /\
    (forall s', In s' q -> readable k' (Semaphore.fd s') = false).
Proof.
  intros Hr Hq. apply reachable_sound in Hr.
  destruct (notify_round k c q s (ret tt) Hr Hq) as (Hf & Hne & Hs' & Hrun).
  set (c0 := Condition.mk q (Condition.observers_ c) (Condition.callers c)) in *.
  cbv zeta in Hs', Hrun.
  eexists. split; [|split; [|split]].
  - unfold Condition.notifyOne. erewrite bind_eq by reflexivity.
    rewrite Hq, last_snoc.
    transitivity ((sys (Semaphore.up s 1) ;; update Condition.pop_back ;; Condition.release s ;;
                   ret tt) (k, c)); [|exact Hrun].
    unfold bind. destruct (sys (Semaphore.up s 1) (k, c)) as [[] st1| | |]; try reflexivity.
    destruct (update Condition.pop_back st1) as [[] st2| | |]; try reflexivity.
    destruct (Condition.release s st2) as [[] st3| | |]; reflexivity.
  - rewrite (readable_eventfd k _ 0 true Hf). reflexivity.
  - destruct (Condition.owned s c0); split.
    + rewrite (readable_eventfd _ _ 1 true); [reflexivity|]. apply lookup_insert_eq.
    + intros h Hh. simpl. apply lookup_insert_ne. auto.
    + simpl. rewrite closed_lookup. destruct (decide (Semaphore.fd s = Semaphore.fd s));
        [reflexivity | congruence].
    + intros h Hh. simpl. rewrite closed_lookup.
      destruct (decide (h = Semaphore.fd s)); [congruence | reflexivity].
  - intros s' Hin.
    destruct (sound_handle_ok _ c0 s' Hs') as (n & Hn & H0 & H1); [left; exact Hin|].
    pose proof (armed_In s' q Hin). cbn [c0 Condition.queue_] in H1.
    rewrite (readable_eventfd _ _ n true Hn). lia.
Qed.

Lemma notifyOne_signals_latest_witness :
  exists k',
    Condition.notifyOne two_waiters
      = Returns tt (k', Condition.mk [Semaphore.mk 0] (Condition.observers_ (snd two_waiters))
                                     (Condition.callers (snd two_waiters))) /\
    readable (fst two_waiters) (Semaphore.fd (Semaphore.mk 1)) = false /\
    (if Condition.owned (Semaphore.mk 1)
          (Condition.mk [Semaphore.mk 0] (Condition.observers_ (snd two_waiters))
                        (Condition.callers (snd two_waiters)))
     then readable k' (Semaphore.fd (Semaphore.mk 1)) = true /\
          (forall h, h <> Semaphore.fd (Semaphore.mk 1) ->
             Kernel.files k' !! h = Kernel.files (fst two_waiters) !! h)
     else Kernel.files k' !! Semaphore.fd (Semaphore.mk 1) = None /\
          (forall h, h <> Semaphore.fd (Semaphore.mk 1) ->
             Kernel.files k' !! h =
               Kernel.forget (Semaphore.fd (Semaphore.mk 1)) <$> Kernel.files (fst two_waiters) !! h)) /\
    (forall s', In s' [Semaphore.mk 0] -> readable k' (Semaphore.fd s') = false).
Proof.
  apply (notifyOne_signals_latest (fst two_waiters) (snd two_waiters)
           [Semaphore.mk 0] (Semaphore.mk 1)).
  - exact two_waiters_reachable.
  - reflexivity.
Defined.

Lemma notifyAll_loop_spec (rounds : nat) : forall (k : Kernel.t) (c : Condition.t),
  sound (k, c) ->
  (length (Condition.queue_ c) <= rounds)%nat ->
  let c0 := Condition.mk [] (Condition.observers_ c) (Condition.callers c) in
  exists k',
    Condition.notifyAll_loop rounds (k, c) = Returns tt (k', c0) /\
    (forall s, In s (Condition.queue_ c) ->
       if Condition.owned s c0
       then Kernel.files k' !! Semaphore.fd s = Some (Kernel.EventFd 1 true)
       else Kernel.files k' !! Semaphore.fd s = None) /\
    (forall h n sem, (forall s, In s (Condition.queue_ c) -> Semaphore.fd s <> h) ->
       (Kernel.files k' !! h = Some (Kernel.EventFd n sem) <->
        Kernel.files k !! h = Some (Kernel.EventFd n sem))) /\
    (forall h, Kernel.files k !! h = None -> Kernel.files k' !! h = None).
Proof.
  induction rounds as [|rounds IH]; intros k c Hc Hlen c0.
  - destruct c as [q obs cs]. simpl in Hlen. destruct q; [|simpl in Hlen; lia].
    exists k. split; [reflexivity|]. split; [intros s []|]. split; [reflexivity | auto].
  - simpl. erewrite bind_eq by reflexivity.
    destruct (last (Condition.queue_ c)) as [s|] eqn:E.
    + apply last_Some in E as [q Eq].
      destruct (notify_round k c q s (Condition.notifyAll_loop rounds) Hc Eq)
        as (Hf & Hne & Hs' & Hrun).
      set (c1 := Condition.mk q (Condition.observers_ c) (Condition.callers c)) in *.
      cbv zeta in Hs', Hrun. rewrite Hrun.
      assert (Eown : Condition.owned s c1 = Condition.owned s c0).
      { unfold Condition.owned, c1, c0. simpl.
        replace (Condition.points_to s q) with false; [reflexivity|].
        symmetry. rewrite points_to_armed.
        assert (armed (Semaphore.fd s) q = 0) by (apply armed_zero; exact Hne). lia. }
      rewrite Eown in Hs', Hrun |- *.
      match type of Hs' with sound (?kk, _) => set (k1 := kk) in * end.
      destruct (IH k1 c1 Hs') as (k' & Hloop & Hsig & Hrest & Hnone).
      { simpl. rewrite Eq, length_app in Hlen. simpl in Hlen. lia. }
      cbv zeta in Hloop, Hsig, Hrest. change (Condition.mk [] (Condition.observers_ c1)
        (Condition.callers c1)) with c0 in Hloop, Hsig.
      exists k'. split; [exact Hloop|]. split; [|split].
      * intros s' Hs0. rewrite Eq in Hs0. apply in_app_or in Hs0 as [Hs0|[<-|[]]].
        -- apply Hsig. exact Hs0.
        -- unfold k1 in *. destruct (Condition.owned s c0).
           ++ apply Hrest; [exact Hne | apply lookup_insert_eq].
           ++ apply Hnone. simpl. rewrite closed_lookup.
              destruct (decide (Semaphore.fd s = Semaphore.fd s)); [reflexivity | congruence].
      * intros h n sem Hh. rewrite Hrest.
        -- assert (Hhs : h <> Semaphore.fd s).
           { intros ->. apply (Hh s); [|reflexivity]. rewrite Eq. apply in_or_app.
             right. left. reflexivity. }
           unfold k1. destruct (Condition.owned s c0); simpl.
           ++ rewrite lookup_insert_ne by auto. reflexivity.
           ++ rewrite closed_lookup. destruct (decide (h = Semaphore.fd s)); [congruence|].
              rewrite <- lookup_fmap. apply forget_lookup_eventfd.
        -- intros s' Hs0. apply Hh. rewrite Eq. apply in_or_app. left. exact Hs0.
      * intros h Hh. apply Hnone. unfold k1. destruct (Condition.owned s c0); simpl.
        -- rewrite lookup_insert_ne; [exact Hh|]. intros E. rewrite E in Hf. congruence.
        -- rewrite closed_lookup. destruct (decide (h = Semaphore.fd s)); [reflexivity|].
           rewrite Hh. reflexivity.
    + apply last_None in E. destruct c as [q obs cs]. simpl in E. subst q.
      exists k. split; [reflexivity|]. split; [intros s []|]. split; [reflexivity | auto].
Qed.

(** X18.  [notifyAll()] returns with the notification queue empty and
    the observer table as it was.  Of the handles that were queued, those
    to which a pointer is left, in the observer table or with a caller,
    have descriptors that are readable, and the others are destroyed and
    their descriptors closed; every eventfd that is not that of a queued
    handle is as before. *)
Theorem notifyAll_signals_every_handle (k : Kernel.t) (c : Condition.t) :
  reachable (k, c) ->
  exists k',
    Condition.notifyAll (k, c)
      = Returns tt (k', Condition.mk [] (Condition.observers_ c) (Condition.callers c)) /\
    (forall s, In s (Condition.queue_ c) ->
       if Condition.owned s (Condition.mk [] (Condition.observers_ c) (Condition.callers c))
       then readable k' (Semaphore.fd s) = true
       else Kernel.files k' !! Semaphore.fd s = None) /\
    (forall h n sem, (forall s, In s (Condition.queue_ c) -> Semaphore.fd s <> h) ->
       (Kernel.files k' !! h = Some (Kernel.EventFd n sem) <->
        Kernel.files k !! h = Some (Kernel.EventFd n sem))).
Proof.
  intros Hr. apply reachable_sound in Hr.
  destruct (notifyAll_loop_spec (length (Condition.queue_ c)) k c Hr (le_n _))
    as (k' & Hrun & Hsig & Hrest & _).
  exists k'. split; [|split].
  - unfold Condition.notifyAll. erewrite bind_eq by reflexivity. exact Hrun.
  - intros s Hs. specialize (Hsig s Hs).
    destruct (Condition.owned s _); [|exact Hsig].
    rewrite (readable_eventfd k' _ 1 true Hsig). reflexivity.
  - exact Hrest.
Qed.

Lemma notifyAll_signals_every_handle_witness :
  exists k',
    Condition.notifyAll two_waiters
      = Returns tt (k', Condition.mk [] (Condition.observers_ (snd two_waiters))
                                     (Condition.callers (snd two_waiters))) /\
    (forall s, In s (Condition.queue_ (snd two_waiters)) ->
       if Condition.owned s (Condition.mk [] (Condition.observers_ (snd two_waiters))
                                          (Condition.callers (snd two_waiters)))
       then readable k' (Semaphore.fd s) = true
       else Kernel.files k' !! Semaphore.fd s = None) /\
    (forall h n sem, (forall s, In s (Condition.queue_ (snd two_waiters)) -> Semaphore.fd s <> h) ->
       (Kernel.files k' !! h = Some (Kernel.EventFd n sem) <->
        Kernel.files (fst two_waiters) !! h = Some (Kernel.EventFd n sem))).
Proof.
  apply (notifyAll_signals_every_handle (fst two_waiters) (snd two_waiters)).
  exact two_waiters_reachable.
Defined.

(** X19.  [wait()], with a descriptor free for its semaphore, suspends
    the caller, which holds its new handle [s], with the handle at the back
    of the queue; the next [notifyOne()] takes the handle off the queue
    again, and the [down()] in which the caller is suspended then returns,
    with the count of [s] at 0 and no other descriptor changed.  With the
    return of [wait()] the last pointer to [s] goes and its descriptor is
    closed (for a condition in a state that steps lead to). *)
Theorem waiter_is_released (k : Kernel.t) (c : Condition.t) :
  Kernel.lowest_free (Kernel.files k) < Kernel.nofile k ->
  exists s k1 k2 k3,
    Kernel.files k !! Semaphore.fd s = None /\
    Condition.wait (k, c) = Blocks (k1, Condition.push_back s (Condition.hold s c)) /\
    Condition.notifyOne (k1, Condition.push_back s (Condition.hold s c))
      = Returns tt (k2, Condition.hold s c) /\
    sys (Semaphore.down s) (k2, Condition.hold s c) = Returns tt (k3, Condition.hold s c) /\
    Kernel.files k3 !! Semaphore.fd s = Some (Kernel.EventFd 0 true) /\
    (forall h, h <> Semaphore.fd s -> Kernel.files k3 !! h = Kernel.files k !! h) /\
    (reachable (k, c) ->
     exists k4,
       Condition.call (Condition.Resume s) (k2, Condition.hold s c) = Returns tt (k4, c) /\
       Kernel.files k4 !! Semaphore.fd s = None).
Proof.
  intros Hfree.
  pose proof (lowest_free_fresh (Kernel.files k)) as Hfresh.
  pose proof (lowest_free_nonneg (Kernel.files k)) as Hpos.
  set (fd := Kernel.lowest_free (Kernel.files k)) in *.
  set (k1 := Kernel.set_files (<[fd := Kernel.EventFd 0 true]> (Kernel.files k)) k).
  set (k2 := Kernel.set_files (<[fd := Kernel.EventFd (0 + 1) true]> (Kernel.files k1)) k1).
  set (k3 := Kernel.set_files (<[fd := Kernel.EventFd (0 + 1 - 1) true]> (Kernel.files k2)) k2).
  assert (Hs1 : Kernel.files k1 !! fd = Some (Kernel.EventFd 0 true)) by apply lookup_insert_eq.
  assert (Hs2 : Kernel.files k2 !! fd = Some (Kernel.EventFd (0 + 1) true)) by apply lookup_insert_eq.
  assert (Hdown : sys (Semaphore.down (Semaphore.mk fd)) (k2, Condition.hold (Semaphore.mk fd) c)
                  = Returns tt (k3, Condition.hold (Semaphore.mk fd) c)).
  { apply sys_eq. rewrite (Semaphore_down_spec (Semaphore.mk fd) k2 (0 + 1) true Hs2). reflexivity. }
  exists (Semaphore.mk fd), k1, k2, k3.
  split; [exact Hfresh|]. split; [|split; [|split; [|split; [|split]]]].
  - unfold Condition.wait.
    erewrite bind_eq by (apply sys_eq, Semaphore_ctor_spec; exact Hfree). fold fd k1.
    rewrite with_handle_eq. apply leaving_blocks.
    erewrite bind_eq by apply update_eq.
    apply sys_blocks. rewrite (Semaphore_down_spec (Semaphore.mk fd) k1 0 true Hs1). reflexivity.
  - apply (notifyOne_last (Semaphore.mk fd) k1 _ 0 true Hs1); [unfold uint64_max; lia|].
    unfold Condition.owned. simpl. rewrite Z.eqb_refl. rewrite orb_true_r. reflexivity.
  - exact Hdown.
  - simpl. apply lookup_insert_eq.
  - intros h Hne. simpl in *. rewrite !lookup_insert_ne by auto. reflexivity.
  - intros Hr. apply reachable_sound in Hr.
    pose proof (not_owned_fresh k c (Semaphore.mk fd) Hr Hfresh) as Hno.
    exists (Kernel.set_files (Kernel.forget fd <$> delete fd (Kernel.files k3)) k3). split.
    + simpl. unfold Condition.resume. erewrite bind_eq by reflexivity.
      simpl. rewrite Z.eqb_refl. simpl.
      erewrite leaving_returns by exact Hdown.
      rewrite unhold_hold.
      erewrite release_last; [reflexivity | exact Hno | exact Hpos | simpl; apply lookup_insert_eq].
    + simpl. rewrite closed_lookup. destruct (decide (fd = fd)); [reflexivity | congruence].
Qed.

Lemma waiter_is_released_witness :
  exists s k1 k2 k3,
    Kernel.files boot !! Semaphore.fd s = None /\
    Condition.wait (boot, Condition.ctor)
      = Blocks (k1, Condition.push_back s (Condition.hold s Condition.ctor)) /\
    Condition.notifyOne (k1, Condition.push_back s (Condition.hold s Condition.ctor))
      = Returns tt (k2, Condition.hold s Condition.ctor) /\
    sys (Semaphore.down s) (k2, Condition.hold s Condition.ctor)
      = Returns tt (k3, Condition.hold s Condition.ctor) /\
    Kernel.files k3 !! Semaphore.fd s = Some (Kernel.EventFd 0 true) /\
    (forall h, h <> Semaphore.fd s -> Kernel.files k3 !! h = Kernel.files boot !! h) /\
    exists k4,
      Condition.call (Condition.Resume s) (k2, Condition.hold s Condition.ctor)
        = Returns tt (k4, Condition.ctor) /\
      Kernel.files k4 !! Semaphore.fd s = None.
Proof.
  destruct (waiter_is_released boot Condition.ctor) as (s & k1 & k2 & k3 & H1 & H2 & H3 & H4 & H5 & H6 & H7).
  - vm_compute. reflexivity.
  - exists s, k1, k2, k3. repeat (split; [assumption|]).
    apply H7. apply (reachable_ctor boot).
Defined.

(** ** Queue: the toggle, the bounds and the events of the size *)

Section QueueInvariants.
Context {Item : Type}.
Import Queue.

Lemma call_within_bounds (op : Op Item) (w w' : World Item) :
  others w = [] -> call op w = Returns tt w' ->
  within_bounds (self w) ->
  others w' = [] /\ within_bounds (self w') /\ maxSize_ (self w') = maxSize_ (self w).
Proof.
  intros Ho H [Hsz Hmk].
  assert (Hgen : mutation op = true -> others w' = [] /\ within_bounds (self w') /\
                   maxSize_ (self w') = maxSize_ (self w)).
  { intros Hmut. destruct (call_effect op w w' Ho H) as [Ho' He]. split; [exact Ho'|].
    assert (Hpos : 0 <= q_size (self w')) by (unfold q_size; lia).
    destruct He as [oldSize newSize Hold Hnew Hrel (Hm & Hl & Hh) _ _ _ | Hs _ | Hf _ _ _ _ _].
    - unfold within_bounds. rewrite Hm, Hl, Hh. subst oldSize newSize. repeat split; lia.
    - rewrite Hs. split; [split; assumption | reflexivity].
    - congruence. }
  destruct op; try (apply Hgen; reflexivity); simpl in H.
  - unfold setLowWaterMark in H.
    apply bind_Returns in H as (n & w0 & Hf & H). apply gets_Returns in Hf as [-> ->].
    destruct (highWaterMark_ (self w) <? value) eqn:E; [discriminate|].
    apply modify_Returns in H. subst w'. split; [exact Ho|].
    unfold within_bounds, q_size in *. simpl. repeat split; lia.
  - unfold setHighWaterMark in H.
    apply bind_Returns in H as (n & w0 & Hf & H). apply gets_Returns in Hf as [-> ->].
    apply bind_Returns in H as (n & w0 & Hf & H). apply gets_Returns in Hf as [-> ->].
    destruct (maxSize_ (self w) <? value) eqn:E1; [discriminate|].
    destruct (value <? lowWaterMark_ (self w)) eqn:E2; [discriminate|].
    apply modify_Returns in H. subst w'. split; [exact Ho|].
    unfold within_bounds, q_size in *. simpl. repeat split; lia.
Qed.

Lemma calls_within_bounds (ops : list (Op Item)) : forall (w w' : World Item),
  others w = [] -> calls ops w = Returns tt w' ->
  within_bounds (self w) ->
  others w' = [] /\ within_bounds (self w') /\ maxSize_ (self w') = maxSize_ (self w).
Proof.
  induction ops as [|op ops IH]; intros w w' Ho H Hb; simpl in H.
  - apply ret_Returns in H as [_ ->]. auto.
  - apply bind_Returns in H as ([] & w1 & Hc & H).
    destruct (call_within_bounds op w w1 Ho Hc Hb) as (Ho1 & Hb1 & Hm1).
    destruct (IH w1 w' Ho1 H Hb1) as (Ho' & Hb' & Hm').
    split; [exact Ho'|]. split; [exact Hb' | congruence].
Qed.

Lemma ctor_within_bounds maxSize lowWaterMark highWaterMark toggle (q : t Item) :
  0 <= maxSize ->
  ctor maxSize lowWaterMark highWaterMark toggle = inr q ->
  within_bounds q.
Proof.
  intros Hmax H. apply ctor_fields in H as (Hm & Hl & Hh & Hq & _ & _ & Hord).
  unfold within_bounds, q_size. rewrite Hq, Hm, Hl, Hh. simpl. lia.
Qed.

(** X25.  After the constructor and any calls that return, on a queue
    on its own, the maximal size is the one the queue was constructed
    with, the size is within it, and the marks are ordered: low-water mark
    at most high-water mark at most maximal size. *)
Theorem queue_stays_within_bounds (maxSize lowWaterMark highWaterMark toggle time : Z)
    (q : t Item) (ops : list (Op Item)) (w' : World Item) :
  0 <= maxSize ->
  ctor maxSize lowWaterMark highWaterMark toggle = inr q ->
  calls ops (alone q time) = Returns tt w' ->
  maxSize_ (self w') = maxSize /\
  q_size (self w') <= maxSize /\
  lowWaterMark_ (self w') <= highWaterMark_ (self w') <= maxSize.
Proof.
  intros Hmax Hctor Hcalls.
  pose proof (ctor_within_bounds _ _ _ _ _ Hmax Hctor) as Hb.
  apply ctor_fields in Hctor as (Hm & _).
  destruct (calls_within_bounds ops (alone q time) w' eq_refl Hcalls Hb) as (_ & [Hs Hk] & Hm').
  simpl in Hm'. rewrite Hm' in *. rewrite Hm in *. repeat split; lia.
Qed.

Lemma call_toggle (op : Op Item) (w w' : World Item) :
  others w = [] -> call op w = Returns tt w' ->
  0 < maxSize_ (self w) ->
  q_size (self w) <= maxSize_ (self w) ->
  encodes_size (self w) \/ stale_toggle (self w) ->
  encodes_size (self w') \/ stale_toggle (self w').
Proof.
  intros Ho H Hmax Hsz Hinv.
  assert (Hpos : 0 <= q_size (self w)) by (unfold q_size; lia).
  assert (Hpos' : 0 <= q_size (self w')) by (unfold q_size; lia).
  destruct (call_effect op w w' Ho H) as [_ He].
  destruct Hinv as [Henc | [H0 Hst]].
  - destruct (Z.eq_dec (q_size (self w)) (maxSize_ (self w))) as [Efull|Hnf];
      [destruct (Z.eq_dec (q_size (self w')) 0) as [Eempty|Hne]|].
    + right. split; [exact Eempty|].
      destruct He as [oldSize newSize Hold Hnew Hrel _ _ _ Htg | Hs _ | _ _ Hq _ _ _].
      * rewrite Htg. unfold toggle_after. subst oldSize newSize. rewrite Efull, Eempty.
        replace (maxSize_ (self w) =? 0) with false by lia.
        replace (maxSize_ (self w) <=? maxSize_ (self w)) with true by lia.
        replace (0 <? maxSize_ (self w)) with true by lia.
        replace (maxSize_ (self w) <? maxSize_ (self w)) with false by lia.
        reflexivity.
      * rewrite Hs in Eempty. lia.
      * unfold q_size in *. rewrite Hq in Eempty. lia.
    + left. apply (toggle_follows_size op w w' Ho H Hmax Hsz Henc). lia.
    + left. apply (toggle_follows_size op w w' Ho H Hmax Hsz Henc). lia.
  - destruct He as [oldSize newSize Hold Hnew Hrel (Hm & _) _ _ Htg | Hs _ | _ _ Hq Htg _ _].
    + subst oldSize newSize. rewrite H0 in *.
      destruct Hrel as [[E _]|[E|E]]; [| lia |].
      * left. apply encodes_size_expected; [lia|].
        rewrite Htg. unfold toggle_after, expected_state. rewrite Hm, E, Hst.
        replace (0 =? 0) with true by reflexivity.
        replace (0 + 1 =? 0) with false by reflexivity.
        replace (maxSize_ (self w) <=? 0) with false by lia.
        replace (0 <? maxSize_ (self w)) with true by lia. cbn [negb andb].
        destruct (maxSize_ (self w) <=? 0 + 1) eqn:E1, (0 + 1 =? maxSize_ (self w)) eqn:E2;
          try reflexivity; lia.
      * right. split; [exact E|]. rewrite Htg. unfold toggle_after. rewrite E, Hst.
        replace (0 =? 0) with true by reflexivity.
        replace (maxSize_ (self w) <=? 0) with false by lia.
        replace (0 <? maxSize_ (self w)) with true by lia. reflexivity.
    + right. rewrite Hs. split; assumption.
    + right. unfold stale_toggle, q_size in *. rewrite Hq, Htg. split; assumption.
Qed.

(** X20.  After the constructor, with a maximal size that is not 0, and
    any calls that return, on a queue on its own, the toggle is in step
    with the size (READ_ONLY exactly when the queue is full, WRITE_ONLY
    exactly when it is empty, READ_WRITE otherwise), or else the queue is
    empty and the toggle is in READ_WRITE. *)
Theorem toggle_in_step_or_stale (maxSize lowWaterMark highWaterMark toggle time : Z)
    (q : t Item) (ops : list (Op Item)) (w' : World Item) :
  0 < maxSize ->
  ctor maxSize lowWaterMark highWaterMark toggle = inr q ->
  calls ops (alone q time) = Returns tt w' ->
  encodes_size (self w') \/ stale_toggle (self w').
Proof.
  intros Hmax Hctor Hcalls.
  assert (Hb : within_bounds q) by (eapply ctor_within_bounds; [|exact Hctor]; lia).
  apply ctor_fields in Hctor as (Hm & _ & _ & Hq & _ & Hst & _).
  assert (Hinv : encodes_size q \/ stale_toggle q).
  { left. apply encodes_size_expected; [lia|].
    rewrite Hst. unfold expected_state, q_size. rewrite Hq. reflexivity. }
  assert (Hgen : forall ops (w w' : World Item),
            others w = [] -> calls ops w = Returns tt w' ->
            0 < maxSize_ (self w) -> within_bounds (self w) ->
            encodes_size (self w) \/ stale_toggle (self w) ->
            encodes_size (self w') \/ stale_toggle (self w')).
  { clear. induction ops as [|op ops IH]; intros w w' Ho H Hmax Hb Hinv; simpl in H.
    - apply ret_Returns in H as [_ ->]. exact Hinv.
    - apply bind_Returns in H as ([] & w1 & Hc & H).
      destruct (call_within_bounds op w w1 Ho Hc Hb) as (Ho1 & Hb1 & Hm1).
      apply (IH w1 w' Ho1 H); [lia | exact Hb1 |].
      apply (call_toggle op w w1 Ho Hc Hmax); [apply Hb | exact Hinv]. }
  apply (Hgen ops (alone q time) w' eq_refl Hcalls); simpl; [lia | exact Hb | exact Hinv].
Qed.

End QueueInvariants.

Lemma toggle_in_step_or_stale_witness :
  exists w' : Queue.World Z,
    Queue.calls [Queue.Put 7 (-1); Queue.Put 8 (-1); Queue.Get; Queue.SetLowWaterMark 1]
                (Queue.alone queue_of_two 0) = Returns tt w' /\
    (Queue.encodes_size (Queue.self w') \/ stale_toggle (Queue.self w')).
Proof.
  eexists. split; [vm_compute; reflexivity|].
  apply (toggle_in_step_or_stale 2 2 2 3 0 queue_of_two
           [Queue.Put 7 (-1); Queue.Put 8 (-1); Queue.Get; Queue.SetLowWaterMark 1]).
  - lia.
  - reflexivity.
  - vm_compute. reflexivity.
Defined.

Lemma queue_stays_within_bounds_witness :
  exists w' : Queue.World Z,
    Queue.calls [Queue.Put 7 (-1); Queue.SetLowWaterMark 1; Queue.Put 8 0; Queue.Clear]
                (Queue.alone queue_10_2_4 0) = Returns tt w' /\
    Queue.maxSize_ (Queue.self w') = 10 /\
    Queue.q_size (Queue.self w') <= 10 /\
    Queue.lowWaterMark_ (Queue.self w') <= Queue.highWaterMark_ (Queue.self w') <= 10.
Proof.
  eexists. split; [vm_compute; reflexivity|].
  apply (queue_stays_within_bounds 10 2 4 3 0 queue_10_2_4
           [Queue.Put 7 (-1); Queue.SetLowWaterMark 1; Queue.Put 8 0; Queue.Clear]).
  - lia.
  - reflexivity.
  - vm_compute. reflexivity.
Defined.

Section QueueSizeEvents.
Context {Item : Type}.
Import Queue.

Lemma in_size_events_iff cv oldSize newSize (q : t Item) :
  In cv (size_events oldSize newSize q) <->
  (cv = notEmptyCv_ /\ oldSize = 0 /\ newSize <> 0) \/
  (cv = emptyCv_ /\ oldSize <> 0 /\ newSize = 0) \/
  (cv = notFullCv_ /\ maxSize_ q <= oldSize /\ newSize < maxSize_ q) \/
  (cv = fullCv_ /\ oldSize < maxSize_ q /\ maxSize_ q <= newSize).
Proof.
  unfold size_events. rewrite !in_app_iff. split.
  - intros H.
    destruct (oldSize =? 0) eqn:E1, (newSize =? 0) eqn:E2,
      (maxSize_ q <=? oldSize) eqn:E3, (newSize <? maxSize_ q) eqn:E4,
      (oldSize <? maxSize_ q) eqn:E5, (maxSize_ q <=? newSize) eqn:E6;
      simpl in H;
      repeat match goal with
             | H : _ \/ _ |- _ => destruct H
             | H : False |- _ => destruct H
             end; subst;
      first [ left; repeat split; solve [reflexivity | lia]
            | right; left; repeat split; solve [reflexivity | lia]
            | right; right; left; repeat split; solve [reflexivity | lia]
            | right; right; right; repeat split; solve [reflexivity | lia] ].
  - intros [(-> & H1 & H2)|[(-> & H1 & H2)|[(-> & H1 & H2)|(-> & H1 & H2)]]].
    + left. replace (oldSize =? 0) with true by lia.
      replace (newSize =? 0) with false by lia. left. reflexivity.
    + right. left. replace (oldSize =? 0) with false by lia.
      replace (newSize =? 0) with true by lia. left. reflexivity.
    + right. right. left. replace (maxSize_ q <=? oldSize) with true by lia.
      replace (newSize <? maxSize_ q) with true by lia. left. reflexivity.
    + right. right. right. replace (oldSize <? maxSize_ q) with true by lia.
      replace (maxSize_ q <=? newSize) with true by lia. left. reflexivity.
Qed.

Lemma in_mark_events cv oldSize newSize (q : t Item) :
  In cv (mark_events oldSize newSize q) -> cv = highWaterMarkCv_ \/ cv = lowWaterMarkCv_.
Proof.
  unfold mark_events. rewrite in_app_iff.
  destruct (crossing_high oldSize newSize q), (crossing_low oldSize newSize q); simpl;
    intuition auto.
Qed.

Lemma fired_size_event cv oldSize newSize (q : t Item) :
  cv <> highWaterMarkCv_ -> cv <> lowWaterMarkCv_ ->
  (In cv (size_events oldSize newSize q ++ mark_events oldSize newSize q) <->
   In cv (size_events oldSize newSize q)).
Proof.
  intros H1 H2. rewrite in_app_iff. split; [|auto].
  intros [H|H]; [exact H|]. apply in_mark_events in H. tauto.
Qed.

(** X29.  A call on a queue on its own notifies [notEmptyCv_] exactly
    when it takes the size from 0 to more, [emptyCv_] exactly when it takes
    the size from more than 0 to 0, [fullCv_] exactly when it takes the size
    from below the maximal size to it, and [notFullCv_] exactly when it
    takes the size from the maximal size to below it. *)
Theorem size_events_fire_on_transitions (op : Op Item) (w w' : World Item) :
  others w = [] ->
  call op w = Returns tt w' ->
  exists fired,
    notified w' = notified w ++ fired /\
    (In notEmptyCv_ fired <-> q_size (self w) = 0 /\ q_size (self w') <> 0) /\
    (In emptyCv_ fired <-> q_size (self w) <> 0 /\ q_size (self w') = 0) /\
    (In fullCv_ fired <->
       q_size (self w) < maxSize_ (self w) /\ maxSize_ (self w) <= q_size (self w')) /\
    (In notFullCv_ fired <->
       maxSize_ (self w) <= q_size (self w) /\ q_size (self w') < maxSize_ (self w)).
Proof.
  intros Ho H. destruct (call_effect op w w' Ho H) as [_ He].
  destruct He as [oldSize newSize Hold Hnew _ _ Hn _ _ | Hs Hn | _ _ Hq _ _ Hn].
  - exists (size_events oldSize newSize (self w) ++ mark_events oldSize newSize (self w)).
    split; [exact Hn|]. subst oldSize newSize.
    split; [|split; [|split]];
      (rewrite fired_size_event by discriminate); rewrite in_size_events_iff;
      (split;
       [ intros [(E & X)|[(E & X)|[(E & X)|(E & X)]]]; try discriminate E; exact X
       | intros X ]).
    + left. split; [reflexivity | exact X].
    + right. left. split; [reflexivity | exact X].
    + right. right. right. split; [reflexivity | exact X].
    + right. right. left. split; [reflexivity | exact X].
  - exists []. rewrite app_nil_r, Hs. split; [exact Hn|]. simpl. repeat split; try tauto; lia.
  - exists []. rewrite app_nil_r. unfold q_size. rewrite Hq.
    split; [exact Hn|]. simpl. repeat split; try tauto; lia.
Qed.

End QueueSizeEvents.

Lemma size_events_fire_on_transitions_witness :
  exists (w' : Queue.World Z) fired,
    Queue.call (Queue.Put 7 (-1)) (Queue.alone queue_of_one 0) = Returns tt w' /\
    Queue.notified w' = Queue.notified (Queue.alone queue_of_one 0) ++ fired /\
    (In Queue.notEmptyCv_ fired <->
       Queue.q_size queue_of_one = 0 /\ Queue.q_size (Queue.self w') <> 0) /\
    (In Queue.emptyCv_ fired <->
       Queue.q_size queue_of_one <> 0 /\ Queue.q_size (Queue.self w') = 0) /\
    (In Queue.fullCv_ fired <->
       Queue.q_size queue_of_one < Queue.maxSize_ queue_of_one /\
       Queue.maxSize_ queue_of_one <= Queue.q_size (Queue.self w')) /\
    (In Queue.notFullCv_ fired <->
       Queue.maxSize_ queue_of_one <= Queue.q_size queue_of_one /\
       Queue.q_size (Queue.self w') < Queue.maxSize_ queue_of_one).
Proof.
  eexists.
  assert (H : Queue.call (Queue.Put 7 (-1)) (Queue.alone queue_of_one 0)
              = Returns tt (Queue.mkWorld full_queue_of_one 0 []
                              [Queue.notEmptyCv_; Queue.fullCv_] []))
    by (vm_compute; reflexivity).
  destruct (size_events_fire_on_transitions (Queue.Put 7 (-1)) (Queue.alone queue_of_one 0) _
              eq_refl H) as (fired & Hf).
  exists fired. split; [exact H | exact Hf].
Defined.

(** ** Queue: items *)

Section QueueAlone.
Context {Item : Type}.
Import Queue.

Lemma issueNotifications_keeps oldSize newSize (w : World Item) :
  exists w',
    issueNotifications_ oldSize newSize w = Returns tt w' /\
    q_ (self w') = q_ (self w) /\ same_settings (self w) (self w') /\
    others w' = others w /\ now w' = now w.
Proof.
  destruct (issueNotifications_spec oldSize newSize w)
    as (w' & H & _ & _ & _ & Hq & Hs & Ho & Hn & _).
  exists w'. auto.
Qed.

Lemma put_finish_spec (item : Item) (w1 : World Item) :
  exists w',
    (modify (set_self (fun q => set_q_ (q_ q ++ [item]) q)) ;;
     n <- size_ ;;
     issueNotifications_ (n - 1) n ;;
     ret true) w1 = Returns true w' /\
    q_ (self w') = q_ (self w1) ++ [item] /\ same_settings (self w1) (self w') /\
    others w' = others w1 /\ now w' = now w1.
Proof.
  set (w2 := set_self (fun q => set_q_ (q_ q ++ [item]) q) w1).
  destruct (issueNotifications_keeps (q_size (self w2) - 1) (q_size (self w2)) w2)
    as (w' & E & Hq & Hs & Ho & Hn).
  exists w'. split; [|auto].
  rewrite (bind_eq _ _ _ tt w2) by reflexivity.
  rewrite (bind_eq _ _ _ (q_size (self w2)) w2) by reflexivity.
  rewrite (bind_eq _ _ _ tt w' E). reflexivity.
Qed.

(** [put] into a queue with room appends the item, at once. *)
Lemma put_room (item : Item) timeout (w : World Item) :
  q_size (self w) < maxSize_ (self w) ->
  exists w',
    put item timeout w = Returns true w' /\
    q_ (self w') = q_ (self w) ++ [item] /\ same_settings (self w) (self w') /\
    others w' = others w /\ now w' = now w.
Proof.
  intros Hroom. unfold put, executePut_.
  destruct (put_finish_spec item w) as (w' & E & H).
  exists w'. split; [|exact H].
  destruct (timeout <? 0).
  - rewrite (bind_eq _ _ _ tt w); [exact E | apply while_skip; lia].
  - rewrite (bind_eq _ _ _ (now w) w) by reflexivity.
    rewrite (bind_eq _ _ _ (now w) w); [|apply while_skip; lia].
    rewrite (bind_eq _ _ _ false w); [exact E | unfold field, gets; f_equal; lia].
Qed.

Lemma get_finish_spec {A} (f : Item -> A) (w1 : World Item) x rest :
  q_ (self w1) = x :: rest ->
  exists w',
    (item <- pop_front ;;
     n <- size_ ;;
     issueNotifications_ (n + 1) n ;;
     ret (f item)) w1 = Returns (f x) w' /\
    q_ (self w') = rest /\ same_settings (self w1) (self w') /\
    others w' = others w1 /\ now w' = now w1.
Proof.
  intros Eq. set (w2 := set_self (set_q_ rest) w1).
  destruct (issueNotifications_keeps (q_size (self w2) + 1) (q_size (self w2)) w2)
    as (w' & E & Hq & Hs & Ho & Hn).
  exists w'. split; [|auto].
  rewrite (bind_eq _ _ _ x w2); [|unfold pop_front; rewrite Eq; reflexivity].
  rewrite (bind_eq _ _ _ (q_size (self w2)) w2) by reflexivity.
  rewrite (bind_eq _ _ _ tt w' E). reflexivity.
Qed.

(** [get] from a queue that holds items takes the first, at once. *)
Lemma get_some (w : World Item) x rest :
  q_ (self w) = x :: rest ->
  exists w',
    get w = Returns x w' /\
    q_ (self w') = rest /\ same_settings (self w) (self w') /\
    others w' = others w /\ now w' = now w.
Proof.
  intros Eq. unfold get.
  destruct (get_finish_spec (fun i => i) w x rest Eq) as (w' & E & H).
  exists w'. split; [|exact H].
  rewrite (bind_eq _ _ _ tt w); [exact E|].
  apply while_skip. unfold q_empty, q_size. rewrite Eq. reflexivity.
Qed.

Lemma get_timeout_some timeout (w : World Item) x rest :
  q_ (self w) = x :: rest ->
  exists w',
    get_timeout timeout w = Returns (Some x) w' /\
    q_ (self w') = rest /\ same_settings (self w) (self w') /\
    others w' = others w /\ now w' = now w.
Proof.
  intros Eq. unfold get_timeout.
  assert (Hne : q_empty (self w) = false) by (unfold q_empty, q_size; rewrite Eq; reflexivity).
  destruct (timeout <? 0).
  - destruct (get_some w x rest Eq) as (w' & E & H). exists w'. split; [|exact H].
    rewrite (bind_eq _ _ _ x w' E). reflexivity.
  - destruct (get_finish_spec Some w x rest Eq) as (w' & E & H). exists w'. split; [|exact H].
    rewrite (bind_eq _ _ _ (now w) w) by reflexivity.
    rewrite (bind_eq _ _ _ (now w) w); [|apply while_skip; rewrite Hne; reflexivity].
    rewrite (bind_eq _ _ _ false w); [exact E | unfold field, gets; f_equal; exact Hne].
Qed.

Lemma getAll_spec (w : World Item) :
  exists w',
    getAll w = Returns (q_ (self w)) w' /\
    q_ (self w') = [] /\ same_settings (self w) (self w') /\
    others w' = others w /\ now w' = now w.
Proof.
  set (w2 := set_self (set_q_ []) w).
  destruct (issueNotifications_keeps (Z.of_nat (length (q_ (self w)))) 0 w2)
    as (w' & E & Hq & Hs & Ho & Hn).
  exists w'. split; [|auto].
  unfold getAll.
  rewrite (bind_eq _ _ _ (q_ (self w)) w) by reflexivity.
  rewrite (bind_eq _ _ _ tt w2) by reflexivity.
  rewrite (bind_eq _ _ _ tt w' E). reflexivity.
Qed.

Lemma clear_spec (w : World Item) :
  exists w',
    clear w = Returns tt w' /\
    q_ (self w') = [] /\ same_settings (self w) (self w') /\
    others w' = others w /\ now w' = now w.
Proof.
  set (w2 := set_self (set_q_ []) w).
  destruct (issueNotifications_keeps (q_size (self w)) 0 w2)
    as (w' & E & Hq & Hs & Ho & Hn).
  exists w'. split; [|auto].
  unfold clear.
  rewrite (bind_eq _ _ _ (q_size (self w)) w) by reflexivity.
  rewrite (bind_eq _ _ _ tt w2) by reflexivity.
  exact E.
Qed.

(** Items put one after the other queue up in that order. *)
Lemma puts_append (items : list Item) timeout : forall (w : World Item),
  q_size (self w) + Z.of_nat (length items) <= maxSize_ (self w) ->
  exists w',
    calls (map (fun item => Put item timeout) items) w = Returns tt w' /\
    q_ (self w') = q_ (self w) ++ items /\ same_settings (self w) (self w') /\
    others w' = others w /\ now w' = now w.
Proof.
  induction items as [|item items IH]; intros w Hroom.
  - exists w. simpl. rewrite app_nil_r. unfold same_settings. repeat split.
  - cbn [length] in Hroom.
    destruct (put_room item timeout w) as (w1 & E1 & Hq1 & (Hm1 & Hl1 & Hh1) & Ho1 & Hn1); [lia|].
    destruct (IH w1) as (w' & E & Hq & (Hm & Hl & Hh) & Ho & Hn).
    { unfold q_size in *. rewrite Hq1, Hm1, length_app. simpl. lia. }
    exists w'. split; [|split; [|split; [|split]]].
    + cbn [map calls call].
      rewrite (bind_eq _ _ _ tt w1); [exact E|].
      rewrite (bind_eq _ _ _ true w1 E1). reflexivity.
    + rewrite Hq, Hq1, <- app_assoc. reflexivity.
    + unfold same_settings. repeat split; congruence.
    + congruence.
    + congruence.
Qed.

(** X21.  Items that are put into an empty queue, no more of them than
    the maximal size, are all accepted, and they leave in the order they
    were put in: [getAll()] then returns them in that order and empties the
    queue, and [get()] returns the first and leaves the rest in order. *)
Theorem items_leave_in_arrival_order (q : t Item) (time timeout : Z) (items : list Item) :
  q_ q = [] ->
  Z.of_nat (length items) <= maxSize_ q ->
  exists w1 w2,
    calls (map (fun item => Put item timeout) items) (alone q time) = Returns tt w1 /\
    q_ (self w1) = items /\
    getAll w1 = Returns items w2 /\ q_ (self w2) = [] /\
    (forall x rest, items = x :: rest ->
       exists w3, get w1 = Returns x w3 /\ q_ (self w3) = rest).
Proof.
  intros Hq Hlen.
  destruct (puts_append items timeout (alone q time)) as (w1 & E1 & Hq1 & _).
  { unfold q_size. simpl. rewrite Hq. simpl. lia. }
  simpl in Hq1. rewrite Hq in Hq1. simpl in Hq1.
  destruct (getAll_spec w1) as (w2 & E2 & Hq2 & _). rewrite Hq1 in E2.
  exists w1, w2. repeat split; try assumption.
  intros x rest ->. destruct (get_some w1 x rest Hq1) as (w3 & E3 & Hq3 & _). eauto.
Qed.

End QueueAlone.

Lemma items_leave_in_arrival_order_witness :
  exists w1 w2 : Queue.World Z,
    Queue.calls (map (fun item => Queue.Put item (-1)) [7; 8; 9]) (Queue.alone queue_10_2_4 0)
      = Returns tt w1 /\
    Queue.q_ (Queue.self w1) = [7; 8; 9] /\
    Queue.getAll w1 = Returns [7; 8; 9] w2 /\ Queue.q_ (Queue.self w2) = [] /\
    (forall x rest, [7; 8; 9] = x :: rest ->
       exists w3, Queue.get w1 = Returns x w3 /\ Queue.q_ (Queue.self w3) = rest).
Proof.
  apply (items_leave_in_arrival_order queue_10_2_4 0 (-1) [7; 8; 9]).
  - reflexivity.
  - vm_compute. discriminate.
Defined.

(** ** Queue: calls that cannot be served *)

Section QueueWaits.
Context {Item : Type}.
Import Queue.

Lemma time_limit_Some (timeout limit : Z) :
  time_limit timeout = Some limit -> 0 <= timeout /\ limit = to_int timeout /\ 0 <= limit.
Proof.
  unfold time_limit. destruct (timeout <? 0) eqn:E1; [discriminate|].
  destruct (to_int timeout <? 0) eqn:E2; [discriminate|]. intros H. injection H as <-. lia.
Qed.

(** The loop of a timed [put] or [get] on a queue on its own whose
    condition [c] for going on holds: it ends at the deadline. *)
Lemma timed_loop_alone_clock (c invariant : t Item -> bool) cv timeout (w : World Item) :
  (forall q, invariant q = negb (c q)) ->
  others w = [] -> c (self w) = true -> 0 <= timeout < 2 ^ 31 ->
  exists l w1,
    while_ (fun t w0 => c (self w0) && (t <? now w + timeout))
           (fun t => waitForInvariant_ (now w + timeout - t) cv invariant ;; clock)
           (now w) w = Returns l w1 /\
    self w1 = self w /\ others w1 = [] /\ notified w1 = notified w /\
    now w1 = now w + timeout.
Proof.
  intros Hinv Ho Hc Ht.
  destruct (Z.eq_dec timeout 0) as [->|Hne].
  - exists (now w), w. split; [|repeat split; auto; lia].
    apply while_skip. rewrite Hc. simpl. lia.
  - set (w1 := mkWorld (self w) (now w + (now w + timeout - now w)) [] (notified w)
                 (waited w ++ [(cv, now w + timeout - now w)])).
    exists (now w1), w1. split; [|repeat split; auto; simpl; lia].
    unfold while_, rounds. rewrite Ho. simpl. rewrite Hc.
    replace (now w <? now w + timeout) with true by lia. simpl.
    rewrite (bind_eq _ _ _ (now w1) w1).
    + simpl. replace (now w + (now w + timeout - now w) <? now w + timeout) with false by lia.
      rewrite andb_false_r. reflexivity.
    + rewrite (bind_eq _ _ _ false w1); [reflexivity|].
      apply waitForInvariant_times_out; [exact Ho | rewrite Hinv, Hc; reflexivity | lia].
Qed.

(** A wait without time limit for something that does not hold, with no
    other thread, never ends. *)
Lemma waitForInvariant_sleeps timeout cv (invariant : t Item -> bool) (w : World Item) :
  others w = [] -> invariant (self w) = false -> time_limit timeout = None ->
  exists w', waitForInvariant_ timeout cv invariant w = Blocks w'.
Proof.
  intros Ho Hi Hl. eexists. unfold waitForInvariant_.
  apply bind_blocks. unfold while_, rounds. rewrite Ho. simpl. rewrite Hi. simpl.
  unfold bind, Condition_wait. rewrite Ho, Hl. reflexivity.
Qed.

Lemma waitForInvariant_blocks cv (invariant : t Item -> bool) (w : World Item) :
  others w = [] -> invariant (self w) = false ->
  exists w', waitForInvariant_ (-1) cv invariant w = Blocks w'.
Proof. intros Ho Hi. apply waitForInvariant_sleeps; [exact Ho | exact Hi | reflexivity]. Qed.

Lemma untimed_loop_alone_blocks (c invariant : t Item -> bool) cv (w : World Item) :
  (forall q, invariant q = negb (c q)) ->
  others w = [] -> c (self w) = true ->
  exists w',
    while_ (fun _ w0 => c (self w0)) (fun _ => waitForInvariant_ (-1) cv invariant ;; ret tt)
           tt w = Blocks w'.
Proof.
  intros Hinv Ho Hc.
  destruct (waitForInvariant_blocks cv invariant w Ho) as (w' & E).
  { rewrite Hinv, Hc. reflexivity. }
  exists w'. unfold while_, rounds. rewrite Ho. simpl. rewrite Hc.
  apply bind_blocks. apply bind_blocks. exact E.
Qed.

(** On a full queue on its own, [put] with a timeout from 0 to
    2^31 - 1 ms returns false when the timeout has run out. *)
Lemma put_full_times_out (item : Item) (timeout : Z) (w : World Item) :
  others w = [] ->
  maxSize_ (self w) <= q_size (self w) ->
  0 <= timeout < 2 ^ 31 ->
  exists w',
    put item timeout w = Returns false w' /\
    self w' = self w /\ notified w' = notified w /\ now w' = now w + timeout.
Proof.
  intros Ho Hfull Ht. unfold put, executePut_. replace (timeout <? 0) with false by lia.
  rewrite (bind_eq _ _ _ (now w) w) by reflexivity.
  destruct (timed_loop_alone_clock (fun q => maxSize_ q <=? q_size q)
              (fun q => q_size q <? maxSize_ q) notFullCv_ timeout w)
    as (l & w1 & E & Hs & _ & Hn & Hc); [intros q; lia | exact Ho | lia | lia |].
  exists w1. split; [|auto].
  unfold waitUntilNotFull_. rewrite (bind_eq _ _ _ l w1 E).
  rewrite (bind_eq _ _ _ true w1); [reflexivity|].
  unfold field, gets. f_equal. rewrite Hs. lia.
Qed.

(** With a negative timeout it waits for good. *)
Lemma put_full_blocks (item : Item) (timeout : Z) (w : World Item) :
  others w = [] ->
  maxSize_ (self w) <= q_size (self w) ->
  timeout < 0 ->
  exists w', put item timeout w = Blocks w'.
Proof.
  intros Ho Hfull Ht. unfold put, executePut_. replace (timeout <? 0) with true by lia.
  destruct (untimed_loop_alone_blocks (fun q => maxSize_ q <=? q_size q)
              (fun q => q_size q <? maxSize_ q) notFullCv_ w)
    as (w' & E); [intros q; lia | exact Ho | lia |].
  exists w'. apply bind_blocks. exact E.
Qed.

(** On an empty queue on its own, [get(result, timeout)] with a timeout
    from 0 to 2^31 - 1 ms returns false when the timeout has run out. *)
Lemma get_empty_times_out (timeout : Z) (w : World Item) :
  others w = [] ->
  q_ (self w) = [] ->
  0 <= timeout < 2 ^ 31 ->
  exists w',
    get_timeout timeout w = Returns None w' /\
    self w' = self w /\ notified w' = notified w /\ now w' = now w + timeout.
Proof.
  intros Ho Hq Ht.
  assert (He : q_empty (self w) = true) by (unfold q_empty, q_size; rewrite Hq; reflexivity).
  unfold get_timeout. replace (timeout <? 0) with false by lia.
  rewrite (bind_eq _ _ _ (now w) w) by reflexivity.
  destruct (timed_loop_alone_clock q_empty (fun q => negb (q_empty q)) notEmptyCv_ timeout w)
    as (l & w1 & E & Hs & _ & Hn & Hc); [reflexivity | exact Ho | exact He | lia |].
  exists w1. split; [|auto].
  unfold waitUntilNotEmpty_. rewrite (bind_eq _ _ _ l w1 E).
  rewrite (bind_eq _ _ _ true w1); [reflexivity|].
  unfold field, gets. f_equal. rewrite Hs. exact He.
Qed.

(** [get()] waits for good. *)
Lemma get_empty_blocks (w : World Item) :
  others w = [] ->
  q_ (self w) = [] ->
  exists w', get w = Blocks w'.
Proof.
  intros Ho Hq.
  assert (He : q_empty (self w) = true) by (unfold q_empty, q_size; rewrite Hq; reflexivity).
  destruct (untimed_loop_alone_blocks q_empty (fun q => negb (q_empty q)) notEmptyCv_ w)
    as (w' & E); [reflexivity | exact Ho | exact He |].
  exists w'. unfold get. apply bind_blocks. exact E.
Qed.

(** X22.  [put] on a full queue on its own does not store the item.
    With a timeout from 0 to 2^31 - 1 ms, a call that returns returns
    false, when the timeout has run out and not before, with the queue as
    it was and nothing notified; [tryEmplace], which returns nothing, then
    returns in the same state, without a sign that the item was dropped.
    With a negative timeout [put] does not return, and [emplace] does
    not. *)
Theorem full_queue_refuses_put (item : Item) (timeout : Z) (w : World Item) :
  others w = [] ->
  maxSize_ (self w) <= q_size (self w) ->
  (0 <= timeout < 2 ^ 31 ->
   forall b w',
     put item timeout w = Returns b w' ->
     b = false /\ self w' = self w /\ notified w' = notified w /\
     now w' = now w + timeout /\
     tryEmplace timeout item w = Returns tt w') /\
  (timeout < 0 -> forall b w', put item timeout w <> Returns b w') /\
  (forall w', emplace item w <> Returns tt w').
Proof.
  intros Ho Hfull. split; [|split].
  - intros Ht b w' H.
    destruct (put_full_times_out item timeout w Ho Hfull Ht) as (w1 & E & Hs & Hn & Hc).
    rewrite E in H. injection H as <- <-.
    repeat (split; [first [reflexivity | assumption]|]).
    unfold tryEmplace. rewrite (bind_eq _ _ _ false w1 E). reflexivity.
  - intros Ht b w' H.
    destruct (put_full_blocks item timeout w Ho Hfull Ht) as (w0 & E).
    rewrite E in H. discriminate.
  - intros w' H. unfold emplace in H.
    destruct (put_full_blocks item (-1) w Ho Hfull) as (w0 & E); [lia|].
    rewrite (bind_blocks _ _ _ _ E) in H. discriminate.
Qed.

(** X23.  [get(result, timeout)] on an empty queue on its own yields no
    item.  With a timeout from 0 to 2^31 - 1 ms, a call that returns
    returns false, when the timeout has run out and not before, with the
    queue as it was and nothing notified.  With a negative timeout the call
    does not return, and [get()] does not. *)
Theorem empty_queue_refuses_get (timeout : Z) (w : World Item) :
  others w = [] ->
  q_ (self w) = [] ->
  (0 <= timeout < 2 ^ 31 ->
   forall r w',
     get_timeout timeout w = Returns r w' ->
     r = None /\ self w' = self w /\ notified w' = notified w /\
     now w' = now w + timeout) /\
  (timeout < 0 -> forall r w', get_timeout timeout w <> Returns r w') /\
  (forall item w', get w <> Returns item w').
Proof.
  intros Ho Hq. split; [|split].
  - intros Ht r w' H.
    destruct (get_empty_times_out timeout w Ho Hq Ht) as (w1 & E & Hs & Hn & Hc).
    rewrite E in H. injection H as <- <-. repeat split; assumption.
  - intros Ht r w' H. unfold get_timeout in H.
    replace (timeout <? 0) with true in H by lia.
    destruct (get_empty_blocks w Ho Hq) as (w0 & E).
    rewrite (bind_blocks _ _ _ _ E) in H. discriminate.
  - intros item w' H. destruct (get_empty_blocks w Ho Hq) as (w0 & E).
    rewrite E in H. discriminate.
Qed.

End QueueWaits.

Lemma full_queue_refuses_put_witness :
  (forall b (w' : Queue.World Z),
     Queue.put 9 50 (Queue.alone full_queue_of_one 0) = Returns b w' ->
     b = false /\
     Queue.self w' = Queue.self (Queue.alone full_queue_of_one 0) /\
     Queue.notified w' = Queue.notified (Queue.alone full_queue_of_one 0) /\
     Queue.now w' = Queue.now (Queue.alone full_queue_of_one 0) + 50 /\
     Queue.tryEmplace 50 9 (Queue.alone full_queue_of_one 0) = Returns tt w') /\
  (forall b (w' : Queue.World Z),
     Queue.put 9 (-1) (Queue.alone full_queue_of_one 0) <> Returns b w') /\
  (forall w' : Queue.World Z, Queue.emplace 9 (Queue.alone full_queue_of_one 0) <> Returns tt w').
Proof.
  assert (Hfull : Queue.maxSize_ (Queue.self (Queue.alone full_queue_of_one 0))
                  <= Queue.q_size (Queue.self (Queue.alone full_queue_of_one 0)))
    by (vm_compute; discriminate).
  split; [|split].
  - apply (proj1 (full_queue_refuses_put 9 50 (Queue.alone full_queue_of_one 0) eq_refl Hfull)).
    lia.
  - apply (proj1 (proj2 (full_queue_refuses_put 9 (-1) (Queue.alone full_queue_of_one 0)
                           eq_refl Hfull))).
    lia.
  - apply (proj2 (proj2 (full_queue_refuses_put 9 50 (Queue.alone full_queue_of_one 0)
                           eq_refl Hfull))).
Defined.

Lemma empty_queue_refuses_get_witness :
  (forall r (w' : Queue.World Z),
     Queue.get_timeout 50 (Queue.alone queue_of_one 0) = Returns r w' ->
     r = None /\
     Queue.self w' = Queue.self (Queue.alone queue_of_one 0) /\
     Queue.notified w' = Queue.notified (Queue.alone queue_of_one 0) /\
     Queue.now w' = Queue.now (Queue.alone queue_of_one 0) + 50) /\
  (forall r (w' : Queue.World Z),
     Queue.get_timeout (-1) (Queue.alone queue_of_one 0) <> Returns r w') /\
  (forall item (w' : Queue.World Z), Queue.get (Queue.alone queue_of_one 0) <> Returns item w').
Proof.
  split; [|split].
  - apply (proj1 (empty_queue_refuses_get 50 (Queue.alone queue_of_one 0) eq_refl eq_refl)).
    lia.
  - apply (proj1 (proj2 (empty_queue_refuses_get (-1) (Queue.alone queue_of_one 0)
                           eq_refl eq_refl))).
    lia.
  - apply (proj2 (proj2 (empty_queue_refuses_get 50 (Queue.alone queue_of_one 0)
                           eq_refl eq_refl))).
Defined.

Section QueueOverrun.
Context {Item : Type}.
Import Queue.

(** A wait that is woken before its timeout while the invariant still
    does not hold waits again, for the whole timeout. *)
Lemma waitForInvariant_woken_in_vain timeout cv (invariant : t Item -> bool)
    (w : World Item) (a : Arrival Item) :
  others w = [a] -> invariant (self w) = false -> invariant (leaves a) = false ->
  0 <= delay a < timeout -> timeout < 2 ^ 31 ->
  waitForInvariant_ timeout cv invariant w =
    Returns false (mkWorld (leaves a) (now w + delay a + timeout) [] (notified w)
                           ((waited w ++ [(cv, timeout)]) ++ [(cv, timeout)])).
Proof.
  intros Ho Hi Ha Hd Ht. unfold waitForInvariant_.
  assert (Hl : time_limit timeout = Some timeout) by (apply time_limit_small; lia).
  erewrite bind_eq; cycle 1.
  { unfold while_, rounds. rewrite Ho. cbn [length loop]. rewrite Hi. cbn [negb andb].
    unfold bind at 1. unfold Condition_wait at 1. rewrite Ho, Hl.
    replace (delay a <? timeout) with true by lia.
    cbn [loop self]. rewrite Ha. cbn [negb andb].
    unfold bind at 1. unfold Condition_wait at 1. cbn [others]. rewrite Hl.
    cbn [loop self]. rewrite Ha. cbn [negb andb]. reflexivity. }
  unfold field, gets. cbn [self]. rewrite Ha. reflexivity.
Qed.

Lemma timed_loop_overrun (c invariant : t Item -> bool) cv timeout (w : World Item)
    (a : Arrival Item) :
  (forall q, invariant q = negb (c q)) ->
  others w = [a] -> c (self w) = true -> c (leaves a) = true ->
  0 <= delay a < timeout -> timeout < 2 ^ 31 ->
  exists l,
    while_ (fun t w0 => c (self w0) && (t <? now w + timeout))
           (fun t => waitForInvariant_ (now w + timeout - t) cv invariant ;; clock)
           (now w) w =
      Returns l (mkWorld (leaves a) (now w + delay a + timeout) [] (notified w)
                         ((waited w ++ [(cv, timeout)]) ++ [(cv, timeout)])).
Proof.
  intros Hinv Ho Hc Ha Hd Ht.
  set (w1 := mkWorld (leaves a) (now w + delay a + timeout) [] (notified w)
               ((waited w ++ [(cv, timeout)]) ++ [(cv, timeout)])).
  exists (now w1).
  unfold while_, rounds. rewrite Ho. cbn [length loop]. rewrite Hc.
  replace (now w <? now w + timeout) with true by lia. cbn [andb].
  replace (now w + timeout - now w) with timeout by lia.
  rewrite (bind_eq _ _ _ (now w1) w1).
  - cbn [loop]. unfold w1 at 1 2. cbn [self now]. rewrite Ha.
    replace (now w + delay a + timeout <? now w + timeout) with false by lia.
    reflexivity.
  - rewrite (bind_eq _ _ _ false w1); [reflexivity|].
    apply waitForInvariant_woken_in_vain; [exact Ho | | | lia | lia].
    + rewrite Hinv, Hc. reflexivity.
    + rewrite Hinv, Ha. reflexivity.
Qed.

(** In the world of this file, in which a wait gets its descriptors, the
    two calls do return. *)
Lemma put_woken_in_vain (item : Item) (timeout : Z) (w : World Item) (a : Arrival Item) :
  others w = [a] ->
  0 <= delay a < timeout ->
  timeout < 2 ^ 31 ->
  maxSize_ (self w) <= q_size (self w) ->
  maxSize_ (leaves a) <= q_size (leaves a) ->
  put item timeout w =
    Returns false (mkWorld (leaves a) (now w + delay a + timeout) [] (notified w)
                     ((waited w ++ [(notFullCv_, timeout)]) ++ [(notFullCv_, timeout)])).
Proof.
  intros Ho Hd Ht Hfull Ha. unfold put, executePut_.
  replace (timeout <? 0) with false by lia.
  rewrite (bind_eq _ _ _ (now w) w) by reflexivity.
  destruct (timed_loop_overrun (fun q => maxSize_ q <=? q_size q)
              (fun q => q_size q <? maxSize_ q) notFullCv_ timeout w a)
    as (l & E); [intros q; lia | exact Ho | lia | lia | lia | lia |].
  unfold waitUntilNotFull_. rewrite (bind_eq _ _ _ _ _ E).
  erewrite bind_eq; cycle 1.
  { unfold field, gets. cbn [self]. reflexivity. }
  replace (maxSize_ (leaves a) <=? q_size (leaves a)) with true by lia. reflexivity.
Qed.

Lemma get_woken_in_vain (timeout : Z) (w : World Item) (a : Arrival Item) :
  others w = [a] ->
  0 <= delay a < timeout ->
  timeout < 2 ^ 31 ->
  q_ (self w) = [] ->
  q_ (leaves a) = [] ->
  get_timeout timeout w =
    Returns None (mkWorld (leaves a) (now w + delay a + timeout) [] (notified w)
                    ((waited w ++ [(notEmptyCv_, timeout)]) ++ [(notEmptyCv_, timeout)])).
Proof.
  intros Ho Hd Ht Hq Ha. unfold get_timeout.
  replace (timeout <? 0) with false by lia.
  rewrite (bind_eq _ _ _ (now w) w) by reflexivity.
  assert (He : q_empty (self w) = true) by (unfold q_empty, q_size; rewrite Hq; reflexivity).
  assert (Hea : q_empty (leaves a) = true) by (unfold q_empty, q_size; rewrite Ha; reflexivity).
  destruct (timed_loop_overrun q_empty (fun q => negb (q_empty q)) notEmptyCv_ timeout w a)
    as (l & E); [reflexivity | exact Ho | exact He | exact Hea | lia | lia |].
  unfold waitUntilNotEmpty_. rewrite (bind_eq _ _ _ _ _ E).
  erewrite bind_eq; cycle 1.
  { unfold field, gets. cbn [self]. reflexivity. }
  rewrite Hea. reflexivity.
Qed.

(** X24.  A timed [put] on a full queue, with a timeout below 2^31 ms,
    whose wait is ended by a notification before the timeout, at a moment
    when the queue is full again, waits once more, for the whole timeout and
    not for what is left of it: if the call returns, it returns false
    [timeout] ms after the notification, and so after its deadline when the
    notification did not come at once, having waited twice on the
    not-full condition with the whole timeout.  The same holds of a timed
    [get] on an empty queue that is empty again when it is notified. *)
Theorem timed_calls_overrun_when_woken_in_vain (item : Item) (timeout : Z) (w : World Item)
    (a : Arrival Item) :
  others w = [a] ->
  0 <= delay a < timeout ->
  timeout < 2 ^ 31 ->
  (maxSize_ (self w) <= q_size (self w) ->
   maxSize_ (leaves a) <= q_size (leaves a) ->
   forall b w',
     put item timeout w = Returns b w' ->
     b = false /\ self w' = leaves a /\ notified w' = notified w /\
     now w' = now w + delay a + timeout /\
     waited w' = (waited w ++ [(notFullCv_, timeout)]) ++ [(notFullCv_, timeout)]) /\
  (q_ (self w) = [] ->
   q_ (leaves a) = [] ->
   forall r w',
     get_timeout timeout w = Returns r w' ->
     r = None /\ self w' = leaves a /\ notified w' = notified w /\
     now w' = now w + delay a + timeout /\
     waited w' = (waited w ++ [(notEmptyCv_, timeout)]) ++ [(notEmptyCv_, timeout)]).
Proof.
  intros Ho Hd Ht. split.
  - intros Hfull Ha b w' H.
    rewrite (put_woken_in_vain item timeout w a Ho Hd Ht Hfull Ha) in H.
    injection H as <- <-. repeat split.
  - intros Hq Ha r w' H.
    rewrite (get_woken_in_vain timeout w a Ho Hd Ht Hq Ha) in H.
    injection H as <- <-. repeat split.
Qed.

End QueueOverrun.

Lemma timed_calls_overrun_when_woken_in_vain_witness :
  (forall b (w' : Queue.World Z),
     Queue.put 9 100 (Queue.mkWorld full_queue_of_one 0 [Queue.mkArrival 60 full_queue_of_one] [] [])
       = Returns b w' ->
     b = false /\ Queue.self w' = full_queue_of_one /\ Queue.notified w' = [] /\
     Queue.now w' = 0 + 60 + 100 /\
     Queue.waited w' = ([] ++ [(Queue.notFullCv_, 100)]) ++ [(Queue.notFullCv_, 100)]) /\
  (forall r (w' : Queue.World Z),
     Queue.get_timeout 100 (Queue.mkWorld queue_of_one 0 [Queue.mkArrival 60 queue_of_one] [] [])
       = Returns r w' ->
     r = None /\ Queue.self w' = queue_of_one /\ Queue.notified w' = [] /\
     Queue.now w' = 0 + 60 + 100 /\
     Queue.waited w' = ([] ++ [(Queue.notEmptyCv_, 100)]) ++ [(Queue.notEmptyCv_, 100)]).
Proof.
  split.
  - apply (timed_calls_overrun_when_woken_in_vain 9 100
             (Queue.mkWorld full_queue_of_one 0 [Queue.mkArrival 60 full_queue_of_one] [] [])
             (Queue.mkArrival 60 full_queue_of_one)).
    + reflexivity.
    + simpl. lia.
    + lia.
    + vm_compute. discriminate.
    + vm_compute. discriminate.
  - apply (timed_calls_overrun_when_woken_in_vain 9 100
             (Queue.mkWorld queue_of_one 0 [Queue.mkArrival 60 queue_of_one] [] [])
             (Queue.mkArrival 60 queue_of_one)).
    + reflexivity.
    + simpl. lia.
    + lia.
    + reflexivity.
    + reflexivity.
Defined.

(** ** Queue: waiting for an event *)

Section QueueWaitForEvent.
Context {Item : Type}.
Import Queue.

(** Whatever the other threads do, the result of a wait is the invariant
    as it is when the wait returns. *)
Lemma waitForInvariant_result timeout cv (invariant : t Item -> bool) (w w' : World Item) b :
  waitForInvariant_ timeout cv invariant w = Returns b w' -> b = invariant (self w').
Proof.
  unfold waitForInvariant_. intros H.
  apply bind_Returns in H as (haveTime & w1 & _ & H).
  apply gets_Returns in H as [-> ->]. reflexivity.
Qed.

Lemma waitForInvariant_holds timeout cv (invariant : t Item -> bool) (w : World Item) :
  invariant (self w) = true -> waitForInvariant_ timeout cv invariant w = Returns true w.
Proof.
  intros Hi. unfold waitForInvariant_.
  rewrite (bind_eq _ _ _ true w); [|apply while_skip; rewrite Hi; reflexivity].
  unfold field, gets. rewrite Hi. reflexivity.
Qed.

(** What [wait] returns is the state when it returns. *)
Lemma wait_result (timeout : Z) (eventType : QueueEventType) (w w' : World Item)
    (b : bool) :
  wait timeout eventType w = Returns b w' ->
  (b = true -> holds eventType (self w') = true) /\
  (is_size_event eventType = true -> b = holds eventType (self w')).
Proof.
  intros H. destruct eventType; simpl in H |- *;
    try (apply waitForInvariant_result in H; unfold q_empty in H; subst b;
         split; [intros E; exact E | intros _; reflexivity]).
  - unfold waitUntilHighWaterMark_ in H.
    apply bind_Returns in H as (start & w0 & _ & H).
    apply bind_Returns in H as (ok & w1 & _ & H).
    destruct (negb ok).
    + apply ret_Returns in H as [-> ->]. split; [discriminate | discriminate].
    + apply bind_Returns in H as (t1 & w2 & _ & H).
      apply waitForInvariant_result in H. subst b. split; [intros E; exact E | discriminate].
  - unfold waitUntilLowWaterMark_ in H.
    apply bind_Returns in H as (start & w0 & _ & H).
    apply bind_Returns in H as (ok & w1 & _ & H).
    destruct (negb ok).
    + apply ret_Returns in H as [-> ->]. split; [discriminate | discriminate].
    + apply bind_Returns in H as (t1 & w2 & _ & H).
      apply waitForInvariant_result in H. subst b. split; [intros E; exact E | discriminate].
Qed.

(** [wait] for a state that holds returns at once. *)
Lemma wait_holds (timeout : Z) (eventType : QueueEventType)
    (w : World Item) :
  is_size_event eventType = true ->
  holds eventType (self w) = true ->
  wait timeout eventType w = Returns true w.
Proof.
  intros Hev Hh. destruct eventType; try discriminate; simpl in *;
    apply waitForInvariant_holds; unfold q_empty; exact Hh.
Qed.

(** X27.  Whatever the other threads do, a [wait] that returns true
    returns in a state in which the event's condition holds (size above the
    high-water mark for HIGH_WATER_MARK, size at most the low-water mark for
    LOW_WATER_MARK), and for EMPTY, NOT_EMPTY, FULL and NOT_FULL the result
    is the truth of the condition in the state on return also when it is
    false.  For these four, a [wait] in a state in which the condition holds
    returns true at once, without waiting and with nothing changed. *)
Theorem wait_reports_the_state (timeout : Z) (eventType : QueueEventType) (w : World Item) :
  (forall b w',
     wait timeout eventType w = Returns b w' ->
     (b = true -> holds eventType (self w') = true) /\
     (is_size_event eventType = true -> b = holds eventType (self w'))) /\
  (is_size_event eventType = true ->
   holds eventType (self w) = true ->
   wait timeout eventType w = Returns true w).
Proof.
  split.
  - intros b w'. apply wait_result.
  - apply wait_holds.
Qed.

(** X28.  [wait(timeout, LOW_WATER_MARK)] first waits for the latch to be
    set, and [wait(timeout, HIGH_WATER_MARK)] for it to be clear.  On a
    queue on its own whose latch is clear, the first never returns true,
    whatever the size is, also when it is at most the low-water mark: if it
    returns, it returns false, the timeout is not negative and not negative
    as an int either, and the call returns when that many ms have passed,
    with the queue as it was and nothing notified.  With the latch set the
    same holds of the second, also when the size is above the high-water
    mark. *)
Theorem watermark_waits_need_a_crossing (timeout : Z) (w : World Item) :
  others w = [] ->
  (highWaterCrossed_ (self w) = false ->
   forall b w',
     wait timeout LOW_WATER_MARK w = Returns b w' ->
     b = false /\ 0 <= timeout /\ 0 <= to_int timeout /\
     now w' = now w + to_int timeout /\
     self w' = self w /\ notified w' = notified w) /\
  (highWaterCrossed_ (self w) = true ->
   forall b w',
     wait timeout HIGH_WATER_MARK w = Returns b w' ->
     b = false /\ 0 <= timeout /\ 0 <= to_int timeout /\
     now w' = now w + to_int timeout /\
     self w' = self w /\ notified w' = notified w).
Proof.
  intros Ho.
  assert (Hfirst : forall cv (invariant : t Item -> bool),
            invariant (self w) = false ->
            (exists w0, waitForInvariant_ timeout cv invariant w = Blocks w0) \/
            (0 <= timeout /\ 0 <= to_int timeout /\
             waitForInvariant_ timeout cv invariant w =
               Returns false (mkWorld (self w) (now w + to_int timeout) [] (notified w)
                                      (waited w ++ [(cv, timeout)])))).
  { intros cv invariant Hi. destruct (time_limit timeout) as [limit|] eqn:El.
    - right. destruct (time_limit_Some _ _ El) as (H0 & -> & H1).
      repeat split; [exact H0 | exact H1 |].
      apply waitForInvariant_runs_out; [exact Ho | exact Hi | exact El].
    - left. apply waitForInvariant_sleeps; [exact Ho | exact Hi | exact El]. }
  split; intros Hl b w' H; simpl in H.
  - unfold waitUntilLowWaterMark_ in H.
    rewrite (bind_eq _ _ _ (now w) w) in H by reflexivity.
    destruct (Hfirst highWaterMarkCv_ (fun q => highWaterCrossed_ q) Hl)
      as [(w0 & E) | (H0 & H1 & E)].
    + rewrite (bind_blocks _ _ _ _ E) in H. discriminate.
    + rewrite (bind_eq _ _ _ _ _ E) in H. cbn [negb] in H.
      injection H as <- <-. repeat split; assumption.
  - unfold waitUntilHighWaterMark_ in H.
    rewrite (bind_eq _ _ _ (now w) w) in H by reflexivity.
    destruct (Hfirst lowWaterMarkCv_ (fun q => negb (highWaterCrossed_ q)))
      as [(w0 & E) | (H0 & H1 & E)]; [rewrite Hl; reflexivity | |].
    + rewrite (bind_blocks _ _ _ _ E) in H. discriminate.
    + rewrite (bind_eq _ _ _ _ _ E) in H. cbn [negb] in H.
      injection H as <- <-. repeat split; assumption.
Qed.

End QueueWaitForEvent.

Lemma wait_reports_the_state_witness :
  (forall b (w' : Queue.World Z),
     Queue.wait 10 Queue.NOT_FULL (Queue.alone full_queue_of_one 0) = Returns b w' ->
     (b = true -> holds Queue.NOT_FULL (Queue.self w') = true) /\
     (is_size_event Queue.NOT_FULL = true -> b = holds Queue.NOT_FULL (Queue.self w'))) /\
  Queue.wait 10 Queue.FULL (Queue.alone full_queue_of_one 0)
    = Returns true (Queue.alone full_queue_of_one 0).
Proof.
  split.
  - apply (proj1 (wait_reports_the_state 10 Queue.NOT_FULL (Queue.alone full_queue_of_one 0))).
  - apply (proj2 (wait_reports_the_state 10 Queue.FULL (Queue.alone full_queue_of_one 0)));
      reflexivity.
Defined.

Lemma watermark_waits_need_a_crossing_witness :
  (forall b (w' : Queue.World Z),
     Queue.wait 100 Queue.LOW_WATER_MARK (Queue.alone queue_10_2_4 0) = Returns b w' ->
     b = false /\ 0 <= 100 /\ 0 <= to_int 100 /\
     Queue.now w' = Queue.now (Queue.alone queue_10_2_4 0) + to_int 100 /\
     Queue.self w' = Queue.self (Queue.alone queue_10_2_4 0) /\
     Queue.notified w' = Queue.notified (Queue.alone queue_10_2_4 0)) /\
  (forall b (w' : Queue.World Z),
     Queue.wait 100 Queue.HIGH_WATER_MARK (Queue.alone past_high_water 0) = Returns b w' ->
     b = false /\ 0 <= 100 /\ 0 <= to_int 100 /\
     Queue.now w' = Queue.now (Queue.alone past_high_water 0) + to_int 100 /\
     Queue.self w' = Queue.self (Queue.alone past_high_water 0) /\
     Queue.notified w' = Queue.notified (Queue.alone past_high_water 0)).
Proof.
  split.
  - apply (proj1 (watermark_waits_need_a_crossing 100 (Queue.alone queue_10_2_4 0) eq_refl)).
    reflexivity.
  - apply (proj2 (watermark_waits_need_a_crossing 100 (Queue.alone past_high_water 0) eq_refl)).
    reflexivity.
Defined.

(** ** Queue: move assignment *)

Section QueueMoveAssign.
Context {Item : Type}.
Import Queue.

(** X26.  Move assignment of a queue to itself changes nothing.  Move
    assignment from another queue, whose size is within its maximal size,
    which is not 0: the target has the items, the marks, the maximal size
    and the latch of the source, it keeps its own toggle descriptor, and its
    toggle is in step with its size; the source is left empty, with its
    marks, with the latch clear and with its toggle in step with its
    size. *)
Theorem move_assignment_hands_over (self other : Z) (heap : gmap Z (t Item)) (a b : t Item) :
  heap !! self = Some a ->
  heap !! other = Some b ->
  0 < maxSize_ b ->
  q_size b <= maxSize_ b ->
  move_assign self self heap = heap /\
  (self <> other ->
   exists a' b',
     move_assign self other heap = <[self := a']> (<[other := b']> heap) /\
     q_ a' = q_ b /\
     same_settings b a' /\
     highWaterCrossed_ a' = highWaterCrossed_ b /\
     ReadWriteToggle.fd (queueState_ a') = ReadWriteToggle.fd (queueState_ a) /\
     encodes_size a' /\
     q_ b' = [] /\
     same_settings b b' /\
     highWaterCrossed_ b' = false /\
     ReadWriteToggle.fd (queueState_ b') = ReadWriteToggle.fd (queueState_ b) /\
     encodes_size b').
Proof.
  intros Ha Hb Hmax Hsz. split.
  - unfold move_assign. rewrite Z.eqb_refl. reflexivity.
  - intros Hne. unfold move_assign. replace (self =? other) with false by lia. cbn [negb].
    rewrite Ha, Hb.
    pose proof (move_assign_body_spec a b Hsz) as Hspec.
    destruct (move_assign_body a b) as [a' b'] eqn:E.
    destruct Hspec as (Hq & Hl & Hst & Hq' & Hl' & Hst').
    exists a', b'. split; [reflexivity|].
    assert (Hflds : same_settings b a' /\ same_settings b b' /\
              ReadWriteToggle.fd (queueState_ a') = ReadWriteToggle.fd (queueState_ a) /\
              ReadWriteToggle.fd (queueState_ b') = ReadWriteToggle.fd (queueState_ b)).
    { unfold move_assign_body in E. injection E as <- <-. unfold same_settings. simpl.
      rewrite !setState_fd. repeat split. }
    destruct Hflds as (Hsa & Hsb & Hfa & Hfb).
    split; [exact Hq|]. split; [exact Hsa|]. split; [exact Hl|]. split; [exact Hfa|].
    split.
    { apply encodes_size_expected; [|exact Hst].
      destruct Hsa as (Ea & _). rewrite Ea. exact Hmax. }
    split; [exact Hq'|]. split; [exact Hsb|]. split; [exact Hl'|]. split; [exact Hfb|].
    apply encodes_size_expected.
    + destruct Hsb as (Eb & _). rewrite Eb. exact Hmax.
    + rewrite Hst'. unfold expected_state, q_size. rewrite Hq'. reflexivity.
Qed.

End QueueMoveAssign.

Lemma move_assignment_hands_over_witness :
  Queue.move_assign 1 1 (<[1 := queue_of_two]> {[2 := above_low_water]})
    = <[1 := queue_of_two]> {[2 := above_low_water]} /\
  (1 <> 2 ->
   exists a' b',
     Queue.move_assign 1 2 (<[1 := queue_of_two]> {[2 := above_low_water]})
       = <[1 := a']> (<[2 := b']> (<[1 := queue_of_two]> {[2 := above_low_water]})) /\
     Queue.q_ a' = Queue.q_ above_low_water /\
     same_settings above_low_water a' /\
     Queue.highWaterCrossed_ a' = Queue.highWaterCrossed_ above_low_water /\
     ReadWriteToggle.fd (Queue.queueState_ a') = ReadWriteToggle.fd (Queue.queueState_ queue_of_two) /\
     Queue.encodes_size a' /\
     Queue.q_ b' = [] /\
     same_settings above_low_water b' /\
     Queue.highWaterCrossed_ b' = false /\
     ReadWriteToggle.fd (Queue.queueState_ b') = ReadWriteToggle.fd (Queue.queueState_ above_low_water) /\
     Queue.encodes_size b').
Proof.
  apply (move_assignment_hands_over 1 2 (<[1 := queue_of_two]> {[2 := above_low_water]})
           queue_of_two above_low_water).
  - reflexivity.
  - reflexivity.
  - vm_compute. reflexivity.
  - vm_compute. discriminate.
Defined.

(** ** Queue: observers and guards *)

Section QueueGuards.
Import Queue.

Lemma member_set_same cv c cs : member cv (set_member cv c cs) = c.
Proof. destruct cv; reflexivity. Qed.

Lemma member_set_other cv cv' c cs : cv' <> cv -> member cv' (set_member cv c cs) = member cv' cs.
Proof. destruct cv, cv'; intros H; try reflexivity; congruence. Qed.

Lemma set_member_same cv cs : set_member cv (member cv cs) cs = cs.
Proof. destruct cv, cs; reflexivity. Qed.

Lemma selectCv_inj e e' : selectCv_ e = selectCv_ e' -> e = e'.
Proof. destruct e, e'; simpl; intros H; try reflexivity; discriminate. Qed.

(** X30.  Move assignment of a Queue::Guard does not assign the event
    type.  A guard for the event [t2] of a queue, assigned to a guard that is
    not active and was made for another event [t1], leaves that guard
    active, with the descriptor of the observer and with the event [t1]:
    its [ack()] and its [stop()] address the condition of [t1], which does
    not know the descriptor, and throw NoSuchItem, with the conditions and
    the kernel as they were. *)
Theorem guard_assignment_keeps_event_type (queue : Z) (t1 t2 : QueueEventType)
    (k : Kernel.t) (cs : Conditions) :
  conditions_consistent k cs ->
  Kernel.lowest_free (Kernel.files k) < Kernel.nofile k ->
  t1 <> t2 ->
  exists g2 st,
    Guard_ctor queue t2 (k, cs) = Returns g2 st /\
    let g1 := fst (Guard_move_assign (mkGuard None t1 (-1)) g2) in
    Guard_active g1 = true /\
    Guard_fd g1 = Guard_fd g2 /\
    guard_t_ g1 = t1 /\
    Guard_active (snd (Guard_move_assign (mkGuard None t1 (-1)) g2)) = false /\
    Guard_ack g1 st = Throws NoSuchItem st /\
    Guard_stop g1 st = Throws NoSuchItem st.
Proof.
  intros Hc Hfree Hne.
  set (fd := Kernel.lowest_free (Kernel.files k)).
  set (cv2 := selectCv_ t2). set (cv1 := selectCv_ t1).
  assert (Hcv : cv1 <> cv2) by (intros E; apply Hne, selectCv_inj, E).
  pose proof (observe_spec k (member cv2 cs) (Hc cv2) Hfree) as Hobs. cbv zeta in Hobs.
  fold fd in Hobs.
  set (k1 := Kernel.set_files (<[fd := Kernel.EventFd 0 true]> (Kernel.files k)) k) in *.
  set (c2 := Condition.mk (Condition.queue_ (member cv2 cs) ++ [Semaphore.mk fd])
               (<[fd := Semaphore.mk fd]> (Condition.observers_ (member cv2 cs)))
               (Condition.callers (member cv2 cs))) in *.
  exists (mkGuard (Some queue) t2 fd), (k1, set_member cv2 c2 cs).
  split.
  { unfold Guard_ctor. erewrite bind_eq; [reflexivity|].
    unfold observe, on_member. fold cv2. rewrite Hobs. reflexivity. }
  cbv zeta. unfold Guard_move_assign. simpl.
  assert (Hnone : Condition.observers_ (member cv1 (set_member cv2 c2 cs)) !! fd = None).
  { rewrite member_set_other by exact Hcv.
    destruct (Hc cv1) as [_ Ho]. cbn [fst snd] in Ho.
    destruct (Condition.observers_ (member cv1 cs) !! fd) as [s|] eqn:E; [|reflexivity].
    destruct (Ho fd s E) as [Efd (n & Hn & _)]. rewrite Efd in Hn.
    pose proof (lowest_free_fresh (Kernel.files k)) as Hfresh. fold fd in Hfresh. congruence. }
  repeat split.
  - unfold Guard_ack, ack, on_member. simpl. fold cv1.
    unfold Condition.ack, Condition.lookup_, bind, this. rewrite Hnone.
    unfold throw. rewrite set_member_same. reflexivity.
  - unfold Guard_stop, stopObserving, on_member, bind. simpl. fold cv1.
    unfold Condition.stopObserving, Condition.lookup_, bind, this. rewrite Hnone.
    unfold throw. rewrite set_member_same. reflexivity.
Qed.

End QueueGuards.

Lemma new_conditions_consistent : conditions_consistent boot new_conditions.
Proof.
  intros cv. destruct cv; apply reachable_consistent, (reachable_ctor boot).
Qed.

Lemma guard_assignment_keeps_event_type_witness :
  exists g2 st,
    Queue.Guard_ctor 1 Queue.FULL (boot, new_conditions) = Returns g2 st /\
    Queue.Guard_active (fst (Queue.Guard_move_assign (Queue.mkGuard None Queue.EMPTY (-1)) g2))
      = true /\
    Queue.Guard_fd (fst (Queue.Guard_move_assign (Queue.mkGuard None Queue.EMPTY (-1)) g2))
      = Queue.Guard_fd g2 /\
    Queue.guard_t_ (fst (Queue.Guard_move_assign (Queue.mkGuard None Queue.EMPTY (-1)) g2))
      = Queue.EMPTY /\
    Queue.Guard_active (snd (Queue.Guard_move_assign (Queue.mkGuard None Queue.EMPTY (-1)) g2))
      = false /\
    Queue.Guard_ack (fst (Queue.Guard_move_assign (Queue.mkGuard None Queue.EMPTY (-1)) g2)) st
      = Throws NoSuchItem st /\
    Queue.Guard_stop (fst (Queue.Guard_move_assign (Queue.mkGuard None Queue.EMPTY (-1)) g2)) st
      = Throws NoSuchItem st.
Proof.
  apply (guard_assignment_keeps_event_type 1 Queue.EMPTY Queue.FULL boot new_conditions).
  - exact new_conditions_consistent.
  - vm_compute. reflexivity.
  - discriminate.
Defined.

